(** * Agenda Web: the record store, the read cache and the auto-completion
      scheduler

    A shallow embedding of [src/db/database.ts] (class [EventDatabase]) and of
    [src/store/eventStore.ts] (the zustand store [useEventStore]), and the
    properties of the two that the specification states.

    Conventions.
    - A JavaScript number that the program only uses as an integer (an event
      id, a priority, a millisecond timestamp, a timeout handle) is a [Z].
    - A [Promise] is modelled by its outcome: [Resolved v] or [Rejected e].
      Every operation of the store, and every callback of a timeout, runs to
      its end before the next one starts: no two of them interleave at an
      [await].
    - One operation reads the clock once: its [now] argument.
    - The object store of IndexedDB is a finite map from the primary key to the
      record, together with its key generator and the list of the requests
      that were issued against it; the list is how a property speaks of a
      read, a write or a query that did or did not happen. A request on the
      store does what IndexedDB specifies ([add] under a generated key, [put]
      under the key path, [delete] of a key that may hold nothing, [getAll]
      in key order); a failure of the storage itself is not modelled.
    - The [cache] object is a finite map from its keys, ['all'] or a selected
      date; the key ['__proto__'], which an assignment to an object literal
      does not keep as an own property, is not modelled.
    - A timeout holds the delay it was given; the time at which it is due
      counts with the delay the browser keeps, a signed 32-bit integer. *)

From Stdlib Require Import ZArith Lia Ascii String.
From stdpp Require Import gmap strings list sorting pretty.

Local Open Scope Z_scope.

(** ** JavaScript values *)

(** An [Error] object: what the program reads of it is [name] and [message]. *)
Module Err.
Record t := mk { name : string; message : string }.
End Err.

Definition Error (message : string) : Err.t := Err.mk "Error" message.

(** [class InvalidPriorityError extends Error]. The template literal prints
    the value as its decimal numeral. *)
Definition InvalidPriorityError (value : Z) : Err.t :=
  Err.mk "InvalidPriorityError"
    ("Prioridade inválida: " +:+ pretty value +:+
     ". Use 1 (pouco importante), 2 (razoavelmente importante) ou 3 (muito importante)").

(** The outcome of a promise. *)
Inductive Outcome (A : Type) : Type :=
  | Resolved (value : A)
  | Rejected (reason : Err.t).
Arguments Resolved {A} value.
Arguments Rejected {A} reason.

Definition is_resolved {A} (o : Outcome A) : bool :=
  match o with Resolved _ => true | Rejected _ => false end.

(** What the program takes from its platform: [parseISO] of date-fns followed
    by [getTime] ([None] is an Invalid Date, whose time is NaN),
    [Date.prototype.toISOString] and [String.prototype.localeCompare]. *)
Class Runtime := {
  parseISO : string → option Z;
  toISOString : Z → string;
  localeCompare : string → string → Z;
}.

(** [isBefore(date, dateToCompare)] of date-fns: [+date < +dateToCompare],
    false when [date] is invalid. *)
Definition isBefore (date : option Z) (dateToCompare : Z) : bool :=
  match date with
  | Some t => bool_decide (t < dateToCompare)
  | None => false
  end.

(** [Array.prototype.includes] on numbers. *)
Definition includes (l : list Z) (x : Z) : bool := bool_decide (x ∈ l).

(** [Array.prototype.sort(compareFn)]. The sort is stable: the elements are
    inserted from the last to the first, each before the first element that it
    does not compare greater than. *)
Fixpoint sort_insert {A} (compareFn : A → A → Z) (x : A) (l : list A) : list A :=
  match l with
  | [] => [x]
  | y :: l' =>
      if bool_decide (compareFn x y ≤ 0) then x :: l
      else y :: sort_insert compareFn x l'
  end.

Definition sort {A} (compareFn : A → A → Z) (l : list A) : list A :=
  foldr (sort_insert compareFn) [] l.

(** [a || b] on numbers. *)
Definition or_else (a b : Z) : Z := if bool_decide (a = 0) then b else a.

(** ** The data model of [database.ts] *)

Module CreateEvent.
Record t := mk {
  title : string;
  description : string;
  date : string;
  time : string;
  priority : Z;
}.
End CreateEvent.

Module Event.
Record t := mk {
  id : Z;
  title : string;
  description : string;
  date : string;
  time : string;
  priority : Z;
  completed : bool;
  created_at : string;
  updated_at : option string;
}.

(** [{ ...event, completed: true }] *)
Definition set_completed (e : t) (c : bool) : t :=
  mk (id e) (title e) (description e) (date e) (time e) (priority e) c
     (created_at e) (updated_at e).
End Event.

(** A partial update. A field is [None] when the object has no such key. The
    interface declares the first five; [markEventAsCompleted] passes
    [{ completed }] through a cast, so [completed] is a sixth possible key. *)
Module UpdateEvent.
Record t := mk {
  title : option string;
  description : option string;
  date : option string;
  time : option string;
  priority : option Z;
  completed : option bool;
}.

(** [{ completed }] *)
Definition only_completed (c : bool) : t := mk None None None None None (Some c).
End UpdateEvent.

(** ** The object store ['events'] of IndexedDB *)

(** A request issued on the object store or on one of its two indexes. *)
Inductive Request : Type :=
  | StoreGetAll
  | DateIndexGetAll (date : string)
  | PriorityIndexGetAll (priority : Z)
  | StoreGet (id : Z)
  | StoreAdd (record : Event.t)
  | StorePut (record : Event.t)
  | StoreDelete (id : Z).

Definition is_query (r : Request) : bool :=
  match r with
  | StoreGetAll | DateIndexGetAll _ | PriorityIndexGetAll _ => true
  | _ => false
  end.

(** [keyPath: 'id', autoIncrement: true]: [records] maps a key to its record,
    [keygen] is the key generator's current number, and [requests] lists the
    requests issued so far, oldest first. *)
Module ObjectStore.
Record t := mk {
  records : gmap Z Event.t;
  keygen : Z;
  requests : list Request;
}.

(** A store as [onupgradeneeded] creates it. *)
Definition created : t := mk ∅ 1 [].
End ObjectStore.

(** Issue a request: it is appended to the log. *)
Definition issue (r : Request) (s : ObjectStore.t) : ObjectStore.t :=
  ObjectStore.mk (ObjectStore.records s) (ObjectStore.keygen s)
                 (ObjectStore.requests s ++ [r]).

(** The records in ascending order of their primary key, as [getAll] returns
    them. *)
Definition in_key_order (m : gmap Z Event.t) : list Event.t :=
  (sort (λ a b, a.1 - b.1) (map_to_list m)).*2.

(** [store.put(record)]: the record is stored under [record.id], and the key
    generator moves past an explicit key. *)
Definition put (record : Event.t) (s : ObjectStore.t) : ObjectStore.t :=
  ObjectStore.mk (<[Event.id record := record]> (ObjectStore.records s))
                 (Z.max (ObjectStore.keygen s) (Event.id record + 1))
                 (ObjectStore.requests s).

(** ** [class EventDatabase], exported as [db] *)

Module db.
Section EventDatabase.
Context `{Runtime}.

(** [validatePriority] *)
Definition validatePriority (priority : Z) : Outcome unit :=
  if negb (includes [1; 2; 3] priority)
  then Rejected (InvalidPriorityError priority)
  else Resolved ().

(** The comparator of [getAllEvents] and [getEventsByPriority]. *)
Definition by_date_time (a b : Event.t) : Z :=
  or_else (localeCompare (Event.date a) (Event.date b))
          (localeCompare (Event.time a) (Event.time b)).

(** The comparator of [getEventsByDate]. *)
Definition by_time (a b : Event.t) : Z :=
  localeCompare (Event.time a) (Event.time b).

(** [getAllEvents] *)
Definition getAllEvents (s : ObjectStore.t)
  : ObjectStore.t * Outcome (list Event.t) :=
  let s := issue StoreGetAll s in
  (s, Resolved (sort by_date_time (in_key_order (ObjectStore.records s)))).

(** [getEventsByDate] *)
Definition getEventsByDate (date : string) (s : ObjectStore.t)
  : ObjectStore.t * Outcome (list Event.t) :=
  let s := issue (DateIndexGetAll date) s in
  let result :=
    filter (λ e, Event.date e = date) (in_key_order (ObjectStore.records s)) in
  (s, Resolved (sort by_time result)).

(** [addEvent] *)
Definition addEvent (event : CreateEvent.t) (now : Z) (s : ObjectStore.t)
  : ObjectStore.t * Outcome Z :=
  match validatePriority (CreateEvent.priority event) with
  | Rejected e => (s, Rejected e)
  | Resolved _ =>
      let key := ObjectStore.keygen s in
      let newEvent :=
        Event.mk key (CreateEvent.title event) (CreateEvent.description event)
                 (CreateEvent.date event) (CreateEvent.time event)
                 (CreateEvent.priority event) false (toISOString now) None in
      let s := issue (StoreAdd newEvent) s in
      match ObjectStore.records s !! key with
      | Some _ => (s, Rejected (Err.mk "ConstraintError"
                         "Key already exists in the object store."))
      | None =>
          (ObjectStore.mk (<[key := newEvent]> (ObjectStore.records s))
                          (key + 1) (ObjectStore.requests s),
           Resolved key)
      end
  end.

(** [value !== undefined && event[key] !== value] *)
Definition differs {A} `{EqDecision A} (value : option A) (current : A) : bool :=
  match value with
  | Some v => bool_decide (current ≠ v)
  | None => false
  end.

(** [Object.entries(updates).some(...)] *)
Definition needsUpdate (updates : UpdateEvent.t) (event : Event.t) : bool :=
  differs (UpdateEvent.title updates) (Event.title event)
  || differs (UpdateEvent.description updates) (Event.description event)
  || differs (UpdateEvent.date updates) (Event.date event)
  || differs (UpdateEvent.time updates) (Event.time event)
  || differs (UpdateEvent.priority updates) (Event.priority event)
  || differs (UpdateEvent.completed updates) (Event.completed event).

(** [{ ...event, ...updates, updated_at: new Date().toISOString() }] *)
Definition updatedEvent (event : Event.t) (updates : UpdateEvent.t) (now : Z)
  : Event.t :=
  Event.mk (Event.id event)
    (default (Event.title event) (UpdateEvent.title updates))
    (default (Event.description event) (UpdateEvent.description updates))
    (default (Event.date event) (UpdateEvent.date updates))
    (default (Event.time event) (UpdateEvent.time updates))
    (default (Event.priority event) (UpdateEvent.priority updates))
    (default (Event.completed event) (UpdateEvent.completed updates))
    (Event.created_at event)
    (Some (toISOString now)).

(** [updateEvent] *)
Definition updateEvent (id : Z) (updates : UpdateEvent.t) (now : Z)
    (s : ObjectStore.t) : ObjectStore.t * Outcome unit :=
  match from_option validatePriority (Resolved ()) (UpdateEvent.priority updates) with
  | Rejected e => (s, Rejected e)
  | Resolved _ =>
      let s := issue (StoreGet id) s in
      match ObjectStore.records s !! id with
      | None => (s, Rejected (Error "Evento não encontrado"))
      | Some event =>
          if needsUpdate updates event then
            let record := updatedEvent event updates now in
            (put record (issue (StorePut record) s), Resolved ())
          else (s, Resolved ())
      end
  end.

(** [deleteEvent]: deleting a key that holds no record succeeds. *)
Definition deleteEvent (id : Z) (s : ObjectStore.t)
  : ObjectStore.t * Outcome unit :=
  let s := issue (StoreDelete id) s in
  (ObjectStore.mk (delete id (ObjectStore.records s)) (ObjectStore.keygen s)
                  (ObjectStore.requests s),
   Resolved ()).

(** [getEventsByDateRange]. On strings [>=] and [<=] compare code unit by
    code unit. *)
Definition getEventsByDateRange (startDate endDate : string) (s : ObjectStore.t)
  : ObjectStore.t * Outcome (list Event.t) :=
  match getAllEvents s with
  | (s, Rejected e) => (s, Rejected e)
  | (s, Resolved allEvents) =>
      (s, Resolved (filter (λ event, String.leb startDate (Event.date event)
                                     && String.leb (Event.date event) endDate)
                           allEvents))
  end.

(** [markEventAsCompleted] *)
Definition markEventAsCompleted (id : Z) (completed : bool) (now : Z)
    (s : ObjectStore.t) : ObjectStore.t * Outcome unit :=
  updateEvent id (UpdateEvent.only_completed completed) now s.

(** [getEventsByPriority] *)
Definition getEventsByPriority (priority : Z) (s : ObjectStore.t)
  : ObjectStore.t * Outcome (list Event.t) :=
  match validatePriority priority with
  | Rejected e => (s, Rejected e)
  | Resolved _ =>
      let s := issue (PriorityIndexGetAll priority) s in
      let result :=
        filter (λ e, Event.priority e = priority)
               (in_key_order (ObjectStore.records s)) in
      (s, Resolved (sort by_date_time result))
  end.
End EventDatabase.
End db.

(** [getPriorityText]; a [throw] is the outcome [Rejected]. *)
Definition getPriorityText (priority : Z) : Outcome string :=
  match priority with
  | 1 => Resolved "Pouco importante"
  | 2 => Resolved "Razoavelmente importante"
  | 3 => Resolved "Muito importante"
  | _ => Rejected (InvalidPriorityError priority)
  end.

(** ** The state of [eventStore.ts] *)

(** [interface CacheEntry] *)
Module CacheEntry.
Record t := mk { timestamp : Z; events : list Event.t }.
End CacheEntry.

(** The published state of the zustand store (the data fields of
    [interface EventStore]). *)
Module State.
Record t := mk {
  isDBReady : bool;
  events : list Event.t;
  loading : bool;
  error : option string;
  selectedDate : option string;
}.

Definition initial : t := mk false [] false None None.
End State.

(** A pending [setTimeout] of [scheduleEventCheck]: its callback closes over
    [event] (and reads [event.id]), [delay] is the delay it was given ([None]
    is NaN). *)
Module Timeout.
Record t := mk { event : Z; armed_at : Z; delay : option Z }.

(** [ToInt32]: the conversion of a number to the [long] that [setTimeout]
    takes for its delay, a signed 32-bit integer. *)
Definition ToInt32 (x : Z) : Z := (x + 2 ^ 31) `mod` 2 ^ 32 - 2 ^ 31.

(** The delay the browser keeps: NaN converts to 0, a delay above
    2147483647 wraps around, and a negative delay is 0. *)
Definition kept (delay : option Z) : Z := Z.max 0 (ToInt32 (default 0 delay)).

(** The earliest time at which the browser runs the callback. *)
Definition due (x : t) : Z := armed_at x + kept (delay x).
End Timeout.

(** Everything the store's closure reaches: the database, the [cache] object,
    the [scheduledChecks] map from an event id to a timeout handle, the
    browser's pending timeouts by handle with the next handle it gives out,
    and the published state. *)
Module World.
Record t := mk {
  db : ObjectStore.t;
  cache : gmap string CacheEntry.t;
  scheduledChecks : gmap Z Z;
  timeouts : gmap Z Timeout.t;
  nextTimeout : Z;
  state : State.t;
}.

Definition initial : t := mk ObjectStore.created ∅ ∅ ∅ 1 State.initial.

Definition with_db (w : t) (x : ObjectStore.t) : t :=
  mk x (cache w) (scheduledChecks w) (timeouts w) (nextTimeout w) (state w).
Definition with_cache (w : t) (x : gmap string CacheEntry.t) : t :=
  mk (db w) x (scheduledChecks w) (timeouts w) (nextTimeout w) (state w).
Definition with_scheduledChecks (w : t) (x : gmap Z Z) : t :=
  mk (db w) (cache w) x (timeouts w) (nextTimeout w) (state w).
Definition with_timeouts (w : t) (x : gmap Z Timeout.t) (n : Z) : t :=
  mk (db w) (cache w) (scheduledChecks w) x n (state w).
Definition with_state (w : t) (x : State.t) : t :=
  mk (db w) (cache w) (scheduledChecks w) (timeouts w) (nextTimeout w) x.
End World.

(** [set({ ... })] of zustand, one definition per shape of partial state the
    store passes. *)
Definition set_events (events : list Event.t) (w : World.t) : World.t :=
  let s := World.state w in
  World.with_state w
    (State.mk (State.isDBReady s) events false (State.error s) (State.selectedDate s)).

Definition set_error (message : string) (w : World.t) : World.t :=
  let s := World.state w in
  World.with_state w
    (State.mk (State.isDBReady s) (State.events s) false (Some message)
              (State.selectedDate s)).

Definition set_loading (w : World.t) : World.t :=
  let s := World.state w in
  World.with_state w
    (State.mk (State.isDBReady s) (State.events s) true None (State.selectedDate s)).

(** [clearTimeout(handle)] *)
Definition clearTimeout (handle : Z) (w : World.t) : World.t :=
  World.with_timeouts w (delete handle (World.timeouts w)) (World.nextTimeout w).

(** [setTimeout(callback, delay)]: returns the new handle. *)
Definition setTimeout (event : Z) (delay : option Z) (now : Z) (w : World.t)
  : Z * World.t :=
  let handle := World.nextTimeout w in
  (handle,
   World.with_timeouts w
     (<[handle := Timeout.mk event now delay]> (World.timeouts w)) (handle + 1)).

(** [if (scheduledChecks.has(id)) { clearTimeout(scheduledChecks.get(id));
    scheduledChecks.delete(id); }] *)
Definition unschedule (id : Z) (w : World.t) : World.t :=
  match World.scheduledChecks w !! id with
  | Some handle =>
      World.with_scheduledChecks (clearTimeout handle w)
        (delete id (World.scheduledChecks w))
  | None => w
  end.

(** ** The store [useEventStore] *)

Module store.
Section EventStore.
Context `{Runtime}.

Definition CACHE_DURATION : Z := 5000.

(** [isCacheValid] *)
Definition isCacheValid (key : string) (now : Z) (w : World.t) : bool :=
  match World.cache w !! key with
  | None => false
  | Some entry => bool_decide (now - CacheEntry.timestamp entry < CACHE_DURATION)
  end.

(** [updateCache] *)
Definition updateCache (key : string) (events : list Event.t) (now : Z)
    (w : World.t) : World.t :=
  World.with_cache w (<[key := CacheEntry.mk now events]> (World.cache w)).

(** [invalidateCache]: [Object.keys(cache).forEach(key => delete cache[key])] *)
Definition invalidateCache (w : World.t) : World.t :=
  World.with_cache w
    (foldl (λ cache key, delete key cache) (World.cache w)
           (map_to_list (World.cache w)).*1).

(** The [events.map(...)] of [checkAndUpdatePastEvents]: the mapped list, and
    [eventsToUpdate] after the pushes. *)
Fixpoint reconcile (events : list Event.t) (now : Z) (eventsToUpdate : list Z)
  : list Event.t * list Z :=
  match events with
  | [] => ([], eventsToUpdate)
  | event :: rest =>
      if negb (Event.completed event)
         && isBefore (parseISO (Event.date event +:+ "T" +:+ Event.time event)) now
      then
        let '(updated, ids) := reconcile rest now (eventsToUpdate ++ [Event.id event]) in
        (Event.set_completed event true :: updated, ids)
      else
        let '(updated, ids) := reconcile rest now eventsToUpdate in
        (event :: updated, ids)
  end.

(** [Promise.all(eventsToUpdate.map(id => db.markEventAsCompleted(id, true)))]:
    every update runs, in the order of the list (one transaction each, on
    one object store); the first rejection is the outcome. *)
Fixpoint markAll (ids : list Z) (now : Z) (s : ObjectStore.t)
  : ObjectStore.t * Outcome unit :=
  match ids with
  | [] => (s, Resolved ())
  | id :: rest =>
      let '(s, first) := db.markEventAsCompleted id true now s in
      let '(s, others) := markAll rest now s in
      (s, match first with Rejected e => Rejected e | Resolved _ => others end)
  end.

(** [checkAndUpdatePastEvents] *)
Definition checkAndUpdatePastEvents (events : list Event.t) (now : Z)
    (s : ObjectStore.t) : ObjectStore.t * Outcome (list Event.t) :=
  let '(updatedEvents, eventsToUpdate) := reconcile events now [] in
  let '(s, written) :=
    if bool_decide (0 < length eventsToUpdate)%nat
    then markAll eventsToUpdate now s
    else (s, Resolved ()) in
  (s, match written with
      | Rejected e => Rejected e
      | Resolved _ => Resolved updatedEvents
      end).

(** [scheduleEventCheck] *)
Definition scheduleEventCheck (event : Event.t) (now : Z) (w : World.t) : World.t :=
  if Event.completed event then w
  else
    let eventDateTime := parseISO (Event.date event +:+ "T" +:+ Event.time event) in
    if isBefore eventDateTime now then w
    else
      let w := unschedule (Event.id event) w in
      let '(timeout, w) :=
        setTimeout (Event.id event) ((λ t, t - now) <$> eventDateTime) now w in
      World.with_scheduledChecks w
        (<[Event.id event := timeout]> (World.scheduledChecks w)).

(** [selectedDate || 'all'], and the test [selectedDate ? ... : ...]: the
    empty string counts as no date. *)
Definition chosenDate (w : World.t) : option string :=
  match State.selectedDate (World.state w) with
  | Some "" => None
  | d => d
  end.

Definition cacheKey (w : World.t) : string := default "all" (chosenDate w).

(** The [catch] of [refreshEvents] and of the public operations. *)
Definition caught (e : Err.t) (w : World.t) : World.t :=
  set_error (Err.message e) w.

(** [refreshEvents]. It rejects only on the cache path, whose call of
    [checkAndUpdatePastEvents] is outside the [try]. *)
Definition refreshEvents (now : Z) (w : World.t) : World.t * Outcome unit :=
  if negb (State.isDBReady (World.state w)) then (w, Resolved ())
  else
  let cacheKey := cacheKey w in
  if isCacheValid cacheKey now w then
    match World.cache w !! cacheKey with
    | None => (w, Resolved ())
    | Some entry =>
        match checkAndUpdatePastEvents (CacheEntry.events entry) now (World.db w) with
        | (s, Rejected e) => (World.with_db w s, Rejected e)
        | (s, Resolved cachedEvents) =>
            (set_events cachedEvents (World.with_db w s), Resolved ())
        end
    end
  else
    let '(s, fetched) :=
      match chosenDate w with
      | Some selectedDate => db.getEventsByDate selectedDate (World.db w)
      | None => db.getAllEvents (World.db w)
      end in
    match fetched with
    | Rejected e => (caught e (World.with_db w s), Resolved ())
    | Resolved events =>
        match checkAndUpdatePastEvents events now s with
        | (s, Rejected e) => (caught e (World.with_db w s), Resolved ())
        | (s, Resolved events) =>
            let w := World.with_db w s in
            let w := foldl (λ w event, scheduleEventCheck event now w) w events in
            let w := updateCache cacheKey events now w in
            (set_events events w, Resolved ())
        end
    end.

(** The callback of the timeout armed by [scheduleEventCheck], run by the
    browser for a pending [handle]; a rejected [await] ends it. *)
Definition timeoutFires (handle : Z) (now : Z) (w : World.t) : World.t :=
  match World.timeouts w !! handle with
  | None => w
  | Some timeout =>
      let w := clearTimeout handle w in
      match db.markEventAsCompleted (Timeout.event timeout) true now (World.db w) with
      | (s, Rejected _) => World.with_db w s
      | (s, Resolved _) =>
          match refreshEvents now (World.with_db w s) with
          | (w, Rejected _) => w
          | (w, Resolved _) =>
              World.with_scheduledChecks w
                (delete (Timeout.event timeout) (World.scheduledChecks w))
          end
      end
  end.

(** [cleanup] *)
Definition cleanup (w : World.t) : World.t :=
  let w :=
    foldl (λ w timeout, clearTimeout timeout w) w
          (map_to_list (World.scheduledChecks w)).*2 in
  World.with_scheduledChecks w ∅.

(** [clearError] *)
Definition clearError (w : World.t) : World.t :=
  let s := World.state w in
  World.with_state w
    (State.mk (State.isDBReady s) (State.events s) (State.loading s) None
              (State.selectedDate s)).

(** [clearCache] *)
Definition clearCache (w : World.t) : World.t := invalidateCache w.

(** The end of a public operation: [await refreshEvents()] inside its
    [try], so a rejection is caught. *)
Definition refreshed (now : Z) (w : World.t) : World.t :=
  match refreshEvents now w with
  | (w, Rejected e) => caught e w
  | (w, Resolved _) => w
  end.

Definition notReady : Err.t := Error "DB não está inicializado".

(** [initializeStore]; [opened] is the outcome of [db.initDB()]. *)
Definition initializeStore (opened : Outcome unit) (now : Z) (w : World.t)
  : World.t :=
  let s := World.state w in
  let w :=
    World.with_state w
      (State.mk (State.isDBReady s) (State.events s) true (State.error s)
                (State.selectedDate s)) in
  match opened with
  | Rejected e => caught e w
  | Resolved _ =>
      let s := World.state w in
      let w :=
        World.with_state w
          (State.mk true (State.events s) false (State.error s)
                    (State.selectedDate s)) in
      refreshed now w
  end.

(** [setSelectedDate]: the refresh is not awaited, its rejection is lost. *)
Definition setSelectedDate (date : option string) (now : Z) (w : World.t)
  : World.t :=
  let s := World.state w in
  let w :=
    World.with_state w
      (State.mk (State.isDBReady s) (State.events s) true (State.error s) date) in
  (refreshEvents now w).1.

(** [fetchEvents] *)
Definition fetchEvents (now : Z) (w : World.t) : World.t :=
  if negb (State.isDBReady (World.state w)) then w
  else refreshed now (set_loading w).

(** [fetchEventsByDate] *)
Definition fetchEventsByDate (date : string) (now : Z) (w : World.t) : World.t :=
  if negb (State.isDBReady (World.state w)) then w
  else
    let s := World.state w in
    let w :=
      World.with_state w
        (State.mk (State.isDBReady s) (State.events s) true None (Some date)) in
    refreshed now w.

(** [addEvent] *)
Definition addEvent (event : CreateEvent.t) (now : Z) (w : World.t)
  : World.t * Outcome unit :=
  if negb (State.isDBReady (World.state w)) then (w, Rejected notReady)
  else
    let w := set_loading w in
    match db.addEvent event now (World.db w) with
    | (s, Rejected e) => (caught e (World.with_db w s), Resolved ())
    | (s, Resolved _) =>
        (refreshed now (invalidateCache (World.with_db w s)), Resolved ())
    end.

(** [updateEvent] *)
Definition updateEvent (id : Z) (updates : UpdateEvent.t) (now : Z) (w : World.t)
  : World.t * Outcome unit :=
  if negb (State.isDBReady (World.state w)) then (w, Rejected notReady)
  else
    let w := set_loading w in
    match db.updateEvent id updates now (World.db w) with
    | (s, Rejected e) => (caught e (World.with_db w s), Resolved ())
    | (s, Resolved _) =>
        let w := unschedule id (World.with_db w s) in
        (refreshed now (invalidateCache w), Resolved ())
    end.

(** [deleteEvent] *)
Definition deleteEvent (id : Z) (now : Z) (w : World.t)
  : World.t * Outcome unit :=
  if negb (State.isDBReady (World.state w)) then (w, Rejected notReady)
  else
    let w := unschedule id (set_loading w) in
    match db.deleteEvent id (World.db w) with
    | (s, Rejected e) => (caught e (World.with_db w s), Resolved ())
    | (s, Resolved _) =>
        (refreshed now (invalidateCache (World.with_db w s)), Resolved ())
    end.

(** [markEventAsCompleted] *)
Definition markEventAsCompleted (id : Z) (completed : bool) (now : Z)
    (w : World.t) : World.t * Outcome unit :=
  if negb (State.isDBReady (World.state w)) then (w, Rejected notReady)
  else
    let w := set_loading w in
    let w := if completed then unschedule id w else w in
    match db.markEventAsCompleted id completed now (World.db w) with
    | (s, Rejected e) => (caught e (World.with_db w s), Resolved ())
    | (s, Resolved _) =>
        (refreshed now (invalidateCache (World.with_db w s)), Resolved ())
    end.
End EventStore.
End store.

(** ** The component [EventList] of [eventList.tsx] *)

(** A [Map<string, Event[]>] of JavaScript: its entries in the order of
    insertion. The arrays it holds are shared, so a [push] on the array that
    [get] returns changes the entry. *)
Module Map.
Definition t : Type := list (string * list Event.t).

Definition has (key : string) (m : t) : bool := bool_decide (key ∈ m.*1).

Definition get (key : string) (m : t) : option (list Event.t) :=
  snd <$> List.find (λ entry, bool_decide (entry.1 = key)) m.

(** [set] of a key the map has replaces the value where it is; a new key goes
    last. *)
Definition set (key : string) (value : list Event.t) (m : t) : t :=
  if has key m
  then (λ entry, if bool_decide (entry.1 = key) then (key, value) else entry) <$> m
  else m ++ [(key, value)].

(** [m.get(key)?.push(event)] *)
Definition push (key : string) (event : Event.t) (m : t) : t :=
  match get key m with
  | None => m
  | Some _ =>
      (λ entry, if bool_decide (entry.1 = key) then (entry.1, entry.2 ++ [event])
                else entry) <$> m
  end.
End Map.

Module eventList.
Section EventList.
Context `{Runtime}.

(** [getPriorityClass] *)
Definition getPriorityClass (priority : Z) : string :=
  match priority with
  | 1 => "priority-low"
  | 2 => "priority-medium"
  | 3 => "priority-high"
  | _ => ""
  end.

(** [handleCheckboxChange]: a rejection of the store is caught and logged. *)
Definition handleCheckboxChange (id : Z) (completed : bool) (now : Z) (w : World.t)
  : World.t :=
  (store.markEventAsCompleted id (negb completed) now w).1.

(** The comparator of [processedEvents]. *)
Definition by_date_time_priority (a b : Event.t) : Z :=
  let dateA := Event.date a +:+ "T" +:+ Event.time a in
  let dateB := Event.date b +:+ "T" +:+ Event.time b in
  let timeCompare := localeCompare dateA dateB in
  if negb (bool_decide (timeCompare = 0)) then timeCompare
  else Event.priority b - Event.priority a.

(** The callback of [filteredEvents.forEach] that fills [grouped]. *)
Definition group (grouped : Map.t) (event : Event.t) : Map.t :=
  let key := Event.date event in
  let grouped := if negb (Map.has key grouped) then Map.set key [] grouped
                 else grouped in
  Map.push key event grouped.

(** [processedEvents], of the published [events] and the properties
    [filterDate] ([None] when it is not given; the empty string is falsy too)
    and [groupByDate]. *)
Definition processedEvents (events : list Event.t) (filterDate : option string)
    (groupByDate : bool) : list Event.t + Map.t :=
  let filteredEvents := events in
  let filteredEvents :=
    match filterDate with
    | None | Some "" => filteredEvents
    | Some filterDate =>
        filter (λ event, Event.date event = filterDate) filteredEvents
    end in
  let filteredEvents := sort by_date_time_priority filteredEvents in
  if groupByDate then inr (foldl group [] filteredEvents)
  else inl filteredEvents.
End EventList.
End eventList.

(** ** A runtime to run the model on

    A browser whose local time zone is UTC, for the strings the application's
    date and time inputs produce: [YYYY-MM-DD] and [HH:MM], which
    [localeCompare] orders by code unit. The examples use it on such strings
    only; this [parseISO] makes every other string an Invalid Date, where
    date-fns accepts more shapes. *)

Module utc.
Definition digit (c : ascii) : option Z :=
  let n := Z.of_N (Ascii.N_of_ascii c) in
  if bool_decide (48 ≤ n ≤ 57) then Some (n - 48) else None.

Definition number (cs : list ascii) : option Z :=
  foldl (λ acc c, n ← acc; d ← digit c; Some (10 * n + d)) (Some 0) cs.

(** Days from 1970-01-01 to the civil date [y]-[m]-[d]. *)
Definition days_from_civil (y m d : Z) : Z :=
  let y := if bool_decide (m ≤ 2) then y - 1 else y in
  let era := y `div` 400 in
  let yoe := y - era * 400 in
  let doy := (153 * ((m + 9) `mod` 12) + 2) `div` 5 + d - 1 in
  let doe := yoe * 365 + yoe `div` 4 - yoe `div` 100 + doy in
  era * 146097 + doe - 719468.

(** The civil date [(y, m, d)] of a day count. *)
Definition civil_from_days (z : Z) : Z * Z * Z :=
  let z := z + 719468 in
  let era := z `div` 146097 in
  let doe := z - era * 146097 in
  let yoe := (doe - doe `div` 1460 + doe `div` 36524 - doe `div` 146096) `div` 365 in
  let doy := doe - (365 * yoe + yoe `div` 4 - yoe `div` 100) in
  let mp := (5 * doy + 2) `div` 153 in
  let d := doy - (153 * mp + 2) `div` 5 + 1 in
  let m := if bool_decide (mp < 10) then mp + 3 else mp - 9 in
  (yoe + era * 400 + (if bool_decide (m ≤ 2) then 1 else 0), m, d).

Definition parse (s : string) : option Z :=
  match String.list_ascii_of_string s with
  | [y1; y2; y3; y4; "-"; m1; m2; "-"; d1; d2; "T"; h1; h2; ":"; n1; n2]%char =>
      y ← number [y1; y2; y3; y4];
      m ← number [m1; m2];
      d ← number [d1; d2];
      h ← number [h1; h2];
      n ← number [n1; n2];
      if bool_decide (1 ≤ m ≤ 12 ∧ 1 ≤ d ∧ h ≤ 23 ∧ n ≤ 59
                      ∧ civil_from_days (days_from_civil y m d) = (y, m, d))
      then Some (((days_from_civil y m d * 24 + h) * 60 + n) * 60000)
      else None
  | _ => None
  end.

(** [x] in decimal, padded with zeros to [width] digits. *)
Definition padded (width : nat) (x : Z) : string :=
  let s := pretty x in
  String.string_of_list_ascii (replicate (width - String.length s) "0"%char) +:+ s.

Definition print (ms : Z) : string :=
  let '(y, m, d) := civil_from_days (ms `div` 86400000) in
  let r := ms `mod` 86400000 in
  padded 4 y +:+ "-" +:+ padded 2 m +:+ "-" +:+ padded 2 d +:+ "T"
  +:+ padded 2 (r `div` 3600000) +:+ ":" +:+ padded 2 ((r `mod` 3600000) `div` 60000)
  +:+ ":" +:+ padded 2 ((r `mod` 60000) `div` 1000) +:+ "." +:+ padded 3 (r `mod` 1000)
  +:+ "Z".

Definition compare (s t : string) : Z :=
  match String.compare s t with Lt => -1 | Eq => 0 | Gt => 1 end.

Definition runtime : Runtime :=
  {| parseISO := parse; toISOString := print; localeCompare := compare |}.
End utc.


(** * Properties *)

(** ** [Array.prototype.sort] *)

Section sorting.
Context {A : Type} (compareFn : A → A → Z).

Lemma sort_insert_perm (x : A) (l : list A) : sort_insert compareFn x l ≡ₚ x :: l.
Proof.
  induction l as [|y l IH]; simpl; [done|].
  case_bool_decide; [done|]. rewrite IH. apply Permutation_swap.
Qed.

Lemma sort_perm (l : list A) : sort compareFn l ≡ₚ l.
Proof.
  induction l as [|x l IH]; simpl; [done|].
  rewrite sort_insert_perm. by f_equiv.
Qed.

Lemma elem_of_sort (x : A) (l : list A) : x ∈ sort compareFn l ↔ x ∈ l.
Proof. by rewrite sort_perm. Qed.

(** The comparator decides a transitive relation [R] on the elements that
    satisfy [P]. *)
Context (R : relation A) (P : A → Prop).
Context (compare_le : ∀ x y, P x → P y → compareFn x y ≤ 0 → R x y).
Context (compare_gt : ∀ x y, P x → P y → ¬ compareFn x y ≤ 0 → R y x).
Context (R_trans : ∀ x y z, R x y → R y z → R x z).

Lemma sort_insert_sorted (x : A) (l : list A) :
  P x → Forall P l → StronglySorted R l →
  StronglySorted R (sort_insert compareFn x l).
Proof.
  intros Hx. induction l as [|y l IH]; simpl; intros HP Hs.
  { repeat constructor. }
  apply Forall_cons in HP as [Hy HP].
  apply StronglySorted_inv in Hs as [Hs Hy_le].
  case_bool_decide as Hc.
  - constructor; [by constructor|].
    constructor; [by apply compare_le|].
    eapply Forall_impl; [exact Hy_le|]. intros z Hz.
    apply R_trans with y; [by apply compare_le|done].
  - constructor; [by apply IH|].
    rewrite sort_insert_perm. constructor; [by apply compare_gt|done].
Qed.

Lemma sort_sorted (l : list A) : Forall P l → StronglySorted R (sort compareFn l).
Proof.
  induction l as [|x l IH]; simpl; intros HP; [constructor|].
  apply Forall_cons in HP as [Hx HP].
  apply sort_insert_sorted; [done| |by apply IH].
  by rewrite sort_perm.
Qed.
End sorting.

(** ** The order of strings by code unit *)

Definition str_lt (s t : string) : Prop := String.compare s t = Lt.
Definition str_le (s t : string) : Prop := String.compare s t ≠ Gt.

(** Ascending by date, then by time. *)
Definition date_time_le (a b : Event.t) : Prop :=
  str_lt (Event.date a) (Event.date b)
  ∨ (Event.date a = Event.date b ∧ str_le (Event.time a) (Event.time b)).

(** Ascending by time. *)
Definition time_le (a b : Event.t) : Prop := str_le (Event.time a) (Event.time b).

(** The shapes [YYYY-MM-DD] and [HH:MM]. *)
Definition is_digit (c : ascii) : bool :=
  bool_decide (48 ≤ Ascii.N_of_ascii c ≤ 57)%N.

Definition iso_date (s : string) : bool :=
  match String.list_ascii_of_string s with
  | [y1; y2; y3; y4; "-"; m1; m2; "-"; d1; d2]%char =>
      forallb is_digit [y1; y2; y3; y4; m1; m2; d1; d2]
  | _ => false
  end.

Definition iso_time (s : string) : bool :=
  match String.list_ascii_of_string s with
  | [h1; h2; ":"; n1; n2]%char => forallb is_digit [h1; h2; n1; n2]
  | _ => false
  end.

(** [localeCompare] orders the strings that satisfy [P] by code unit. *)
Definition collates_by_code_unit `{Runtime} (P : string → bool) : Prop :=
  ∀ s t, P s = true → P t = true →
    (localeCompare s t < 0 ↔ str_lt s t) ∧ (localeCompare s t = 0 ↔ s = t).

(** Every record holds a date and a time of the two shapes. *)
Definition iso_records (s : ObjectStore.t) : Prop :=
  ∀ k e, ObjectStore.records s !! k = Some e →
    iso_date (Event.date e) = true ∧ iso_time (Event.time e) = true.

Lemma ascii_compare_eq (a b : ascii) : Ascii.compare a b = Eq ↔ a = b.
Proof.
  split; [apply Ascii.compare_eq_iff|]. intros ->. apply N.compare_refl.
Qed.

Lemma ascii_compare_lt_trans (a b c : ascii) :
  Ascii.compare a b = Lt → Ascii.compare b c = Lt → Ascii.compare a c = Lt.
Proof. unfold Ascii.compare. rewrite !N.compare_lt_iff. lia. Qed.

Lemma string_compare_refl (s : string) : String.compare s s = Eq.
Proof.
  induction s as [|a s IH]; simpl; [done|].
  by rewrite (proj2 (ascii_compare_eq a a) eq_refl).
Qed.

Lemma string_compare_eq (s t : string) : String.compare s t = Eq ↔ s = t.
Proof.
  split; [apply String.compare_eq_iff|]. intros ->. apply string_compare_refl.
Qed.

Lemma str_lt_trans (s t u : string) : str_lt s t → str_lt t u → str_lt s u.
Proof.
  unfold str_lt. revert t u.
  induction s as [|a s IH]; intros [|b t] [|c u]; simpl; try done.
  destruct (Ascii.compare a b) eqn:Hab; try done;
    destruct (Ascii.compare b c) eqn:Hbc; try done.
  - apply ascii_compare_eq in Hab as ->. rewrite Hbc. apply IH.
  - apply ascii_compare_eq in Hab as ->. by rewrite Hbc.
  - apply ascii_compare_eq in Hbc as ->. by rewrite Hab.
  - by rewrite (ascii_compare_lt_trans _ _ _ Hab Hbc).
Qed.

Lemma str_le_alt (s t : string) : str_le s t ↔ s = t ∨ str_lt s t.
Proof.
  unfold str_le, str_lt. rewrite <-string_compare_eq.
  destruct (String.compare s t); naive_solver.
Qed.

Lemma str_le_trans (s t u : string) : str_le s t → str_le t u → str_le s u.
Proof.
  rewrite !str_le_alt. intros [->|Hst] [->|Htu]; eauto using str_lt_trans.
Qed.

Lemma str_gt_lt (s t : string) : String.compare s t = Gt → str_lt t s.
Proof.
  unfold str_lt. rewrite (String.compare_antisym t s). by intros ->.
Qed.

Lemma date_time_le_trans (a b c : Event.t) :
  date_time_le a b → date_time_le b c → date_time_le a c.
Proof.
  intros [Hab|[Hab Hab']] [Hbc|[Hbc Hbc']].
  - left. eauto using str_lt_trans.
  - left. by rewrite <-Hbc.
  - left. by rewrite Hab.
  - right. split; [congruence|eauto using str_le_trans].
Qed.

Section collation.
Context `{Runtime}.

Definition iso_event (e : Event.t) : Prop :=
  iso_date (Event.date e) = true ∧ iso_time (Event.time e) = true.

Context (dates : collates_by_code_unit iso_date).
Context (times : collates_by_code_unit iso_time).

Lemma locale_le (P : string → bool) (s t : string) :
  collates_by_code_unit P → P s = true → P t = true →
  localeCompare s t ≤ 0 → str_le s t.
Proof.
  intros HP Hs Ht Hc. destruct (HP s t Hs Ht) as [Hlt Heq].
  apply str_le_alt.
  destruct (decide (localeCompare s t = 0)); [left; by apply Heq|].
  right. apply Hlt. lia.
Qed.

Lemma locale_gt (P : string → bool) (s t : string) :
  collates_by_code_unit P → P s = true → P t = true →
  ¬ localeCompare s t ≤ 0 → str_lt t s.
Proof.
  intros HP Hs Ht Hc. destruct (HP s t Hs Ht) as [Hlt Heq].
  apply str_gt_lt. destruct (String.compare s t) eqn:Hcmp; [| |done].
  - apply string_compare_eq, Heq in Hcmp. lia.
  - apply Hlt in Hcmp. lia.
Qed.

Lemma by_date_time_le (a b : Event.t) :
  iso_event a → iso_event b → db.by_date_time a b ≤ 0 → date_time_le a b.
Proof.
  intros [Hda Hta] [Hdb Htb]. unfold db.by_date_time, or_else.
  case_bool_decide as Hd; intros Hc.
  - right. split; [by apply (dates _ _ Hda Hdb)|by apply (locale_le iso_time)].
  - left. apply (dates _ _ Hda Hdb). lia.
Qed.

Lemma by_date_time_gt (a b : Event.t) :
  iso_event a → iso_event b → ¬ db.by_date_time a b ≤ 0 → date_time_le b a.
Proof.
  intros [Hda Hta] [Hdb Htb]. unfold db.by_date_time, or_else.
  case_bool_decide as Hd; intros Hc.
  - right. split; [symmetry; by apply (dates _ _ Hda Hdb)|].
    apply str_le_alt. right. by apply (locale_gt iso_time).
  - left. by apply (locale_gt iso_date).
Qed.

Lemma by_time_le (a b : Event.t) :
  iso_event a → iso_event b → db.by_time a b ≤ 0 → time_le a b.
Proof. intros [_ Hta] [_ Htb]. by apply (locale_le iso_time). Qed.

Lemma by_time_gt (a b : Event.t) :
  iso_event a → iso_event b → ¬ db.by_time a b ≤ 0 → time_le b a.
Proof.
  intros [_ Hta] [_ Htb] Hc. apply str_le_alt. right. by apply (locale_gt iso_time).
Qed.
End collation.

(** ** The record store *)

(** [keyPath: 'id']: a record is stored under its own [id]. *)
Definition keyed (s : ObjectStore.t) : Prop :=
  ∀ k e, ObjectStore.records s !! k = Some e → Event.id e = k.

(** The spec's words for [needsUpdate]: a field that the update defines has
    a value other than the stored one. *)
Definition some_field_differs (updates : UpdateEvent.t) (event : Event.t) : Prop :=
  (∃ v, UpdateEvent.title updates = Some v ∧ v ≠ Event.title event)
  ∨ (∃ v, UpdateEvent.description updates = Some v ∧ v ≠ Event.description event)
  ∨ (∃ v, UpdateEvent.date updates = Some v ∧ v ≠ Event.date event)
  ∨ (∃ v, UpdateEvent.time updates = Some v ∧ v ≠ Event.time event)
  ∨ (∃ v, UpdateEvent.priority updates = Some v ∧ v ≠ Event.priority event)
  ∨ (∃ v, UpdateEvent.completed updates = Some v ∧ v ≠ Event.completed event).

(** An update whose [priority], when it has one, is a [Priority]. *)
Definition typed_update (updates : UpdateEvent.t) : Prop :=
  ∀ p, UpdateEvent.priority updates = Some p → p ∈ [1; 2; 3].

Lemma elem_of_in_key_order (m : gmap Z Event.t) (e : Event.t) :
  e ∈ in_key_order m ↔ ∃ k, m !! k = Some e.
Proof.
  unfold in_key_order. rewrite list_elem_of_fmap. split.
  - intros [[k e'] [-> Hin]]. apply elem_of_sort, elem_of_map_to_list in Hin. eauto.
  - intros [k Hk]. exists (k, e). split; [done|].
    by apply elem_of_sort, elem_of_map_to_list.
Qed.

Lemma Forall_filter_keep {A} (P Q : A → Prop) `{∀ x, Decision (Q x)} (l : list A) :
  Forall P l → Forall P (filter Q l).
Proof.
  rewrite !Forall_forall. intros HP x [_ Hx]%list_elem_of_filter. by apply HP.
Qed.

Section record_store.
Context `{Runtime}.

Lemma differs_spec {A} `{EqDecision A} (value : option A) (current : A) :
  db.differs value current = true ↔ ∃ v, value = Some v ∧ v ≠ current.
Proof.
  destruct value as [v|]; simpl; [|naive_solver].
  rewrite bool_decide_eq_true. naive_solver.
Qed.

Lemma needsUpdate_spec (updates : UpdateEvent.t) (event : Event.t) :
  db.needsUpdate updates event = true ↔ some_field_differs updates event.
Proof.
  unfold db.needsUpdate, some_field_differs.
  rewrite !orb_true_iff, !differs_spec. tauto.
Qed.

Lemma validatePriority_spec (p : Z) :
  db.validatePriority p = if decide (p ∈ [1; 2; 3]) then Resolved ()
                          else Rejected (InvalidPriorityError p).
Proof.
  unfold db.validatePriority, includes.
  destruct (decide (p ∈ [1; 2; 3])) as [Hp|Hp].
  - by rewrite bool_decide_eq_true_2.
  - by rewrite bool_decide_eq_false_2.
Qed.

Lemma iso_in_key_order (s : ObjectStore.t) :
  iso_records s → Forall iso_event (in_key_order (ObjectStore.records s)).
Proof.
  intros Hs. apply Forall_forall. intros e [k Hk]%elem_of_in_key_order.
  exact (Hs k e Hk).
Qed.
End record_store.

(** C8. On a store whose records hold ISO dates and times, which
    [localeCompare] orders by code unit, [getAllEvents] and
    [getEventsByPriority] resolve to lists sorted ascending by date, then by
    time, and [getEventsByDate] to a list sorted ascending by time; each list
    holds exactly the records the query selects. *)
Theorem queries_are_sorted `{Runtime} (s : ObjectStore.t) (d : string) (p : Z) :
  collates_by_code_unit iso_date → collates_by_code_unit iso_time → iso_records s →
  (∃ l, (db.getAllEvents s).2 = Resolved l
        ∧ StronglySorted date_time_le l
        ∧ ∀ e, e ∈ l ↔ ∃ k, ObjectStore.records s !! k = Some e)
  ∧ (p ∈ [1; 2; 3] →
     ∃ l, (db.getEventsByPriority p s).2 = Resolved l
          ∧ StronglySorted date_time_le l
          ∧ ∀ e, e ∈ l ↔ Event.priority e = p
                          ∧ ∃ k, ObjectStore.records s !! k = Some e)
  ∧ (∃ l, (db.getEventsByDate d s).2 = Resolved l
          ∧ StronglySorted time_le l
          ∧ ∀ e, e ∈ l ↔ Event.date e = d
                          ∧ ∃ k, ObjectStore.records s !! k = Some e).
Proof.
  intros Hdates Htimes Hs. pose proof (iso_in_key_order s Hs) as Hiso.
  split; [|split].
  - eexists. split; [reflexivity|]. split.
    + apply sort_sorted with (P := iso_event);
        eauto using by_date_time_le, by_date_time_gt, date_time_le_trans.
    + intros e. simpl. by rewrite elem_of_sort, elem_of_in_key_order.
  - intros Hp. unfold db.getEventsByPriority.
    rewrite validatePriority_spec, decide_True by done.
    eexists. split; [reflexivity|]. split.
    + apply sort_sorted with (P := iso_event);
        eauto using by_date_time_le, by_date_time_gt, date_time_le_trans.
      by apply Forall_filter_keep.
    + intros e. simpl.
      by rewrite elem_of_sort, list_elem_of_filter, elem_of_in_key_order.
  - eexists. split; [reflexivity|]. split.
    + apply sort_sorted with (P := iso_event);
        eauto using by_time_le, by_time_gt.
      * unfold time_le. eauto using str_le_trans.
      * by apply Forall_filter_keep.
    + intros e. simpl.
      by rewrite elem_of_sort, list_elem_of_filter, elem_of_in_key_order.
Qed.

(** C3. An insert, or an update that sets [priority], with a priority outside
    1, 2, 3 is rejected with an [InvalidPriorityError] whose message names the
    value and the three options, and the store is left as it was (no request
    is issued); with a priority among 1, 2, 3 the validation passes, and no
    rejection of the operation is an [InvalidPriorityError]. *)
Theorem priority_is_validated_before_any_write `{Runtime}
    (event : CreateEvent.t) (id : Z) (updates : UpdateEvent.t) (p now : Z)
    (s : ObjectStore.t) :
  (p ∉ [1; 2; 3] →
     (CreateEvent.priority event = p →
        db.addEvent event now s = (s, Rejected (InvalidPriorityError p)))
     ∧ (UpdateEvent.priority updates = Some p →
        db.updateEvent id updates now s = (s, Rejected (InvalidPriorityError p)))
     ∧ Err.name (InvalidPriorityError p) = "InvalidPriorityError"
     ∧ Err.message (InvalidPriorityError p)
       = "Prioridade inválida: " +:+ pretty p +:+
         ". Use 1 (pouco importante), 2 (razoavelmente importante) ou 3 (muito importante)")
  ∧ (p ∈ [1; 2; 3] →
     db.validatePriority p = Resolved ()
     ∧ (CreateEvent.priority event = p →
        ∀ e, (db.addEvent event now s).2 = Rejected e →
             Err.name e ≠ "InvalidPriorityError")
     ∧ (UpdateEvent.priority updates = Some p →
        ∀ e, (db.updateEvent id updates now s).2 = Rejected e →
             Err.name e ≠ "InvalidPriorityError")).
Proof.
  split; intros Hp.
  - repeat split.
    + intros Hev. unfold db.addEvent.
      by rewrite Hev, validatePriority_spec, decide_False.
    + intros Hup. unfold db.updateEvent. rewrite Hup. simpl.
      by rewrite validatePriority_spec, decide_False.
  - split; [by rewrite validatePriority_spec, decide_True|]. split.
    + intros Hev e. unfold db.addEvent.
      rewrite Hev, validatePriority_spec, decide_True by done. simpl.
      destruct (ObjectStore.records s !! ObjectStore.keygen s); simpl; [|done].
      by intros [= <-].
    + intros Hup e. unfold db.updateEvent. rewrite Hup. simpl.
      rewrite validatePriority_spec, decide_True by done. simpl.
      destruct (ObjectStore.records s !! id) as [event'|]; simpl.
      * by destruct (db.needsUpdate updates event').
      * by intros [= <-].
Qed.

Lemma string_length_app (s t : string) :
  String.length (s +:+ t) = (String.length s + String.length t)%nat.
Proof. induction s as [|a s IH]; simpl; [done|]. by rewrite <-IH. Qed.

Lemma string_app_inj_r (s1 s2 t : string) : s1 +:+ t = s2 +:+ t → s1 = s2.
Proof.
  revert s2. induction s1 as [|a s1 IH]; intros [|b s2] Heq; [done| | |].
  - apply (f_equal String.length) in Heq.
    rewrite !string_length_app in Heq. simpl in Heq. lia.
  - apply (f_equal String.length) in Heq.
    rewrite !string_length_app in Heq. simpl in Heq. lia.
  - change (String a (s1 +:+ t) = String b (s2 +:+ t)) in Heq.
    injection Heq as -> Heq. f_equal. by apply IH.
Qed.

(** The message tells one rejected value from another. *)
Lemma InvalidPriorityError_inj (p q : Z) :
  Err.message (InvalidPriorityError p) = Err.message (InvalidPriorityError q) → p = q.
Proof.
  simpl. intros Heq. apply (inj (String.app _)) in Heq.
  apply string_app_inj_r in Heq. by apply (inj pretty).
Qed.

(** C4. For a record stored under [id] and a typed update: the update
    resolves; when no field that it defines differs from the stored value, the
    only request is the read and the store keeps its records; and the record
    is written back with [updated_at] set to the current time exactly when
    some defined field differs. *)
Theorem update_refreshes_updated_at_iff_changed `{Runtime}
    (s : ObjectStore.t) (id : Z) (event : Event.t) (updates : UpdateEvent.t)
    (now : Z) :
  ObjectStore.records s !! id = Some event →
  Event.id event = id →
  typed_update updates →
  let s' := (db.updateEvent id updates now s).1 in
  (db.updateEvent id updates now s).2 = Resolved ()
  ∧ (¬ some_field_differs updates event →
       s' = issue (StoreGet id) s
       ∧ ObjectStore.records s' !! id = Some event)
  ∧ ((∃ record,
        ObjectStore.requests s'
          = ObjectStore.requests s ++ [StoreGet id; StorePut record]
        ∧ Event.updated_at record = Some (toISOString now)
        ∧ ObjectStore.records s' !! id = Some record)
     ↔ some_field_differs updates event).
Proof.
  intros Hid Hkey Hty. unfold db.updateEvent.
  replace (from_option db.validatePriority (Resolved ()) (UpdateEvent.priority updates))
    with (Resolved ()).
  2:{ destruct (UpdateEvent.priority updates) as [p|] eqn:Hp; simpl; [|done].
      by rewrite validatePriority_spec, decide_True by auto. }
  simpl. rewrite Hid.
  destruct (db.needsUpdate updates event) eqn:Hneeds; simpl.
  - apply needsUpdate_spec in Hneeds. split; [done|]. split; [done|].
    split; [done|]. intros _. eexists. split; [|split].
    + by rewrite <-(assoc_L (++)).
    + done.
    + rewrite <-Hkey. apply lookup_insert_eq.
  - assert (¬ some_field_differs updates event) as Hsame.
    { rewrite <-needsUpdate_spec. by rewrite Hneeds. }
    split; [done|]. split; [done|]. split; [|done].
    intros (record & Hreq & _). apply (f_equal length) in Hreq.
    rewrite !length_app in Hreq. simpl in Hreq. lia.
Qed.

(** ** The record store on concrete records *)

Definition standup : Event.t :=
  Event.mk 1 "Standup" "Daily" "2025-01-10" "09:00" 2 false
           "2025-01-09T12:00:00.000Z" None.
Definition review : Event.t :=
  Event.mk 2 "Review" "" "2025-01-09" "15:30" 3 false
           "2025-01-09T12:05:00.000Z" None.
Definition lunch : Event.t :=
  Event.mk 3 "Lunch" "" "2025-01-10" "08:15" 2 true
           "2025-01-09T12:10:00.000Z" (Some "2025-01-10T08:15:00.000Z").

Definition three_events : ObjectStore.t :=
  ObjectStore.mk (<[1 := standup]> (<[2 := review]> (<[3 := lunch]> ∅))) 4 [].

Lemma utc_collates (P : string → bool) : @collates_by_code_unit utc.runtime P.
Proof.
  intros s t _ _. unfold str_lt. simpl. unfold utc.compare.
  rewrite <-string_compare_eq. destruct (String.compare s t); split; split; (done || lia).
Qed.

Lemma iso_records_by_check (s : ObjectStore.t) :
  forallb (λ e, iso_date (Event.date e) && iso_time (Event.time e))
          (map_to_list (ObjectStore.records s)).*2 = true →
  iso_records s.
Proof.
  intros Hall k e Hk. rewrite forallb_forall in Hall.
  apply andb_true_iff, Hall, list_elem_of_In, list_elem_of_fmap.
  exists (k, e). by rewrite elem_of_map_to_list.
Qed.

Lemma keyed_by_check (s : ObjectStore.t) :
  forallb (λ ke, bool_decide (Event.id ke.2 = ke.1))
          (map_to_list (ObjectStore.records s)) = true →
  keyed s.
Proof.
  intros Hall k e Hk. rewrite forallb_forall in Hall.
  apply (bool_decide_eq_true_1 _ (Hall (k, e) (proj1 (list_elem_of_In _ _)
    (proj2 (elem_of_map_to_list _ _ _) Hk)))).
Qed.

Example getAllEvents_three_events :
  (@db.getAllEvents utc.runtime three_events).2 = Resolved [review; lunch; standup].
Proof. vm_compute. reflexivity. Qed.

Example getEventsByDate_three_events :
  (@db.getEventsByDate utc.runtime "2025-01-10" three_events).2
  = Resolved [lunch; standup].
Proof. vm_compute. reflexivity. Qed.

Example getEventsByPriority_three_events :
  (@db.getEventsByPriority utc.runtime 2 three_events).2 = Resolved [lunch; standup].
Proof. vm_compute. reflexivity. Qed.

Lemma queries_are_sorted_witness :
  iso_records three_events
  ∧ ∃ l, (@db.getAllEvents utc.runtime three_events).2 = Resolved l
         ∧ StronglySorted date_time_le l
         ∧ ∀ e, e ∈ l ↔ ∃ k, ObjectStore.records three_events !! k = Some e.
Proof.
  assert (iso_records three_events) as Hiso.
  { apply iso_records_by_check. vm_compute. reflexivity. }
  split; [exact Hiso|].
  exact (proj1 (@queries_are_sorted utc.runtime three_events "2025-01-10" 2
                  (utc_collates _) (utc_collates _) Hiso)).
Defined.

Lemma priority_is_validated_witness :
  @db.addEvent utc.runtime (CreateEvent.mk "Standup" "" "2025-01-10" "09:00" 7)
               1736409600000 three_events
  = (three_events, Rejected (InvalidPriorityError 7))
  ∧ @db.updateEvent utc.runtime 1
      (UpdateEvent.mk None None None None (Some 7) None) 1736409600000 three_events
    = (three_events, Rejected (InvalidPriorityError 7))
  ∧ Err.message (InvalidPriorityError 7)
    = "Prioridade inválida: 7. Use 1 (pouco importante), 2 (razoavelmente importante) ou 3 (muito importante)".
Proof.
  destruct (@priority_is_validated_before_any_write utc.runtime
              (CreateEvent.mk "Standup" "" "2025-01-10" "09:00" 7) 1
              (UpdateEvent.mk None None None None (Some 7) None) 7 1736409600000
              three_events) as [Hbad _].
  destruct Hbad as (Hadd & Hupdate & _ & Hmessage).
  { rewrite !not_elem_of_cons. repeat split; try lia. apply not_elem_of_nil. }
  split; [by apply Hadd|]. split; [by apply Hupdate|]. exact Hmessage.
Defined.

Lemma update_refreshes_updated_at_witness :
  let updates := UpdateEvent.mk (Some "Standup") None None (Some "09:30") None None in
  let s' := (@db.updateEvent utc.runtime 1 updates 1736409600000 three_events).1 in
  some_field_differs updates standup
  ∧ ∃ record,
      ObjectStore.requests s' = [StoreGet 1; StorePut record]
      ∧ Event.updated_at record = Some "2025-01-09T08:00:00.000Z"
      ∧ ObjectStore.records s' !! 1 = Some record.
Proof.
  intros updates s'.
  assert (some_field_differs updates standup) as Hdiffers.
  { right. right. right. left. by exists "09:30". }
  split; [exact Hdiffers|].
  destruct (@update_refreshes_updated_at_iff_changed utc.runtime three_events 1
              standup updates 1736409600000) as (_ & _ & Hiff).
  - reflexivity.
  - reflexivity.
  - intros p [=].
  - exact (proj2 Hiff Hdiffers).
Defined.

(** ** The reconcile pass *)

(** The spec's words: not completed, and its date and time strictly before
    [now]. *)
Definition past_due `{Runtime} (now : Z) (e : Event.t) : Prop :=
  Event.completed e = false
  ∧ ∃ t, parseISO (Event.date e +:+ "T" +:+ Event.time e) = Some t ∧ t < now.

(** The requests issued between an earlier and a later state of the store. *)
Definition requests_since (s s' : ObjectStore.t) : list Request :=
  drop (length (ObjectStore.requests s)) (ObjectStore.requests s').

(** The store only grew its log: the later log extends the earlier one. *)
Definition extends (s s' : ObjectStore.t) : Prop :=
  ObjectStore.requests s' = ObjectStore.requests s ++ requests_since s s'.

Definition stored (s : ObjectStore.t) (id : Z) : Prop :=
  is_Some (ObjectStore.records s !! id).

Section reconcile.
Context `{Runtime}.

Global Instance past_due_dec (now : Z) (e : Event.t) : Decision (past_due now e).
Proof.
  unfold past_due.
  destruct (parseISO (Event.date e +:+ "T" +:+ Event.time e)) as [t|].
  - destruct (decide (Event.completed e = false ∧ t < now)) as [Hd|Hd].
    + left. naive_solver.
    + right. naive_solver.
  - right. naive_solver.
Defined.

(** The event as the pass returns it. *)
Definition reconciled (now : Z) (e : Event.t) : Event.t :=
  if decide (past_due now e) then Event.set_completed e true else e.

Lemma past_due_test (now : Z) (e : Event.t) :
  negb (Event.completed e)
  && isBefore (parseISO (Event.date e +:+ "T" +:+ Event.time e)) now = true
  ↔ past_due now e.
Proof.
  unfold past_due, isBefore. rewrite andb_true_iff, negb_true_iff.
  destruct (parseISO _) as [t|]; [rewrite bool_decide_eq_true|]; naive_solver.
Qed.

Lemma reconcile_spec (events : list Event.t) (now : Z) (acc : list Z) :
  store.reconcile events now acc
  = (reconciled now <$> events, acc ++ (Event.id <$> filter (past_due now) events)).
Proof.
  revert acc. induction events as [|e events IH]; intros acc; simpl.
  { by rewrite app_nil_r. }
  unfold reconciled at 1. rewrite filter_cons.
  destruct (decide (past_due now e)) as [Hdue|Hdue].
  - rewrite (proj2 (past_due_test now e) Hdue), IH. simpl.
    by rewrite <-(assoc_L (++)).
  - destruct (negb _ && _) eqn:Htest; [by apply past_due_test in Htest|].
    by rewrite IH.
Qed.

Lemma extends_refl (s : ObjectStore.t) : extends s s.
Proof. unfold extends, requests_since. by rewrite drop_all, app_nil_r. Qed.

Lemma extends_app (s s' : ObjectStore.t) (l : list Request) :
  ObjectStore.requests s' = ObjectStore.requests s ++ l →
  extends s s' ∧ requests_since s s' = l.
Proof.
  intros Hl. unfold extends, requests_since.
  by rewrite Hl, drop_app_length.
Qed.

Lemma extends_trans (s1 s2 s3 : ObjectStore.t) :
  extends s1 s2 → extends s2 s3 →
  extends s1 s3 ∧ requests_since s1 s3 = requests_since s1 s2 ++ requests_since s2 s3.
Proof.
  intros H12 H23. apply extends_app. by rewrite H23, H12, <-(assoc_L (++)).
Qed.

(** [db.updateEvent] on a keyed store. *)
Lemma updateEvent_keyed (id : Z) (updates : UpdateEvent.t) (now : Z)
    (s : ObjectStore.t) :
  keyed s →
  let s' := (db.updateEvent id updates now s).1 in
  keyed s'
  ∧ (∀ k, stored s' k ↔ stored s k)
  ∧ (∀ k, k ≠ id → ObjectStore.records s' !! k = ObjectStore.records s !! k)
  ∧ extends s s'
  ∧ Forall (λ r, is_query r = false) (requests_since s s').
Proof.
  intros Hkeyed. unfold db.updateEvent.
  destruct (from_option _ _ _) as [[]|err]; simpl.
  2:{ split; [done|]. split; [done|]. split; [done|]. split; [apply extends_refl|].
      unfold requests_since. by rewrite drop_all. }
  destruct (ObjectStore.records s !! id) as [e|] eqn:Hid; simpl.
  2:{ split; [done|]. split; [done|]. split; [done|].
      destruct (extends_app s (issue (StoreGet id) s) [StoreGet id] eq_refl)
        as [He ->]. split; [done|]. by repeat constructor. }
  pose proof (Hkeyed _ _ Hid) as Hkey.
  destruct (db.needsUpdate updates e); simpl.
  - split; [|split; [|split; [|split]]].
    + intros k e'. simpl. rewrite Hkey.
      destruct (decide (k = id)) as [->|Hne].
      * rewrite lookup_insert_eq. by intros [= <-].
      * rewrite lookup_insert_ne by done. apply Hkeyed.
    + intros k. unfold stored. simpl. rewrite Hkey.
      destruct (decide (k = id)) as [->|Hne].
      * rewrite lookup_insert_eq, Hid. split; eauto.
      * by rewrite lookup_insert_ne.
    + intros k Hne. rewrite Hkey. by rewrite lookup_insert_ne.
    + apply (extends_app s _ [StoreGet id; StorePut (db.updatedEvent e updates now)]).
      simpl. by rewrite <-(assoc_L (++)).
    + destruct (extends_app s
        (put (db.updatedEvent e updates now)
             (issue (StorePut (db.updatedEvent e updates now)) (issue (StoreGet id) s)))
        [StoreGet id; StorePut (db.updatedEvent e updates now)]) as [_ ->].
      { simpl. by rewrite <-(assoc_L (++)). }
      by repeat constructor.
  - split; [done|]. split; [done|]. split; [done|].
    destruct (extends_app s (issue (StoreGet id) s) [StoreGet id] eq_refl)
      as [He ->]. split; [done|]. by repeat constructor.
Qed.

(** [db.markEventAsCompleted(id, true)] on a keyed store that holds [id]. *)
Lemma markEventAsCompleted_stored (id : Z) (now : Z) (s : ObjectStore.t) :
  keyed s → stored s id →
  (db.markEventAsCompleted id true now s).2 = Resolved ()
  ∧ ∃ e, ObjectStore.records (db.markEventAsCompleted id true now s).1 !! id = Some e
         ∧ Event.completed e = true.
Proof.
  intros Hkeyed [e Hid]. unfold db.markEventAsCompleted, db.updateEvent. simpl.
  rewrite Hid. pose proof (Hkeyed _ _ Hid) as Hkey.
  destruct (db.needsUpdate _ e) eqn:Hneeds; simpl.
  - split; [done|].
    exists (db.updatedEvent e (UpdateEvent.only_completed true) now).
    simpl. by rewrite Hkey, lookup_insert_eq.
  - split; [done|]. exists e. split; [done|].
    unfold db.needsUpdate, db.differs in Hneeds. simpl in Hneeds.
    apply bool_decide_eq_false in Hneeds.
    destruct (Event.completed e); [done|]. by destruct Hneeds.
Qed.

(** A completed record stays completed under [markEventAsCompleted(_, true)]. *)
Lemma markEventAsCompleted_keeps (id k : Z) (now : Z) (s : ObjectStore.t) (e : Event.t) :
  keyed s →
  ObjectStore.records s !! k = Some e → Event.completed e = true →
  ∃ e', ObjectStore.records (db.markEventAsCompleted id true now s).1 !! k = Some e'
        ∧ Event.completed e' = true.
Proof.
  intros Hkeyed Hk Hdone.
  destruct (decide (k = id)) as [->|Hne].
  - apply markEventAsCompleted_stored; [done|by exists e].
  - exists e. split; [|done]. rewrite <-Hk.
    by apply (updateEvent_keyed id (UpdateEvent.only_completed true) now s Hkeyed).
Qed.
End reconcile.

Section reconcile_writes.
Context `{Runtime}.

(** One [db.markEventAsCompleted(id, true)] after the other. *)
Definition mark_each (ids : list Z) (now : Z) (s : ObjectStore.t) : ObjectStore.t :=
  foldl (λ s id, (db.markEventAsCompleted id true now s).1) s ids.

(** The ids the pass records: those of the past-due events, in order. *)
Definition past_due_ids (now : Z) (events : list Event.t) : list Z :=
  Event.id <$> filter (past_due now) events.

Lemma markAll_store (ids : list Z) (now : Z) (s : ObjectStore.t) :
  (store.markAll ids now s).1 = mark_each ids now s.
Proof.
  revert s. induction ids as [|id ids IH]; intros s; simpl; [done|].
  destruct (db.markEventAsCompleted id true now s) as [s1 o1] eqn:H1.
  specialize (IH s1). destruct (store.markAll ids now s1) as [s2 o2]. simpl in *.
  by rewrite IH.
Qed.

Lemma mark_each_keyed (ids : list Z) (now : Z) (s : ObjectStore.t) :
  keyed s →
  let s' := mark_each ids now s in
  keyed s'
  ∧ (∀ k, stored s' k ↔ stored s k)
  ∧ (∀ k, k ∉ ids → ObjectStore.records s' !! k = ObjectStore.records s !! k)
  ∧ (∀ k e, ObjectStore.records s !! k = Some e → Event.completed e = true →
            ∃ e', ObjectStore.records s' !! k = Some e' ∧ Event.completed e' = true)
  ∧ extends s s'
  ∧ Forall (λ r, is_query r = false) (requests_since s s').
Proof.
  revert s. induction ids as [|id ids IH]; intros s Hkeyed; simpl.
  { repeat split; eauto using extends_refl.
    unfold requests_since. by rewrite drop_all. }
  destruct (updateEvent_keyed id (UpdateEvent.only_completed true) now s Hkeyed)
    as (Hk1 & Hst1 & Hfr1 & Hex1 & Hq1).
  fold (db.markEventAsCompleted id true now s) in *.
  destruct (IH _ Hk1) as (Hk2 & Hst2 & Hfr2 & Hdone2 & Hex2 & Hq2).
  split; [done|]. split; [|split; [|split; [|split]]].
  - intros k. by rewrite Hst2.
  - intros k [Hne Hk]%not_elem_of_cons. by rewrite Hfr2, Hfr1.
  - intros k e Hk Hdone.
    destruct (markEventAsCompleted_keeps id k now s e Hkeyed Hk Hdone)
      as (e1 & Hk1' & Hdone1). eauto.
  - by apply (extends_trans s _ _ Hex1 Hex2).
  - rewrite (proj2 (extends_trans s _ _ Hex1 Hex2)). by apply Forall_app.
Qed.

Lemma markAll_stored (ids : list Z) (now : Z) (s : ObjectStore.t) :
  keyed s → Forall (stored s) ids →
  (store.markAll ids now s).2 = Resolved ()
  ∧ ∀ id, id ∈ ids →
      ∃ e, ObjectStore.records (mark_each ids now s) !! id = Some e
           ∧ Event.completed e = true.
Proof.
  revert s. induction ids as [|id ids IH]; intros s Hkeyed Hids; simpl.
  { split; [done|]. by intros id ?%elem_of_nil. }
  apply Forall_cons in Hids as [Hid Hids].
  destruct (markEventAsCompleted_stored id now s Hkeyed Hid) as (Ho1 & e1 & He1 & Hd1).
  destruct (updateEvent_keyed id (UpdateEvent.only_completed true) now s Hkeyed)
    as (Hk1 & Hst1 & _).
  fold (db.markEventAsCompleted id true now s) in *.
  destruct (db.markEventAsCompleted id true now s) as [s1 o1] eqn:H1. simpl in *.
  destruct (IH s1 Hk1) as [Ho2 Hmarks].
  { eapply Forall_impl; [exact Hids|]. intros k. by rewrite Hst1. }
  destruct (store.markAll ids now s1) as [s2 o2] eqn:H2. simpl in *. subst o1 o2.
  split; [done|]. intros k [->|Hin]%elem_of_cons; [|by apply Hmarks].
  destruct (mark_each_keyed ids now s1 Hk1) as (_ & _ & _ & Hdone & _).
  by apply (Hdone id e1).
Qed.

Lemma markEventAsCompleted_missing (id : Z) (completed : bool) (now : Z)
    (s : ObjectStore.t) :
  ¬ stored s id →
  (db.markEventAsCompleted id completed now s).2
  = Rejected (Error "Evento não encontrado").
Proof.
  intros Hnot. unfold db.markEventAsCompleted, db.updateEvent. simpl.
  destruct (ObjectStore.records s !! id) as [e|] eqn:Hid; [|done].
  destruct Hnot. by exists e.
Qed.

(** The outcome of the updates when the store does not hold one of the ids. *)
Lemma markAll_missing (ids : list Z) (now : Z) (s : ObjectStore.t) :
  keyed s → (∃ id, id ∈ ids ∧ ¬ stored s id) →
  (store.markAll ids now s).2 = Rejected (Error "Evento não encontrado").
Proof.
  revert s. induction ids as [|id ids IH]; intros s Hkeyed (k & Hk & Hnot).
  { by apply elem_of_nil in Hk. }
  simpl.
  destruct (updateEvent_keyed id (UpdateEvent.only_completed true) now s Hkeyed)
    as (Hk1 & Hst1 & _).
  fold (db.markEventAsCompleted id true now s) in *.
  destruct (decide (stored s id)) as [Hid|Hid].
  - destruct (markEventAsCompleted_stored id now s Hkeyed Hid) as (Ho1 & _).
    assert (k ∈ ids) as Hin.
    { apply elem_of_cons in Hk as [->|Hin]; [by destruct Hnot|done]. }
    assert ((store.markAll ids now (db.markEventAsCompleted id true now s).1).2
            = Rejected (Error "Evento não encontrado")) as Hrest.
    { apply IH; [done|]. exists k. split; [done|]. by rewrite Hst1. }
    destruct (db.markEventAsCompleted id true now s) as [s1 o1]. simpl in *.
    destruct (store.markAll ids now s1) as [s2 o2]. simpl in *. by subst o1 o2.
  - pose proof (markEventAsCompleted_missing id true now s Hid) as Ho1.
    destruct (db.markEventAsCompleted id true now s) as [s1 o1]. simpl in *.
    destruct (store.markAll ids now s1) as [s2 o2]. simpl. by subst o1.
Qed.

Lemma checkAndUpdatePastEvents_store (events : list Event.t) (now : Z)
    (s : ObjectStore.t) :
  (store.checkAndUpdatePastEvents events now s).1
  = mark_each (past_due_ids now events) now s.
Proof.
  unfold store.checkAndUpdatePastEvents. rewrite reconcile_spec. simpl.
  fold (past_due_ids now events).
  case_bool_decide as Hlen.
  - rewrite <-markAll_store. by destruct (store.markAll _ _ _).
  - by destruct (past_due_ids now events); [|simpl in Hlen; lia].
Qed.

Lemma checkAndUpdatePastEvents_outcome (events : list Event.t) (now : Z)
    (s : ObjectStore.t) :
  (store.checkAndUpdatePastEvents events now s).2
  = match (store.markAll (past_due_ids now events) now s).2 with
    | Rejected e => Rejected e
    | Resolved _ => Resolved (reconciled now <$> events)
    end.
Proof.
  unfold store.checkAndUpdatePastEvents. rewrite reconcile_spec. simpl.
  fold (past_due_ids now events).
  case_bool_decide as Hlen.
  - by destruct (store.markAll _ _ _).
  - by destruct (past_due_ids now events); [|simpl in Hlen; lia].
Qed.

Lemma elem_of_past_due_ids (now : Z) (events : list Event.t) (k : Z) :
  k ∈ past_due_ids now events ↔ ∃ e, e ∈ events ∧ past_due now e ∧ Event.id e = k.
Proof.
  unfold past_due_ids. rewrite list_elem_of_fmap.
  setoid_rewrite list_elem_of_filter. naive_solver.
Qed.

(** The pass on a keyed store that holds the past-due events. *)
Lemma checkAndUpdatePastEvents_stored (events : list Event.t) (now : Z)
    (s : ObjectStore.t) :
  keyed s →
  (∀ e, e ∈ events → past_due now e → stored s (Event.id e)) →
  store.checkAndUpdatePastEvents events now s
  = (mark_each (past_due_ids now events) now s, Resolved (reconciled now <$> events)).
Proof.
  intros Hkeyed Hstored.
  assert (Forall (stored s) (past_due_ids now events)) as Hids.
  { apply Forall_forall. intros k (e & He & Hdue & <-)%elem_of_past_due_ids. eauto. }
  destruct (markAll_stored _ now s Hkeyed Hids) as [Hout _].
  rewrite (surjective_pairing (store.checkAndUpdatePastEvents events now s)).
  by rewrite checkAndUpdatePastEvents_outcome, Hout, checkAndUpdatePastEvents_store.
Qed.
End reconcile_writes.

(** C1, as the code has it. For every list and every [now], the list the
    pass builds has, at each position, the completed copy of the input's event
    when that event is not completed and its date and time are strictly
    before [now] (every other field is kept), and the input's event itself
    otherwise; the pass records the ids of exactly those events and calls
    [db.markEventAsCompleted(id, true)] for each of them, in order; whenever
    it resolves, it resolves to this list. On a store that holds these events
    the pass resolves, their records are completed afterwards and every other
    record is the one it was. On a store that does not hold one of them the
    pass does not return a list: [updateEvent] rejects the id it does not
    find, nothing catches that, and the pass rejects with
    'Evento não encontrado'. *)
Theorem reconcile_completes_the_past_due `{Runtime}
    (events : list Event.t) (now : Z) (s : ObjectStore.t) :
  let updated := (store.reconcile events now []).1 in
  let ids := (store.reconcile events now []).2 in
  let s' := (store.checkAndUpdatePastEvents events now s).1 in
  length updated = length events
  ∧ (∀ (i : nat) e, events !! i = Some e →
       ∃ e', updated !! i = Some e'
             ∧ (past_due now e →
                  Event.completed e' = true
                  ∧ Event.id e' = Event.id e
                  ∧ Event.title e' = Event.title e
                  ∧ Event.description e' = Event.description e
                  ∧ Event.date e' = Event.date e
                  ∧ Event.time e' = Event.time e
                  ∧ Event.priority e' = Event.priority e
                  ∧ Event.created_at e' = Event.created_at e
                  ∧ Event.updated_at e' = Event.updated_at e)
             ∧ (¬ past_due now e → e' = e))
  ∧ ids = Event.id <$> filter (past_due now) events
  ∧ s' = foldl (λ s id, (db.markEventAsCompleted id true now s).1) s ids
  ∧ (∀ l, (store.checkAndUpdatePastEvents events now s).2 = Resolved l → l = updated)
  ∧ (keyed s →
     ((∀ e, e ∈ events → past_due now e → stored s (Event.id e)) →
      (store.checkAndUpdatePastEvents events now s).2 = Resolved updated
      ∧ (∀ e, e ∈ events → past_due now e →
           ∃ r, ObjectStore.records s' !! Event.id e = Some r
                ∧ Event.completed r = true)
      ∧ (∀ k, (∀ e, e ∈ events → past_due now e → Event.id e ≠ k) →
           ObjectStore.records s' !! k = ObjectStore.records s !! k))
     ∧ ((∃ e, e ∈ events ∧ past_due now e ∧ ¬ stored s (Event.id e)) →
        (store.checkAndUpdatePastEvents events now s).2
        = Rejected (Error "Evento não encontrado"))).
Proof.
  cbv zeta. rewrite reconcile_spec. cbn [fst snd].
  split; [by rewrite length_fmap|]. split; [|split; [done|split; [|split]]].
  - intros i e Hi. exists (reconciled now e).
    rewrite list_lookup_fmap, Hi. split; [done|].
    unfold reconciled. destruct (decide (past_due now e)) as [Hdue|Hdue]; by split.
  - apply checkAndUpdatePastEvents_store.
  - intros l. rewrite checkAndUpdatePastEvents_outcome.
    destruct (store.markAll _ _ _).2; [|done]. by intros [= <-].
  - intros Hkeyed. split.
    + intros Hstored.
      rewrite (checkAndUpdatePastEvents_stored events now s Hkeyed Hstored).
      cbn [fst snd]. split; [done|]. split.
      * intros e He Hdue.
        apply (markAll_stored (past_due_ids now events) now s Hkeyed).
        -- apply Forall_forall.
           intros k (e' & He' & Hdue' & <-)%elem_of_past_due_ids. eauto.
        -- apply elem_of_past_due_ids. eauto.
      * intros k Hk.
        destruct (mark_each_keyed (past_due_ids now events) now s Hkeyed)
          as (_ & _ & Hframe & _).
        apply Hframe. intros (e & He & Hdue & Heq)%elem_of_past_due_ids.
        by eapply Hk.
    + intros (e & He & Hdue & Hnot).
      rewrite checkAndUpdatePastEvents_outcome, markAll_missing; [done..|].
      exists (Event.id e). split; [|done]. apply elem_of_past_due_ids. eauto.
Qed.

(** C10. The list the pass builds has the length and the order of its input;
    the event at each position keeps its id, title, description, date, time,
    priority, created_at and updated_at, and its [completed] is the input's or
    went from false to true. Whenever the pass resolves, it resolves to this
    list. *)
Theorem reconcile_only_completes `{Runtime} (events : list Event.t) (now : Z) :
  let updated := (store.reconcile events now []).1 in
  length updated = length events
  ∧ (∀ (i : nat) e, events !! i = Some e →
       ∃ e', updated !! i = Some e'
             ∧ Event.id e' = Event.id e
             ∧ Event.title e' = Event.title e
             ∧ Event.description e' = Event.description e
             ∧ Event.date e' = Event.date e
             ∧ Event.time e' = Event.time e
             ∧ Event.priority e' = Event.priority e
             ∧ Event.created_at e' = Event.created_at e
             ∧ Event.updated_at e' = Event.updated_at e
             ∧ (Event.completed e' = Event.completed e
                ∨ (Event.completed e = false ∧ Event.completed e' = true)))
  ∧ ∀ s l, (store.checkAndUpdatePastEvents events now s).2 = Resolved l →
           l = updated.
Proof.
  rewrite reconcile_spec. simpl. split; [by rewrite length_fmap|]. split.
  - intros i e Hi. exists (reconciled now e).
    rewrite list_lookup_fmap, Hi. split; [done|].
    unfold reconciled. destruct (decide (past_due now e)) as [[Hc _]|_]; simpl.
    + repeat split; try done. by right.
    + repeat split; try done. by left.
  - intros s l. rewrite checkAndUpdatePastEvents_outcome.
    destruct (store.markAll _ _ _).2; [|done]. by intros [= <-].
Qed.

Lemma keyed_three_events : keyed three_events.
Proof. apply keyed_by_check. vm_compute. reflexivity. Qed.

Example checkAndUpdatePastEvents_three_events :
  (@store.checkAndUpdatePastEvents utc.runtime [review; lunch; standup]
     1736497800000 three_events).2
  = Resolved [Event.mk 2 "Review" "" "2025-01-09" "15:30" 3 true
                       "2025-01-09T12:05:00.000Z" None;
              lunch; standup].
Proof. vm_compute. reflexivity. Qed.

(** An event of yesterday morning that the store does not hold. *)
Definition briefing : Event.t :=
  Event.mk 99 "Briefing" "" "2025-01-09" "10:00" 1 false
           "2025-01-08T12:00:00.000Z" None.

(** C1, as the spec has it, fails for a list with a past-due event that the
    store does not hold: the pass does not return a list, it rejects. *)
Lemma reconcile_rejects_a_missing_event_counterexample :
  Event.completed briefing = false
  ∧ @parseISO utc.runtime (Event.date briefing +:+ "T" +:+ Event.time briefing)
    = Some 1736416800000
  ∧ 1736416800000 < 1736497800000
  ∧ ObjectStore.records three_events !! 99 = None
  ∧ (@store.checkAndUpdatePastEvents utc.runtime [briefing] 1736497800000
       three_events).2
    = Rejected (Error "Evento não encontrado")
  ∧ ∀ l, (@store.checkAndUpdatePastEvents utc.runtime [briefing] 1736497800000
            three_events).2 ≠ Resolved l.
Proof.
  split; [done|]. split; [by vm_compute|]. split; [lia|]. split; [by vm_compute|].
  assert ((@store.checkAndUpdatePastEvents utc.runtime [briefing] 1736497800000
             three_events).2 = Rejected (Error "Evento não encontrado")) as Hout
    by (by vm_compute).
  split; [exact Hout|]. intros l. by rewrite Hout.
Qed.

Lemma reconcile_completes_witness :
  let now := 1736497800000 in
  let updated := (@store.reconcile utc.runtime [review; lunch; standup] now []).1 in
  let s' := (@store.checkAndUpdatePastEvents utc.runtime [review; lunch; standup]
               now three_events).1 in
  @past_due utc.runtime now review
  ∧ (∃ e', updated !! 0%nat = Some e' ∧ Event.completed e' = true
           ∧ Event.id e' = 2 ∧ Event.title e' = "Review")
  ∧ (@store.checkAndUpdatePastEvents utc.runtime [review; lunch; standup]
       now three_events).2 = Resolved updated
  ∧ ∃ r, ObjectStore.records s' !! 2 = Some r ∧ Event.completed r = true.
Proof.
  intros now updated s'.
  assert (@past_due utc.runtime now review) as Hdue.
  { split; [done|]. exists 1736436600000. split; [by vm_compute|]. unfold now. lia. }
  split; [exact Hdue|].
  destruct (@reconcile_completes_the_past_due utc.runtime [review; lunch; standup]
              now three_events) as (_ & Hlist & _ & _ & _ & Hstored).
  split.
  - destruct (Hlist 0%nat review eq_refl) as (e' & He' & Hcompleted & _).
    destruct (Hcompleted Hdue) as (Hc & Hid & Htitle & _).
    exists e'. split; [exact He'|]. split; [exact Hc|]. split; [exact Hid|exact Htitle].
  - destruct (Hstored keyed_three_events) as [Hheld _].
    destruct Hheld as (Hout & Hmarked & _).
    + intros e He _. unfold stored.
      repeat (apply elem_of_cons in He as [->|He]; [by eexists|]).
      by apply elem_of_nil in He.
    + split; [exact Hout|]. apply (Hmarked review); [|exact Hdue].
      apply elem_of_cons. by left.
Defined.

(** ** The store: what stays true between operations *)

(** No pending timeout belongs to the event [k]. *)
Definition no_timer_for (k : Z) (w : World.t) : Prop :=
  ∀ h t, World.timeouts w !! h = Some t → Timeout.event t ≠ k.

Record consistent (w : World.t) : Prop := {
  (** a record is stored under its id *)
  consistent_keyed : keyed (World.db w);
  (** every cached event is a stored one *)
  consistent_cache : ∀ key entry e,
    World.cache w !! key = Some entry → e ∈ CacheEntry.events entry →
    stored (World.db w) (Event.id e);
  (** a pending timeout is the one [scheduledChecks] holds for its event *)
  consistent_registered : ∀ h t,
    World.timeouts w !! h = Some t →
    World.scheduledChecks w !! Timeout.event t = Some h;
  (** the next handle is not in use *)
  consistent_fresh : ∀ h, is_Some (World.timeouts w !! h) → h < World.nextTimeout w;
  (** a pending timeout belongs to a stored event *)
  consistent_timers_stored : ∀ h t,
    World.timeouts w !! h = Some t → stored (World.db w) (Timeout.event t);
}.

(** At most one pending timeout per event id. *)
Definition one_timer_per_event (w : World.t) : Prop :=
  ∀ h1 h2 t1 t2,
    World.timeouts w !! h1 = Some t1 → World.timeouts w !! h2 = Some t2 →
    Timeout.event t1 = Timeout.event t2 → h1 = h2.

Lemma consistent_one_timer (w : World.t) : consistent w → one_timer_per_event w.
Proof.
  intros Hw h1 h2 t1 t2 H1 H2 Heq.
  apply (consistent_registered w Hw) in H1, H2. congruence.
Qed.

Lemma consistent_initial : consistent World.initial.
Proof.
  split; simpl.
  - intros k e. unfold ObjectStore.created. simpl. by rewrite lookup_empty.
  - intros key entry e. by rewrite lookup_empty.
  - intros h t. by rewrite lookup_empty.
  - intros h [t Ht]. by rewrite lookup_empty in Ht.
  - intros h t. by rewrite lookup_empty.
Qed.

(** Changing the store for one that is keyed and holds at least the same ids. *)
Lemma consistent_with_db (w : World.t) (s : ObjectStore.t) :
  consistent w → keyed s → (∀ k, stored (World.db w) k → stored s k) →
  consistent (World.with_db w s).
Proof.
  intros [Hk Hc Hr Hf Ht] Hkeyed Hsub. split; simpl; eauto.
Qed.

Lemma consistent_with_state (w : World.t) (x : State.t) :
  consistent w → consistent (World.with_state w x).
Proof. intros [Hk Hc Hr Hf Ht]. by split. Qed.

Lemma consistent_with_cache (w : World.t) (cache : gmap string CacheEntry.t) :
  consistent w →
  (∀ key entry e, cache !! key = Some entry → e ∈ CacheEntry.events entry →
     stored (World.db w) (Event.id e)) →
  consistent (World.with_cache w cache).
Proof. intros [Hk Hc Hr Hf Ht] Hcache. by split. Qed.

Lemma unschedule_frame (id : Z) (w : World.t) :
  World.db (unschedule id w) = World.db w
  ∧ World.cache (unschedule id w) = World.cache w
  ∧ World.state (unschedule id w) = World.state w
  ∧ World.nextTimeout (unschedule id w) = World.nextTimeout w
  ∧ World.scheduledChecks (unschedule id w) = delete id (World.scheduledChecks w).
Proof.
  unfold unschedule.
  destruct (World.scheduledChecks w !! id) eqn:Hid; simpl; [done|].
  by rewrite delete_id.
Qed.

Lemma unschedule_timeouts (id : Z) (w : World.t) (h : Z) (t : Timeout.t) :
  consistent w →
  World.timeouts (unschedule id w) !! h = Some t →
  World.timeouts w !! h = Some t ∧ Timeout.event t ≠ id.
Proof.
  intros Hw. unfold unschedule.
  destruct (World.scheduledChecks w !! id) as [h0|] eqn:Hid; simpl.
  - intros [Hne Hh]%lookup_delete_Some. split; [done|]. intros Heq.
    apply (consistent_registered w Hw) in Hh. congruence.
  - intros Hh. split; [done|]. intros Heq.
    apply (consistent_registered w Hw) in Hh. congruence.
Qed.

Lemma unschedule_consistent (id : Z) (w : World.t) :
  consistent w → consistent (unschedule id w) ∧ no_timer_for id (unschedule id w).
Proof.
  intros Hw.
  destruct (unschedule_frame id w) as (Hdb & Hcache & Hstate & Hnext & Hreg).
  split; [split|].
  - rewrite Hdb. apply Hw.
  - rewrite Hdb, Hcache. apply Hw.
  - intros h t [Hh Hne]%unschedule_timeouts; [|done].
    rewrite Hreg, lookup_delete_ne by done. by apply Hw.
  - intros h [t [Hh _]%unschedule_timeouts]; [|done].
    rewrite Hnext. apply Hw. by exists t.
  - intros h t [Hh _]%unschedule_timeouts; [|done].
    rewrite Hdb. by eapply consistent_timers_stored.
  - intros h t [_ Hne]%unschedule_timeouts; done.
Qed.

Section scheduling.
Context `{Runtime}.

(** The event gets a timeout: it is not completed and not before [now]. *)
Definition schedulable (now : Z) (e : Event.t) : bool :=
  negb (Event.completed e)
  && negb (isBefore (parseISO (Event.date e +:+ "T" +:+ Event.time e)) now).

Lemma scheduleEventCheck_skip (e : Event.t) (now : Z) (w : World.t) :
  schedulable now e = false → store.scheduleEventCheck e now w = w.
Proof.
  unfold schedulable, store.scheduleEventCheck.
  destruct (Event.completed e); [done|]. simpl.
  by destruct (isBefore _ now).
Qed.

Lemma scheduleEventCheck_arm (e : Event.t) (now : Z) (w : World.t) :
  schedulable now e = true →
  store.scheduleEventCheck e now w
  = let w1 := unschedule (Event.id e) w in
    let h := World.nextTimeout w in
    let delay := (λ t, t - now) <$> parseISO (Event.date e +:+ "T" +:+ Event.time e) in
    World.mk (World.db w) (World.cache w)
             (<[Event.id e := h]> (delete (Event.id e) (World.scheduledChecks w)))
             (<[h := Timeout.mk (Event.id e) now delay]> (World.timeouts w1))
             (h + 1) (World.state w).
Proof.
  unfold schedulable, store.scheduleEventCheck.
  destruct (Event.completed e); [done|]. simpl.
  destruct (isBefore _ now); [done|]. intros _.
  destruct (unschedule_frame (Event.id e) w) as (Hdb & Hcache & Hstate & Hnext & Hreg).
  unfold setTimeout, World.with_scheduledChecks, World.with_timeouts. simpl.
  by rewrite Hdb, Hcache, Hstate, Hnext, Hreg.
Qed.

Lemma scheduleEventCheck_frame (e : Event.t) (now : Z) (w : World.t) :
  World.db (store.scheduleEventCheck e now w) = World.db w
  ∧ World.cache (store.scheduleEventCheck e now w) = World.cache w
  ∧ World.state (store.scheduleEventCheck e now w) = World.state w.
Proof.
  destruct (schedulable now e) eqn:Hs.
  - by rewrite scheduleEventCheck_arm.
  - by rewrite scheduleEventCheck_skip.
Qed.

Lemma scheduleEventCheck_consistent (e : Event.t) (now : Z) (w : World.t) :
  consistent w → stored (World.db w) (Event.id e) →
  consistent (store.scheduleEventCheck e now w).
Proof.
  intros Hw He. destruct (schedulable now e) eqn:Hs.
  2:{ by rewrite scheduleEventCheck_skip. }
  rewrite scheduleEventCheck_arm by done.
  destruct (unschedule_consistent (Event.id e) w Hw) as [Hw1 Hnone].
  destruct (unschedule_frame (Event.id e) w) as (Hdb & Hcache & Hstate & Hnext & Hreg).
  split; simpl.
  - apply Hw.
  - apply Hw.
  - intros h t [[<- <-]|[Hne Hh]]%lookup_insert_Some; simpl.
    + apply lookup_insert_eq.
    + pose proof (Hnone h t Hh) as Hev.
      rewrite lookup_insert_ne by done. rewrite <-Hreg.
      by apply Hw1.
  - intros h [t [[<- <-]|[Hne Hh]]%lookup_insert_Some]; [lia|].
    pose proof (consistent_fresh _ Hw1 h (ex_intro _ t Hh)) as Hlt.
    rewrite Hnext in Hlt. lia.
  - intros h t [[<- <-]|[Hne Hh]]%lookup_insert_Some; simpl; [done|].
    rewrite <-Hdb. by eapply consistent_timers_stored.
Qed.

Lemma scheduleEventCheck_no_timer (e : Event.t) (now : Z) (w : World.t) (k : Z) :
  consistent w → no_timer_for k w →
  (Event.id e = k → Event.completed e = true) →
  no_timer_for k (store.scheduleEventCheck e now w).
Proof.
  intros Hw Hnone Hk. destruct (schedulable now e) eqn:Hs.
  2:{ by rewrite scheduleEventCheck_skip. }
  rewrite scheduleEventCheck_arm by done.
  intros h t. simpl. intros [[<- <-]|[Hne Hh]]%lookup_insert_Some; simpl.
  - intros Heq. apply Hk in Heq. unfold schedulable in Hs. by rewrite Heq in Hs.
  - apply unschedule_timeouts in Hh as [Hh _]; [|done]. by eapply Hnone.
Qed.

(** [events.forEach(scheduleEventCheck)] *)
Definition scheduleAll (events : list Event.t) (now : Z) (w : World.t) : World.t :=
  foldl (λ w event, store.scheduleEventCheck event now w) w events.

Lemma scheduleAll_frame (events : list Event.t) (now : Z) (w : World.t) :
  World.db (scheduleAll events now w) = World.db w
  ∧ World.cache (scheduleAll events now w) = World.cache w
  ∧ World.state (scheduleAll events now w) = World.state w.
Proof.
  revert w. induction events as [|e events IH]; intros w; simpl; [done|].
  destruct (IH (store.scheduleEventCheck e now w)) as (-> & -> & ->).
  apply scheduleEventCheck_frame.
Qed.

Lemma scheduleAll_consistent (events : list Event.t) (now : Z) (w : World.t) :
  consistent w → Forall (λ e, stored (World.db w) (Event.id e)) events →
  consistent (scheduleAll events now w).
Proof.
  revert w. induction events as [|e events IH]; intros w Hw Hall; simpl; [done|].
  apply Forall_cons in Hall as [He Hall]. apply IH.
  - by apply scheduleEventCheck_consistent.
  - by rewrite (proj1 (scheduleEventCheck_frame e now w)).
Qed.

Lemma scheduleAll_no_timer (events : list Event.t) (now : Z) (w : World.t) (k : Z) :
  consistent w → Forall (λ e, stored (World.db w) (Event.id e)) events →
  no_timer_for k w →
  Forall (λ e, Event.id e = k → Event.completed e = true) events →
  no_timer_for k (scheduleAll events now w).
Proof.
  revert w. induction events as [|e events IH]; intros w Hw Hst Hnone Hall; simpl;
    [done|].
  apply Forall_cons in Hall as [He Hall]. apply Forall_cons in Hst as [Hse Hst].
  apply IH; [by apply scheduleEventCheck_consistent| | |done].
  - by rewrite (proj1 (scheduleEventCheck_frame e now w)).
  - by apply scheduleEventCheck_no_timer.
Qed.

Lemma scheduleAll_nextTimeout (events : list Event.t) (now : Z) (w : World.t) :
  World.nextTimeout w ≤ World.nextTimeout (scheduleAll events now w).
Proof.
  revert w. induction events as [|e events IH]; intros w; simpl; [done|].
  etrans; [|apply IH].
  destruct (schedulable now e) eqn:Hs.
  - rewrite scheduleEventCheck_arm by done. simpl. lia.
  - by rewrite scheduleEventCheck_skip.
Qed.
End scheduling.

(** ** [refreshEvents] *)

Section refresh.
Context `{Runtime}.

(** The query a cache miss sends, and the list it resolves to. *)
Definition query (w : World.t) : Request :=
  match store.chosenDate w with
  | Some date => DateIndexGetAll date
  | None => StoreGetAll
  end.

Definition fetched (w : World.t) : list Event.t :=
  let all := in_key_order (ObjectStore.records (World.db w)) in
  match store.chosenDate w with
  | Some date => sort db.by_time (filter (λ e, Event.date e = date) all)
  | None => sort db.by_date_time all
  end.

Lemma fetched_stored (w : World.t) (e : Event.t) :
  keyed (World.db w) → e ∈ fetched w →
  ObjectStore.records (World.db w) !! Event.id e = Some e.
Proof.
  intros Hkeyed. unfold fetched.
  destruct (store.chosenDate w); rewrite elem_of_sort.
  - intros [_ [k Hk]%elem_of_in_key_order]%list_elem_of_filter.
    by rewrite (Hkeyed _ _ Hk).
  - intros [k Hk]%elem_of_in_key_order. by rewrite (Hkeyed _ _ Hk).
Qed.

Lemma reconciled_id (now : Z) (e : Event.t) :
  Event.id (reconciled now e) = Event.id e.
Proof. unfold reconciled. by destruct (decide _). Qed.

Lemma reconciled_completed (now : Z) (e : Event.t) :
  Event.completed e = true → Event.completed (reconciled now e) = true.
Proof. unfold reconciled. by destruct (decide _). Qed.

Lemma stored_issue (r : Request) (s : ObjectStore.t) (k : Z) :
  stored (issue r s) k ↔ stored s k.
Proof. done. Qed.

(** A cache hit. *)
Lemma refreshEvents_hit (now : Z) (w : World.t) (entry : CacheEntry.t) :
  State.isDBReady (World.state w) = true →
  World.cache w !! store.cacheKey w = Some entry →
  now - CacheEntry.timestamp entry < store.CACHE_DURATION →
  consistent w →
  store.refreshEvents now w
  = (set_events (reconciled now <$> CacheEntry.events entry)
       (World.with_db w
          (mark_each (past_due_ids now (CacheEntry.events entry)) now (World.db w))),
     Resolved ()).
Proof.
  intros Hready Hentry Hfresh Hw. unfold store.refreshEvents, store.isCacheValid.
  rewrite Hready, Hentry. simpl. rewrite bool_decide_eq_true_2 by done.
  rewrite checkAndUpdatePastEvents_stored; [done|apply Hw|].
  intros e He _. by eapply consistent_cache.
Qed.

(** A cache miss. *)
Lemma refreshEvents_miss (now : Z) (w : World.t) :
  State.isDBReady (World.state w) = true →
  store.isCacheValid (store.cacheKey w) now w = false →
  keyed (World.db w) →
  store.refreshEvents now w
  = let events := reconciled now <$> fetched w in
    let s := mark_each (past_due_ids now (fetched w)) now
                       (issue (query w) (World.db w)) in
    (set_events events
       (store.updateCache (store.cacheKey w) events now
          (scheduleAll events now (World.with_db w s))),
     Resolved ()).
Proof.
  intros Hready Hmiss Hkeyed. unfold store.refreshEvents.
  rewrite Hready, Hmiss. simpl.
  assert (match store.chosenDate w with
          | Some selectedDate => db.getEventsByDate selectedDate (World.db w)
          | None => db.getAllEvents (World.db w)
          end = (issue (query w) (World.db w), Resolved (fetched w))) as ->.
  { unfold query, fetched. by destruct (store.chosenDate w). }
  rewrite checkAndUpdatePastEvents_stored; [done|done|].
  intros e He _. apply stored_issue. exists e. by apply fetched_stored.
Qed.

Lemma consistent_set_events (events : list Event.t) (w : World.t) :
  consistent w → consistent (set_events events w).
Proof. apply consistent_with_state. Qed.

(** What [refreshEvents] keeps, on a consistent world. *)
Lemma refreshEvents_consistent (now : Z) (w : World.t) :
  consistent w →
  let w' := (store.refreshEvents now w).1 in
  (store.refreshEvents now w).2 = Resolved ()
  ∧ consistent w'
  ∧ (∀ k, stored (World.db w') k ↔ stored (World.db w) k)
  ∧ (∀ k e, ObjectStore.records (World.db w) !! k = Some e →
            Event.completed e = true →
            ∃ e', ObjectStore.records (World.db w') !! k = Some e'
                  ∧ Event.completed e' = true)
  ∧ (∀ k, no_timer_for k w →
          (∀ e, ObjectStore.records (World.db w) !! k = Some e →
                Event.completed e = true) →
          no_timer_for k w')
  ∧ State.isDBReady (World.state w') = State.isDBReady (World.state w)
  ∧ State.selectedDate (World.state w') = State.selectedDate (World.state w)
  ∧ World.nextTimeout w ≤ World.nextTimeout w'.
Proof.
  intros Hw. simpl.
  destruct (State.isDBReady (World.state w)) eqn:Hready.
  2:{ unfold store.refreshEvents. rewrite Hready. simpl.
      do 3 (split; [done|]). split; [eauto|]. do 3 (split; [done|]). lia. }
  destruct (store.isCacheValid (store.cacheKey w) now w) eqn:Hvalid.
  - unfold store.isCacheValid in Hvalid.
    destruct (World.cache w !! store.cacheKey w) as [entry|] eqn:Hentry; [|done].
    apply bool_decide_eq_true in Hvalid.
    rewrite (refreshEvents_hit now w entry) by done. simpl.
    destruct (mark_each_keyed (past_due_ids now (CacheEntry.events entry)) now
                (World.db w) (consistent_keyed _ Hw))
      as (Hk & Hst & _ & Hdone & _).
    split; [done|]. split; [|split; [done|split; [done|split; [|done]]]].
    + apply consistent_set_events, consistent_with_db; [done..|].
      intros k. by rewrite Hst.
    + intros k Hnone _. exact Hnone.
  - rewrite (refreshEvents_miss now w Hready Hvalid (consistent_keyed _ Hw)).
    set (events := reconciled now <$> fetched w).
    set (s := mark_each (past_due_ids now (fetched w)) now
                        (issue (query w) (World.db w))).
    simpl.
    destruct (mark_each_keyed (past_due_ids now (fetched w)) now
                (issue (query w) (World.db w)) (consistent_keyed _ Hw))
      as (Hk & Hst & _ & Hdone & _). fold s in Hk, Hst, Hdone.
    assert (consistent (World.with_db w s)) as Hws.
    { apply consistent_with_db; [done..|]. intros k. by rewrite Hst. }
    assert (Forall (λ e, stored s (Event.id e)) events) as Hevents.
    { apply Forall_forall. intros e' (e & -> & He)%list_elem_of_fmap.
      rewrite reconciled_id. apply Hst, stored_issue. exists e.
      by apply fetched_stored; [apply Hw|]. }
    pose proof (scheduleAll_consistent events now _ Hws Hevents) as Hsched.
    destruct (scheduleAll_frame events now (World.with_db w s))
      as (Hdb & Hcache & Hstate). simpl in Hdb, Hcache, Hstate.
    split; [done|]. split; [|split; [|split; [|split; [|split; [|split]]]]].
    + apply consistent_set_events, consistent_with_cache; [done|].
      intros key entry e. rewrite Hdb.
      intros [[<- <-]|[Hne Hentry]]%lookup_insert_Some; simpl.
      * intros He. by apply (proj1 (Forall_forall _ _) Hevents).
      * rewrite Hcache in Hentry. simpl in Hentry. intros He.
        apply Hst, stored_issue. by eapply consistent_cache.
    + intros k. by rewrite Hdb, Hst.
    + intros k e Hke Hc. rewrite Hdb. by apply (Hdone k e).
    + intros k Hnone Hcompleted.
      apply (scheduleAll_no_timer events now _ k Hws Hevents); [done|].
      apply Forall_forall. intros e' (e & -> & He)%list_elem_of_fmap.
      rewrite reconciled_id. intros <-.
      apply reconciled_completed, Hcompleted.
      by apply fetched_stored; [apply Hw|].
    + by rewrite Hstate.
    + by rewrite Hstate.
    + apply (scheduleAll_nextTimeout events now (World.with_db w s)).
Qed.
End refresh.

(** ** The operations of the store *)

Lemma foldl_delete_lookup `{Countable K} {V} (m : gmap K V) (ks : list K) (k : K) :
  foldl (λ m k, delete k m) m ks !! k = if decide (k ∈ ks) then None else m !! k.
Proof.
  revert m. induction ks as [|k' ks IH]; intros m; simpl; [done|].
  rewrite IH.
  destruct (decide (k ∈ ks)) as [Hin|Hin], (decide (k ∈ k' :: ks)) as [Hin'|Hin'];
    try done.
  - destruct Hin'. by right.
  - apply elem_of_cons in Hin' as [->|?]; [|done]. apply lookup_delete_eq.
  - apply lookup_delete_ne. intros ->. destruct Hin'. by left.
Qed.

Lemma unschedule_subset (id : Z) (w : World.t) (h : Z) (t : Timeout.t) :
  World.timeouts (unschedule id w) !! h = Some t → World.timeouts w !! h = Some t.
Proof.
  unfold unschedule. destruct (World.scheduledChecks w !! id); simpl; [|done].
  by intros [_ ?]%lookup_delete_Some.
Qed.

Section operations.
Context `{Runtime}.

Lemma invalidateCache_empty (w : World.t) :
  World.cache (store.invalidateCache w) = ∅.
Proof.
  apply map_eq. intros key. unfold store.invalidateCache. simpl.
  rewrite foldl_delete_lookup, lookup_empty.
  destruct (decide _) as [|Hnot]; [done|].
  destruct (World.cache w !! key) as [entry|] eqn:Hkey; [|done].
  destruct Hnot. apply list_elem_of_fmap. exists (key, entry).
  by rewrite elem_of_map_to_list.
Qed.

Lemma invalidateCache_frame (w : World.t) :
  store.invalidateCache w = World.with_cache w ∅.
Proof.
  pose proof (invalidateCache_empty w) as Hempty.
  unfold store.invalidateCache, World.with_cache in *. simpl in Hempty.
  by rewrite Hempty.
Qed.

Lemma invalidateCache_consistent (w : World.t) :
  consistent w → consistent (store.invalidateCache w).
Proof.
  intros Hw. rewrite invalidateCache_frame. apply consistent_with_cache; [done|].
  intros key entry e. by rewrite lookup_empty.
Qed.

Lemma refreshed_eq (now : Z) (w : World.t) :
  consistent w → store.refreshed now w = (store.refreshEvents now w).1.
Proof.
  intros Hw. unfold store.refreshed.
  destruct (refreshEvents_consistent now w Hw) as [Hout _].
  destruct (store.refreshEvents now w) as [w' o]. simpl in Hout. by subst o.
Qed.

Lemma refreshed_consistent (now : Z) (w : World.t) :
  consistent w → consistent (store.refreshed now w).
Proof.
  intros Hw. rewrite refreshed_eq by done.
  by apply (refreshEvents_consistent now w Hw).
Qed.

Lemma consistent_set_loading (w : World.t) : consistent w → consistent (set_loading w).
Proof. apply consistent_with_state. Qed.

Lemma consistent_caught (e : Err.t) (w : World.t) :
  consistent w → consistent (store.caught e w).
Proof. apply consistent_with_state. Qed.

(** The stores the database operations leave. *)
Lemma addEvent_keyed (event : CreateEvent.t) (now : Z) (s : ObjectStore.t) :
  keyed s →
  keyed (db.addEvent event now s).1
  ∧ (∀ k, stored s k → stored (db.addEvent event now s).1 k)
  ∧ extends s (db.addEvent event now s).1
  ∧ Forall (λ r, is_query r = false) (requests_since s (db.addEvent event now s).1).
Proof.
  intros Hkeyed. unfold db.addEvent.
  destruct (db.validatePriority _) as [[]|err]; simpl.
  2:{ split; [done|]. split; [done|]. split; [apply extends_refl|].
      unfold requests_since. by rewrite drop_all. }
  set (newEvent := Event.mk _ _ _ _ _ _ _ _ _).
  destruct (extends_app s (issue (StoreAdd newEvent) s) [StoreAdd newEvent] eq_refl)
    as [Hex Hsince].
  destruct (ObjectStore.records s !! ObjectStore.keygen s) eqn:Hfree; simpl.
  { split; [done|]. split; [done|]. split; [done|]. rewrite Hsince.
    by repeat constructor. }
  split; [|split; [|split]].
  - intros k e. simpl.
    intros [[<- <-]|[Hne Hk]]%lookup_insert_Some; [done|]. by apply Hkeyed.
  - intros k [e Hk]. unfold stored. simpl.
    destruct (decide (ObjectStore.keygen s = k)) as [<-|Hne]; [congruence|].
    rewrite lookup_insert_ne by done. by exists e.
  - apply (extends_app s _ [StoreAdd newEvent]). done.
  - destruct (extends_app s
      (ObjectStore.mk (<[ObjectStore.keygen s := newEvent]> (ObjectStore.records s))
                      (ObjectStore.keygen s + 1)
                      (ObjectStore.requests s ++ [StoreAdd newEvent]))
      [StoreAdd newEvent] eq_refl) as [_ ->].
    by repeat constructor.
Qed.

Lemma deleteEvent_keyed (id : Z) (s : ObjectStore.t) :
  keyed s →
  (db.deleteEvent id s).2 = Resolved ()
  ∧ keyed (db.deleteEvent id s).1
  ∧ (∀ k, stored (db.deleteEvent id s).1 k ↔ stored s k ∧ k ≠ id)
  ∧ extends s (db.deleteEvent id s).1
  ∧ Forall (λ r, is_query r = false) (requests_since s (db.deleteEvent id s).1).
Proof.
  intros Hkeyed. unfold db.deleteEvent. simpl. split; [done|].
  split; [|split; [|split]].
  - intros k e. simpl. intros [_ Hk]%lookup_delete_Some. by apply Hkeyed.
  - intros k. unfold stored. simpl. unfold is_Some.
    setoid_rewrite lookup_delete_Some. naive_solver.
  - apply (extends_app s _ [StoreDelete id]). done.
  - destruct (extends_app s
      (ObjectStore.mk (delete id (ObjectStore.records s)) (ObjectStore.keygen s)
                      (ObjectStore.requests s ++ [StoreDelete id]))
      [StoreDelete id] eq_refl) as [_ ->].
    by repeat constructor.
Qed.

(** Every operation keeps the world consistent. *)
Lemma initializeStore_consistent (opened : Outcome unit) (now : Z) (w : World.t) :
  consistent w → consistent (store.initializeStore opened now w).
Proof.
  intros Hw. unfold store.initializeStore. destruct opened.
  - by apply refreshed_consistent, consistent_with_state, consistent_with_state.
  - by apply consistent_caught, consistent_with_state.
Qed.

Lemma setSelectedDate_consistent (date : option string) (now : Z) (w : World.t) :
  consistent w → consistent (store.setSelectedDate date now w).
Proof.
  intros Hw. unfold store.setSelectedDate.
  by apply refreshEvents_consistent, consistent_with_state.
Qed.

Lemma fetchEvents_consistent (now : Z) (w : World.t) :
  consistent w → consistent (store.fetchEvents now w).
Proof.
  intros Hw. unfold store.fetchEvents. destruct (negb _); [done|].
  by apply refreshed_consistent, consistent_set_loading.
Qed.

Lemma fetchEventsByDate_consistent (date : string) (now : Z) (w : World.t) :
  consistent w → consistent (store.fetchEventsByDate date now w).
Proof.
  intros Hw. unfold store.fetchEventsByDate. destruct (negb _); [done|].
  by apply refreshed_consistent, consistent_with_state.
Qed.

Lemma addEvent_consistent (event : CreateEvent.t) (now : Z) (w : World.t) :
  consistent w → consistent (store.addEvent event now w).1.
Proof.
  intros Hw. unfold store.addEvent. destruct (negb _); [done|].
  destruct (addEvent_keyed event now (World.db (set_loading w)))
    as (Hk & Hst & _); [apply Hw|].
  assert (consistent (World.with_db (set_loading w)
            (db.addEvent event now (World.db (set_loading w))).1)) as Hw'.
  { apply consistent_with_db; [by apply consistent_set_loading|done..]. }
  destruct (db.addEvent event now (World.db (set_loading w))) as [s [key|err]];
    simpl in *.
  - by apply refreshed_consistent, invalidateCache_consistent.
  - by apply consistent_caught.
Qed.

Lemma updateEvent_consistent (id : Z) (updates : UpdateEvent.t) (now : Z)
    (w : World.t) :
  consistent w → consistent (store.updateEvent id updates now w).1.
Proof.
  intros Hw. unfold store.updateEvent. destruct (negb _); [done|].
  destruct (updateEvent_keyed id updates now (World.db (set_loading w)))
    as (Hk & Hst & _); [apply Hw|].
  assert (consistent (World.with_db (set_loading w)
            (db.updateEvent id updates now (World.db (set_loading w))).1)) as Hw'.
  { apply consistent_with_db; [by apply consistent_set_loading|done|].
    intros k. by rewrite Hst. }
  destruct (db.updateEvent id updates now (World.db (set_loading w)))
    as [s [[]|err]]; simpl in *.
  - by apply refreshed_consistent, invalidateCache_consistent, unschedule_consistent.
  - by apply consistent_caught.
Qed.

Lemma markEventAsCompleted_consistent (id : Z) (completed : bool) (now : Z)
    (w : World.t) :
  consistent w → consistent (store.markEventAsCompleted id completed now w).1.
Proof.
  intros Hw. unfold store.markEventAsCompleted. destruct (negb _); [done|].
  set (w0 := if completed then unschedule id (set_loading w) else set_loading w).
  assert (consistent w0) as Hw0.
  { unfold w0. destruct completed; [apply unschedule_consistent|];
      by apply consistent_set_loading. }
  unfold db.markEventAsCompleted.
  destruct (updateEvent_keyed id (UpdateEvent.only_completed completed) now
              (World.db w0)) as (Hk & Hst & _); [apply Hw0|].
  assert (consistent (World.with_db w0
            (db.updateEvent id (UpdateEvent.only_completed completed) now
               (World.db w0)).1)) as Hw'.
  { apply consistent_with_db; [done..|]. intros k. by rewrite Hst. }
  destruct (db.updateEvent id _ now (World.db w0)) as [s [[]|err]]; simpl in *.
  - by apply refreshed_consistent, invalidateCache_consistent.
  - by apply consistent_caught.
Qed.

Lemma deleteEvent_consistent (id : Z) (now : Z) (w : World.t) :
  consistent w → consistent (store.deleteEvent id now w).1.
Proof.
  intros Hw. unfold store.deleteEvent. destruct (negb _); [done|].
  destruct (unschedule_consistent id (set_loading w)) as [Hw0 Hnone];
    [by apply consistent_set_loading|].
  set (w0 := unschedule id (set_loading w)) in *.
  destruct (deleteEvent_keyed id (World.db w0)) as (Hout & Hk & Hst & _);
    [apply Hw0|].
  destruct (db.deleteEvent id (World.db w0)) as [s o]. simpl in *. subst o.
  apply refreshed_consistent. rewrite invalidateCache_frame. split; simpl.
  - done.
  - intros key entry e. by rewrite lookup_empty.
  - apply Hw0.
  - apply Hw0.
  - intros h t Hh. apply Hst. split; [by eapply consistent_timers_stored|].
    by apply (Hnone h t).
Qed.
End operations.

Section timers.
Context `{Runtime}.

Lemma scheduleEventCheck_old_handles (e : Event.t) (now : Z) (w : World.t)
    (h : Z) (x : Timeout.t) :
  World.timeouts (store.scheduleEventCheck e now w) !! h = Some x →
  h < World.nextTimeout w → World.timeouts w !! h = Some x.
Proof.
  destruct (schedulable now e) eqn:Hs.
  2:{ by rewrite scheduleEventCheck_skip. }
  rewrite scheduleEventCheck_arm by done. simpl.
  intros [[<- _]|[_ Hh]]%lookup_insert_Some Hlt; [lia|].
  by eapply unschedule_subset.
Qed.

Lemma scheduleAll_old_handles (events : list Event.t) (now : Z) (w : World.t)
    (h : Z) (x : Timeout.t) :
  World.timeouts (scheduleAll events now w) !! h = Some x →
  h < World.nextTimeout w → World.timeouts w !! h = Some x.
Proof.
  revert w. induction events as [|e events IH]; intros w; simpl; [done|].
  intros Hh Hlt. apply (scheduleEventCheck_old_handles e now); [|done].
  apply IH; [done|].
  pose proof (scheduleAll_nextTimeout [e] now w) as Hle. simpl in Hle. lia.
Qed.

Lemma refreshEvents_old_handles (now : Z) (w : World.t) (h : Z) (x : Timeout.t) :
  consistent w →
  World.timeouts (store.refreshEvents now w).1 !! h = Some x →
  h < World.nextTimeout w → World.timeouts w !! h = Some x.
Proof.
  intros Hw.
  destruct (State.isDBReady (World.state w)) eqn:Hready.
  2:{ unfold store.refreshEvents. by rewrite Hready. }
  destruct (store.isCacheValid (store.cacheKey w) now w) eqn:Hvalid.
  - unfold store.isCacheValid in Hvalid.
    destruct (World.cache w !! store.cacheKey w) as [entry|] eqn:Hentry; [|done].
    apply bool_decide_eq_true in Hvalid.
    by rewrite (refreshEvents_hit now w entry).
  - rewrite (refreshEvents_miss now w Hready Hvalid (consistent_keyed _ Hw)).
    simpl. intros Hh Hlt.
    exact (scheduleAll_old_handles _ now (World.with_db w _) h x Hh Hlt).
Qed.

Lemma clearTimeout_each (handles : list Z) (w : World.t) :
  foldl (λ w handle, clearTimeout handle w) w handles
  = World.with_timeouts w
      (foldl (λ m handle, delete handle m) (World.timeouts w) handles)
      (World.nextTimeout w).
Proof.
  revert w. induction handles as [|h handles IH]; intros w; simpl.
  - by destruct w.
  - by rewrite IH.
Qed.

(** [cleanup] leaves no pending timeout and an empty [scheduledChecks]. *)
Lemma cleanup_clears (w : World.t) :
  consistent w →
  World.timeouts (store.cleanup w) = ∅
  ∧ World.scheduledChecks (store.cleanup w) = ∅
  ∧ consistent (store.cleanup w).
Proof.
  intros Hw. unfold store.cleanup. rewrite clearTimeout_each. simpl.
  assert (foldl (λ m handle, delete handle m) (World.timeouts w)
            (map_to_list (World.scheduledChecks w)).*2 = ∅) as Hnone.
  { apply map_eq. intros h. rewrite foldl_delete_lookup, lookup_empty.
    destruct (decide _) as [|Hnot]; [done|].
    destruct (World.timeouts w !! h) as [t|] eqn:Hh; [|done].
    destruct Hnot. apply list_elem_of_fmap. exists (Timeout.event t, h).
    split; [done|]. apply elem_of_map_to_list. by apply Hw. }
  rewrite Hnone. split; [done|]. split; [done|]. split; simpl.
  - apply Hw.
  - apply Hw.
  - intros h t. by rewrite lookup_empty.
  - intros h [t Ht]. by rewrite lookup_empty in Ht.
  - intros h t. by rewrite lookup_empty.
Qed.

Lemma timeoutFires_eq (handle : Z) (timeout : Timeout.t) (now : Z) (w : World.t) :
  World.timeouts w !! handle = Some timeout →
  (db.markEventAsCompleted (Timeout.event timeout) true now (World.db w)).2
  = Resolved () →
  (store.refreshEvents now
     (World.with_db (clearTimeout handle w)
        (db.markEventAsCompleted (Timeout.event timeout) true now (World.db w)).1)).2
  = Resolved () →
  store.timeoutFires handle now w
  = let w' :=
      (store.refreshEvents now
         (World.with_db (clearTimeout handle w)
            (db.markEventAsCompleted (Timeout.event timeout) true now
               (World.db w)).1)).1 in
    World.with_scheduledChecks w'
      (delete (Timeout.event timeout) (World.scheduledChecks w')).
Proof.
  intros Hh. unfold store.timeoutFires. rewrite Hh.
  change (World.db (clearTimeout handle w)) with (World.db w).
  destruct (db.markEventAsCompleted _ true now (World.db w)) as [s0 o0].
  simpl. intros ->.
  destruct (store.refreshEvents now _) as [w0 o0]. simpl. by intros ->.
Qed.

(** A pending timeout fires: the record is completed, the view refreshed,
    and the entry of [scheduledChecks] removed. *)
Lemma timeoutFires_spec (handle : Z) (timeout : Timeout.t) (now : Z) (w : World.t) :
  consistent w →
  World.timeouts w !! handle = Some timeout →
  let id := Timeout.event timeout in
  let s := (db.markEventAsCompleted id true now (World.db w)).1 in
  let w' := (store.refreshEvents now (World.with_db (clearTimeout handle w) s)).1 in
  store.timeoutFires handle now w
  = World.with_scheduledChecks w' (delete id (World.scheduledChecks w'))
  ∧ consistent (store.timeoutFires handle now w)
  ∧ World.timeouts (store.timeoutFires handle now w) !! handle = None
  ∧ no_timer_for id (store.timeoutFires handle now w)
  ∧ World.scheduledChecks (store.timeoutFires handle now w) !! id = None
  ∧ ∃ r, ObjectStore.records (World.db (store.timeoutFires handle now w)) !! id = Some r
         ∧ Event.completed r = true.
Proof.
  intros Hw Hh id s w'.
  pose proof (consistent_timers_stored _ Hw _ _ Hh) as Hstored. fold id in Hstored.
  destruct (markEventAsCompleted_stored id now (World.db w) (consistent_keyed _ Hw)
              Hstored) as (Hout & r & Hr & Hdone). fold s in Hr.
  destruct (updateEvent_keyed id (UpdateEvent.only_completed true) now (World.db w)
              (consistent_keyed _ Hw)) as (Hk & Hst & _).
  fold (db.markEventAsCompleted id true now (World.db w)) in Hk, Hst.
  fold s in Hk, Hst.
  set (w1 := World.with_db (clearTimeout handle w) s).
  assert (consistent w1) as Hw1.
  { split; simpl; [done|..].
    - intros key entry e Hentry He. apply Hst. by eapply consistent_cache.
    - intros h t [_ Ht]%lookup_delete_Some. by apply Hw.
    - intros h [t [_ Ht]%lookup_delete_Some]. apply Hw. by exists t.
    - intros h t [_ Ht]%lookup_delete_Some. apply Hst.
      by eapply consistent_timers_stored. }
  assert (no_timer_for id w1) as Hnone1.
  { intros h t. simpl. intros [Hne Ht]%lookup_delete_Some Heq.
    apply (consistent_registered _ Hw) in Ht, Hh. fold id in Hh. congruence. }
  destruct (refreshEvents_consistent now w1 Hw1)
    as (Hout' & Hw' & Hst' & Hdone' & Hnone' & _ & _ & Hnext).
  fold w' in Hw', Hst', Hdone', Hnone', Hnext.
  assert (no_timer_for id w') as Hnone.
  { apply Hnone'; [done|]. simpl. intros e He. congruence. }
  assert (store.timeoutFires handle now w
          = World.with_scheduledChecks w' (delete id (World.scheduledChecks w')))
    as ->.
  { by apply timeoutFires_eq. }
  split; [done|]. split; [|split; [|split; [|split]]].
  - split; simpl; try apply Hw'.
    intros h t Ht. rewrite lookup_delete_ne; [by apply Hw'|].
    intros Heq. by apply (Hnone h t Ht).
  - simpl. destruct (World.timeouts w' !! handle) as [x|] eqn:Hx; [|done].
    apply (refreshEvents_old_handles now w1) in Hx; [|done|].
    + simpl in Hx. by rewrite lookup_delete_eq in Hx.
    + simpl. apply Hw. by exists timeout.
  - exact Hnone.
  - simpl. apply lookup_delete_eq.
  - simpl. by apply (Hdone' id r).
Qed.
End timers.

(** ** The runs of the store *)

(** One operation of the store, or one timeout that fires when it is due. *)
Inductive step `{Runtime} : World.t → World.t → Prop :=
  | step_initializeStore opened now w :
      step w (store.initializeStore opened now w)
  | step_setSelectedDate date now w :
      step w (store.setSelectedDate date now w)
  | step_fetchEvents now w :
      step w (store.fetchEvents now w)
  | step_fetchEventsByDate date now w :
      step w (store.fetchEventsByDate date now w)
  | step_addEvent event now w :
      step w (store.addEvent event now w).1
  | step_updateEvent id updates now w :
      step w (store.updateEvent id updates now w).1
  | step_deleteEvent id now w :
      step w (store.deleteEvent id now w).1
  | step_markEventAsCompleted id completed now w :
      step w (store.markEventAsCompleted id completed now w).1
  | step_clearError w :
      step w (store.clearError w)
  | step_clearCache w :
      step w (store.clearCache w)
  | step_cleanup w :
      step w (store.cleanup w)
  | step_timeout handle timeout now w :
      World.timeouts w !! handle = Some timeout →
      Timeout.due timeout ≤ now →
      step w (store.timeoutFires handle now w).

(** The worlds the store can be in. *)
Definition reachable `{Runtime} (w : World.t) : Prop := rtc step World.initial w.

Lemma step_consistent `{Runtime} (w w' : World.t) :
  step w w' → consistent w → consistent w'.
Proof.
  destruct 1; intros Hw.
  - by apply initializeStore_consistent.
  - by apply setSelectedDate_consistent.
  - by apply fetchEvents_consistent.
  - by apply fetchEventsByDate_consistent.
  - by apply addEvent_consistent.
  - by apply updateEvent_consistent.
  - by apply deleteEvent_consistent.
  - by apply markEventAsCompleted_consistent.
  - by apply consistent_with_state.
  - by apply invalidateCache_consistent.
  - by apply cleanup_clears.
  - by eapply timeoutFires_spec.
Qed.

Lemma reachable_consistent `{Runtime} (w : World.t) : reachable w → consistent w.
Proof.
  unfold reachable. revert w. apply rtc_ind_r; [apply consistent_initial|].
  intros w1 w2 _ Hstep Hw1. by eapply step_consistent.
Qed.

(** In a world the store reaches, the lists [refreshEvents] hands to
    [checkAndUpdatePastEvents] (a cached snapshot, or the result of the query)
    hold stored events only, and the refresh resolves. *)
Lemma reachable_refresh_lists_stored `{Runtime} (w : World.t) (now : Z) :
  reachable w →
  keyed (World.db w)
  ∧ (∀ key entry e, World.cache w !! key = Some entry →
       e ∈ CacheEntry.events entry → stored (World.db w) (Event.id e))
  ∧ (∀ e, e ∈ fetched w → stored (issue (query w) (World.db w)) (Event.id e))
  ∧ (store.refreshEvents now w).2 = Resolved ().
Proof.
  intros Hw%reachable_consistent. split; [apply Hw|]. split; [apply Hw|]. split.
  - intros e He. apply stored_issue. exists e. apply fetched_stored; [apply Hw|done].
  - by apply refreshEvents_consistent.
Qed.

Section arming.
Context `{Runtime}.

Lemma scheduleEventCheck_registered (e : Event.t) (now : Z) (w : World.t) :
  consistent w →
  ∀ h t, World.timeouts (store.scheduleEventCheck e now w) !! h = Some t →
         World.scheduledChecks (store.scheduleEventCheck e now w) !! Timeout.event t
         = Some h.
Proof.
  intros Hw. destruct (schedulable now e) eqn:Hs.
  2:{ rewrite scheduleEventCheck_skip by done. apply Hw. }
  rewrite scheduleEventCheck_arm by done.
  destruct (unschedule_consistent (Event.id e) w Hw) as [Hw1 Hnone].
  destruct (unschedule_frame (Event.id e) w) as (_ & _ & _ & _ & Hreg).
  simpl. intros h t [[<- <-]|[Hne Hh]]%lookup_insert_Some; simpl.
  - apply lookup_insert_eq.
  - pose proof (Hnone h t Hh) as Hev.
    rewrite lookup_insert_ne by done. rewrite <-Hreg. by apply Hw1.
Qed.

(** Arming cancels the pending timeout of the event, and the new timeout is
    then the only one of the event. *)
Lemma scheduleEventCheck_replaces (e : Event.t) (now : Z) (w : World.t) :
  consistent w → schedulable now e = true →
  let w' := store.scheduleEventCheck e now w in
  (∀ old t, World.scheduledChecks w !! Event.id e = Some old →
            World.timeouts w !! old = Some t →
            World.timeouts w' !! old = None)
  ∧ (∀ h t, World.timeouts w' !! h = Some t → Timeout.event t = Event.id e →
            h = World.nextTimeout w).
Proof.
  intros Hw Hs. simpl. rewrite scheduleEventCheck_arm by done. simpl. split.
  - intros old t Hold Ht.
    assert (old < World.nextTimeout w) as Hlt by (apply Hw; by exists t).
    rewrite lookup_insert_ne by lia. unfold unschedule. rewrite Hold. simpl.
    apply lookup_delete_eq.
  - intros h t [[<- _]|[_ Hh]]%lookup_insert_Some Hev; [done|].
    by apply (unschedule_timeouts _ _ _ _ Hw) in Hh as [_ Hne].
Qed.
End arming.

(** C7. In every world the store reaches, an event id has at most one pending
    timeout, the one [scheduledChecks] holds for it. Arming keeps this: it
    cancels the pending timeout of the id, and the new timeout is the only one
    of the id. A timeout that fires is no longer pending and leaves no entry
    for its id. [cleanup] leaves no pending timeout and no entry. *)
Theorem at_most_one_timer_per_event `{Runtime} (w : World.t) :
  reachable w →
  one_timer_per_event w
  ∧ (∀ h t, World.timeouts w !! h = Some t →
            World.scheduledChecks w !! Timeout.event t = Some h)
  ∧ (∀ e now,
       let w' := store.scheduleEventCheck e now w in
       one_timer_per_event w'
       ∧ (schedulable now e = true →
            (∀ old t, World.scheduledChecks w !! Event.id e = Some old →
                      World.timeouts w !! old = Some t →
                      World.timeouts w' !! old = None)
            ∧ (∀ h t, World.timeouts w' !! h = Some t →
                      Timeout.event t = Event.id e → h = World.nextTimeout w)))
  ∧ (∀ h t now,
       World.timeouts w !! h = Some t →
       let w' := store.timeoutFires h now w in
       World.timeouts w' !! h = None
       ∧ World.scheduledChecks w' !! Timeout.event t = None
       ∧ one_timer_per_event w')
  ∧ World.timeouts (store.cleanup w) = ∅
  ∧ World.scheduledChecks (store.cleanup w) = ∅.
Proof.
  intros Hw%reachable_consistent.
  split; [by apply consistent_one_timer|]. split; [apply Hw|].
  split; [|split].
  - intros e now. simpl. split.
    + intros h1 h2 t1 t2 H1 H2 Heq.
      apply (scheduleEventCheck_registered e now w Hw) in H1, H2. congruence.
    + intros Hs. by apply scheduleEventCheck_replaces.
  - intros h t now Hh. simpl.
    destruct (timeoutFires_spec h t now w Hw Hh) as (_ & Hw' & Hgone & _ & Hreg & _).
    split; [done|]. split; [done|]. by apply consistent_one_timer.
  - destruct (cleanup_clears w Hw) as (Ht & Hs & _). by split.
Qed.

(** C2, as the code has it. [scheduleEventCheck] does nothing for a completed
    event and for an event whose date and time are strictly before [now].
    For any other event, one at exactly [now] included, it cancels the pending
    timeout [scheduledChecks] holds for the id and arms one timeout, with the
    delay from [now] to the event's date and time, under a new handle that
    [scheduledChecks] then holds for the id; the timeout is due at the
    event's date and time when that delay is one [setTimeout] keeps, that is
    at most 2147483647 ms. When a pending timeout fires, the record of its
    event is marked completed, the view is refreshed, and the entry of the id
    is removed from [scheduledChecks]. *)
Theorem scheduleEventCheck_arms_one_timeout `{Runtime}
    (e : Event.t) (now : Z) (w : World.t) :
  let eventDateTime := parseISO (Event.date e +:+ "T" +:+ Event.time e) in
  ((Event.completed e = true ∨ ∃ t, eventDateTime = Some t ∧ t < now) →
     store.scheduleEventCheck e now w = w)
  ∧ (Event.completed e = false → (∀ t, eventDateTime = Some t → now ≤ t) →
     let w' := store.scheduleEventCheck e now w in
     let handle := World.nextTimeout w in
     let armed := Timeout.mk (Event.id e) now ((λ t, t - now) <$> eventDateTime) in
     World.timeouts w'
     = <[handle := armed]>
         (match World.scheduledChecks w !! Event.id e with
          | Some old => delete old (World.timeouts w)
          | None => World.timeouts w
          end)
     ∧ (∀ t, eventDateTime = Some t → t - now ≤ 2147483647 → Timeout.due armed = t)
     ∧ World.scheduledChecks w' = <[Event.id e := handle]> (World.scheduledChecks w)
     ∧ World.nextTimeout w' = handle + 1
     ∧ World.db w' = World.db w
     ∧ World.cache w' = World.cache w
     ∧ World.state w' = World.state w
     ∧ (consistent w →
          ∀ h t, World.timeouts w' !! h = Some t → Timeout.event t = Event.id e →
                 h = handle))
  ∧ (consistent w →
     ∀ handle timeout now',
       World.timeouts w !! handle = Some timeout →
       let id := Timeout.event timeout in
       let s := (db.markEventAsCompleted id true now' (World.db w)).1 in
       let w' := (store.refreshEvents now' (World.with_db (clearTimeout handle w) s)).1 in
       (db.markEventAsCompleted id true now' (World.db w)).2 = Resolved ()
       ∧ store.timeoutFires handle now' w
         = World.with_scheduledChecks w' (delete id (World.scheduledChecks w'))
       ∧ (∃ r, ObjectStore.records (World.db (store.timeoutFires handle now' w)) !! id
               = Some r ∧ Event.completed r = true)
       ∧ World.timeouts (store.timeoutFires handle now' w) !! handle = None
       ∧ World.scheduledChecks (store.timeoutFires handle now' w) !! id = None).
Proof.
  simpl. split; [|split].
  - intros Hskip. apply scheduleEventCheck_skip. unfold schedulable, isBefore.
    destruct Hskip as [->|(t & -> & Hlt)]; [done|].
    rewrite bool_decide_eq_true_2 by done. apply andb_false_r.
  - intros Hc Hnot.
    assert (schedulable now e = true) as Hs.
    { unfold schedulable, isBefore. rewrite Hc. simpl.
      destruct (parseISO _) as [t|]; [|done].
      rewrite bool_decide_eq_false_2; [done|]. specialize (Hnot t eq_refl). lia. }
    rewrite scheduleEventCheck_arm by done. simpl.
    split; [|split; [|split; [|split; [|split; [|split; [|split]]]]]]; try done.
    + unfold unschedule. by destruct (World.scheduledChecks w !! Event.id e).
    + intros t Ht Hmax. unfold Timeout.due, Timeout.kept, Timeout.ToInt32. simpl.
      rewrite Ht. simpl. specialize (Hnot t Ht).
      rewrite Z.mod_small by lia. lia.
    + apply insert_delete_eq.
    + intros Hw h t Hh Hev.
      destruct (scheduleEventCheck_replaces e now w Hw Hs) as [_ Honly].
      apply (Honly h t); [|done]. by rewrite scheduleEventCheck_arm.
  - intros Hw handle timeout now' Hh.
    destruct (timeoutFires_spec handle timeout now' w Hw Hh)
      as (Heq & _ & Hgone & _ & Hreg & Hdone).
    split; [|done].
    apply markEventAsCompleted_stored; [apply Hw|].
    by eapply consistent_timers_stored.
Qed.

(** ** The cache *)

Section cache.
Context `{Runtime}.

Lemma is_query_query (w : World.t) : is_query (query w) = true.
Proof. unfold query. by destruct (store.chosenDate w). Qed.

(** The requests of a refresh: none is a query on a hit; on a miss the
    query comes first and is the only one. *)
Lemma refreshEvents_requests (now : Z) (w : World.t) :
  consistent w → State.isDBReady (World.state w) = true →
  let w' := (store.refreshEvents now w).1 in
  (store.isCacheValid (store.cacheKey w) now w = true →
     Forall (λ r, is_query r = false) (requests_since (World.db w) (World.db w')))
  ∧ (store.isCacheValid (store.cacheKey w) now w = false →
     ∃ rest, requests_since (World.db w) (World.db w') = query w :: rest
             ∧ Forall (λ r, is_query r = false) rest).
Proof.
  intros Hw Hready. simpl. split; intros Hvalid.
  - unfold store.isCacheValid in Hvalid.
    destruct (World.cache w !! store.cacheKey w) as [entry|] eqn:Hentry; [|done].
    apply bool_decide_eq_true in Hvalid.
    rewrite (refreshEvents_hit now w entry) by done. simpl.
    by apply (mark_each_keyed _ now (World.db w) (consistent_keyed _ Hw)).
  - rewrite (refreshEvents_miss now w Hready Hvalid (consistent_keyed _ Hw)). simpl.
    destruct (scheduleAll_frame (reconciled now <$> fetched w) now
                (World.with_db w (mark_each (past_due_ids now (fetched w)) now
                                    (issue (query w) (World.db w)))))
      as (-> & _). simpl.
    destruct (mark_each_keyed (past_due_ids now (fetched w)) now
                (issue (query w) (World.db w)) (consistent_keyed _ Hw))
      as (_ & _ & _ & _ & Hex & Hq).
    destruct (extends_app (World.db w) (issue (query w) (World.db w)) [query w]
                eq_refl) as [Hex0 Hsince0].
    destruct (extends_trans _ _ _ Hex0 Hex) as [_ ->]. rewrite Hsince0. simpl.
    eauto.
Qed.

Lemma cacheKey_same_state (w w' : World.t) :
  State.selectedDate (World.state w') = State.selectedDate (World.state w) →
  store.cacheKey w' = store.cacheKey w.
Proof. unfold store.cacheKey, store.chosenDate. by intros ->. Qed.

(** What a fetch that misses the cache leaves. *)
Lemma fetchEvents_miss (now : Z) (w : World.t) :
  consistent w → State.isDBReady (World.state w) = true →
  store.isCacheValid (store.cacheKey w) now w = false →
  let w' := store.fetchEvents now w in
  let events := reconciled now <$> fetched w in
  consistent w'
  ∧ State.isDBReady (World.state w') = true
  ∧ store.cacheKey w' = store.cacheKey w
  ∧ World.cache w' !! store.cacheKey w = Some (CacheEntry.mk now events)
  ∧ State.events (World.state w') = events
  ∧ State.error (World.state w') = None
  ∧ State.loading (World.state w') = false
  ∧ ∃ rest, requests_since (World.db w) (World.db w') = query w :: rest
            ∧ Forall (λ r, is_query r = false) rest.
Proof.
  intros Hw Hready Hmiss. simpl.
  pose proof (consistent_set_loading w Hw) as Hwl.
  assert (store.fetchEvents now w = (store.refreshEvents now (set_loading w)).1) as ->.
  { unfold store.fetchEvents. rewrite Hready. simpl. by apply refreshed_eq. }
  destruct (refreshEvents_consistent now (set_loading w) Hwl) as (_ & Hw' & _).
  destruct (refreshEvents_requests now (set_loading w) Hwl Hready) as [_ Hreq].
  specialize (Hreq Hmiss). revert Hw' Hreq.
  rewrite (refreshEvents_miss now (set_loading w) Hready Hmiss
             (consistent_keyed _ Hwl)).
  change (fetched (set_loading w)) with (fetched w).
  change (query (set_loading w)) with (query w).
  change (store.cacheKey (set_loading w)) with (store.cacheKey w).
  change (World.db (set_loading w)) with (World.db w).
  set (events := reconciled now <$> fetched w).
  set (s := mark_each (past_due_ids now (fetched w)) now (issue (query w) (World.db w))).
  destruct (scheduleAll_frame events now (World.with_db (set_loading w) s))
    as (Hdb & Hcache & Hstate).
  simpl. intros Hw' Hreq. rewrite Hstate. simpl.
  split; [done|]. split; [done|]. split.
  { apply cacheKey_same_state. simpl. by rewrite Hstate. }
  split; [apply lookup_insert_eq|]. by repeat split.
Qed.
End cache.

(** C5. A cache entry is valid exactly when it exists and [now] minus its
    timestamp is below 5000; a refresh of a ready store queries the record
    store exactly when the entry of the current key is not valid. After a
    fetch at [t1] that queried the store, a fetch at [t2] with [t2 - t1 < 5000]
    sends no query and publishes the reconciled cached snapshot, and a fetch
    at [t2] with [t2 - t1 >= 5000] sends a query. *)
Theorem cache_entry_is_used_within_ttl `{Runtime} (w : World.t) (t1 t2 : Z) :
  (∀ key now,
     store.isCacheValid key now w = true
     ↔ ∃ entry, World.cache w !! key = Some entry
                ∧ now - CacheEntry.timestamp entry < 5000)
  ∧ (consistent w → State.isDBReady (World.state w) = true →
     (∀ now,
        Exists (λ r, is_query r = true)
               (requests_since (World.db w) (World.db (store.refreshEvents now w).1))
        ↔ store.isCacheValid (store.cacheKey w) now w = false)
     ∧ (store.isCacheValid (store.cacheKey w) t1 w = false →
        let w1 := store.fetchEvents t1 w in
        let w2 := store.fetchEvents t2 w1 in
        (t2 - t1 < 5000 →
           Forall (λ r, is_query r = false)
                  (requests_since (World.db w1) (World.db w2))
           ∧ State.events (World.state w2)
             = reconciled t2 <$> State.events (World.state w1))
        ∧ (5000 ≤ t2 - t1 →
           Exists (λ r, is_query r = true)
                  (requests_since (World.db w1) (World.db w2))))).
Proof.
  split.
  { intros key now. unfold store.isCacheValid, store.CACHE_DURATION.
    destruct (World.cache w !! key) as [entry|]; [|naive_solver].
    rewrite bool_decide_eq_true. naive_solver. }
  intros Hw Hready. split.
  - intros now. destruct (refreshEvents_requests now w Hw Hready) as [Hhit Hmiss].
    destruct (store.isCacheValid (store.cacheKey w) now w) eqn:Hvalid.
    + split; [|done]. intros Hex. specialize (Hhit eq_refl).
      apply Exists_exists in Hex as (r & Hr & Hq).
      rewrite Forall_forall in Hhit. specialize (Hhit r Hr). congruence.
    + split; [done|]. intros _. destruct (Hmiss eq_refl) as (rest & -> & _).
      apply Exists_cons_hd, is_query_query.
  - intros Hmiss. simpl.
    destruct (fetchEvents_miss t1 w Hw Hready Hmiss)
      as (Hw1 & Hready1 & Hkey1 & Hentry1 & Hevents1 & _).
    set (w1 := store.fetchEvents t1 w) in *.
    pose proof (consistent_set_loading w1 Hw1) as Hwl.
    assert (store.fetchEvents t2 w1 = (store.refreshEvents t2 (set_loading w1)).1) as ->.
    { unfold store.fetchEvents. rewrite Hready1. simpl. by apply refreshed_eq. }
    destruct (refreshEvents_requests t2 (set_loading w1) Hwl Hready1) as [Hhit Hmiss2].
    change (World.db (set_loading w1)) with (World.db w1) in Hhit, Hmiss2.
    assert (store.cacheKey (set_loading w1) = store.cacheKey w) as Hkey by done.
    split.
    + intros Hlt. split.
      * apply Hhit. unfold store.isCacheValid. rewrite Hkey. simpl. rewrite Hentry1.
        simpl. by apply bool_decide_eq_true_2.
      * rewrite (refreshEvents_hit t2 (set_loading w1) (CacheEntry.mk t1
                   (reconciled t1 <$> fetched w))); try done.
        -- simpl. by rewrite Hevents1.
        -- by rewrite Hkey.
    + intros Hge. destruct Hmiss2 as (rest & -> & _).
      * unfold store.isCacheValid. rewrite Hkey. simpl. rewrite Hentry1. simpl.
        apply bool_decide_eq_false_2. unfold store.CACHE_DURATION. lia.
      * apply Exists_cons_hd, is_query_query.
Qed.

(** The world [w'] was refreshed from the record store at [now]: a query was
    sent since [w], and the cache holds nothing but the snapshot of that
    refresh, under the current key. *)
Definition refreshed_from_store `{Runtime} (now : Z) (w w' : World.t) : Prop :=
  Exists (λ r, is_query r = true) (requests_since (World.db w) (World.db w'))
  ∧ ∀ key entry,
      World.cache w' !! key = Some entry →
      key = store.cacheKey w'
      ∧ CacheEntry.timestamp entry = now
      ∧ CacheEntry.events entry = State.events (World.state w').

Section invalidation.
Context `{Runtime}.

Lemma refreshEvents_extends (now : Z) (w : World.t) :
  consistent w → extends (World.db w) (World.db (store.refreshEvents now w).1).
Proof.
  intros Hw. destruct (State.isDBReady (World.state w)) eqn:Hready.
  2:{ unfold store.refreshEvents. rewrite Hready. apply extends_refl. }
  destruct (store.isCacheValid (store.cacheKey w) now w) eqn:Hvalid.
  - unfold store.isCacheValid in Hvalid.
    destruct (World.cache w !! store.cacheKey w) as [entry|] eqn:Hentry; [|done].
    apply bool_decide_eq_true in Hvalid.
    rewrite (refreshEvents_hit now w entry) by done. simpl.
    by apply (mark_each_keyed _ now (World.db w) (consistent_keyed _ Hw)).
  - rewrite (refreshEvents_miss now w Hready Hvalid (consistent_keyed _ Hw)). simpl.
    destruct (scheduleAll_frame (reconciled now <$> fetched w) now
                (World.with_db w (mark_each (past_due_ids now (fetched w)) now
                                    (issue (query w) (World.db w)))))
      as (-> & _). simpl.
    destruct (mark_each_keyed (past_due_ids now (fetched w)) now
                (issue (query w) (World.db w)) (consistent_keyed _ Hw))
      as (_ & _ & _ & _ & Hex & _).
    destruct (extends_app (World.db w) (issue (query w) (World.db w)) [query w]
                eq_refl) as [Hex0 _].
    by apply (extends_trans _ _ _ Hex0 Hex).
Qed.

(** The refresh that ends a mutation, on the emptied cache. *)
Lemma refreshed_after_invalidate (now : Z) (w0 w : World.t) :
  consistent (store.invalidateCache w) →
  State.isDBReady (World.state w) = true →
  extends (World.db w0) (World.db w) →
  refreshed_from_store now w0 (store.refreshed now (store.invalidateCache w)).
Proof.
  rewrite invalidateCache_frame. intros Hw Hready Hext.
  assert (store.isCacheValid (store.cacheKey (World.with_cache w ∅)) now
            (World.with_cache w ∅) = false) as Hmiss.
  { unfold store.isCacheValid. simpl. by rewrite lookup_empty. }
  rewrite refreshed_eq by done.
  destruct (refreshEvents_requests now (World.with_cache w ∅) Hw Hready)
    as [_ Hreq].
  destruct (Hreq Hmiss) as (rest & Hsince & _).
  pose proof (refreshEvents_extends now _ Hw) as Hext'.
  change (World.db (World.with_cache w ∅)) with (World.db w) in Hsince, Hext'.
  split.
  - rewrite (proj2 (extends_trans _ _ _ Hext Hext')), Hsince.
    apply Exists_app. right. apply Exists_cons_hd, is_query_query.
  - rewrite (refreshEvents_miss now (World.with_cache w ∅) Hready Hmiss
               (consistent_keyed _ Hw)).
    set (events := reconciled now <$> fetched (World.with_cache w ∅)).
    set (s := mark_each _ now _).
    destruct (scheduleAll_frame events now (World.with_db (World.with_cache w ∅) s))
      as (Hdb & Hcache & Hstate).
    simpl. rewrite Hcache. simpl. intros key entry.
    rewrite lookup_insert_Some, lookup_empty.
    intros [[<- <-]|[_ [=]]]. split; [|done].
    symmetry. apply cacheKey_same_state. simpl. by rewrite Hstate.
Qed.
End invalidation.

(** [deleteEvent] on a ready store: the refresh of the world that the
    cancelled timeout, the database call and the emptied cache leave. *)
Lemma deleteEvent_run `{Runtime} (id now : Z) (w : World.t) :
  consistent w → State.isDBReady (World.state w) = true →
  let wmid :=
    World.with_cache
      (World.with_db (unschedule id (set_loading w))
                     (db.deleteEvent id (World.db w)).1) ∅ in
  consistent wmid
  ∧ World.state wmid = World.state (set_loading w)
  ∧ (store.deleteEvent id now w).1 = (store.refreshEvents now wmid).1.
Proof.
  intros Hw Hready wmid.
  destruct (unschedule_frame id (set_loading w)) as (Hdb & _ & Hstate & _).
  destruct (unschedule_consistent id (set_loading w) (consistent_set_loading w Hw))
    as [Hw0 Hnone].
  destruct (deleteEvent_keyed id (World.db w) (consistent_keyed _ Hw))
    as (Hout & Hk & Hst & _).
  assert (consistent wmid) as Hmid.
  { split; simpl; [done| |apply Hw0|apply Hw0|].
    - intros key entry e. by rewrite lookup_empty.
    - intros h t Hh. apply Hst. split; [|by apply (Hnone h t)].
      change (World.db w) with (World.db (set_loading w)). rewrite <-Hdb.
      by eapply consistent_timers_stored. }
  split; [done|]. split; [done|].
  unfold store.deleteEvent. rewrite Hready.
  change (negb true) with false. cbv iota zeta.
  rewrite Hdb. change (World.db (set_loading w)) with (World.db w).
  rewrite (surjective_pairing (db.deleteEvent id (World.db w))), Hout.
  cbv iota. cbn [fst]. rewrite invalidateCache_frame. by apply refreshed_eq.
Qed.

Lemma deleteEvent_refreshed `{Runtime} (id now : Z) (w : World.t) :
  consistent w → State.isDBReady (World.state w) = true →
  refreshed_from_store now w (store.deleteEvent id now w).1.
Proof.
  intros Hw Hready.
  destruct (deleteEvent_run id now w Hw Hready) as (Hmid & Hstate & Heq).
  destruct (deleteEvent_keyed id (World.db w) (consistent_keyed _ Hw))
    as (_ & _ & _ & Hext & _).
  pose proof (refreshed_after_invalidate now w
                (World.with_db (unschedule id (set_loading w))
                               (db.deleteEvent id (World.db w)).1)) as Hrefreshed.
  rewrite invalidateCache_frame, refreshed_eq, <-Heq in Hrefreshed by done.
  apply Hrefreshed; [done| |done].
  simpl. by rewrite (proj1 (proj2 (proj2 (unschedule_frame id (set_loading w))))).
Qed.

(** The records the view of [w] shows: all of them, or those of the selected
    date. *)
Definition shown `{Runtime} (w : World.t) (r : Event.t) : Prop :=
  match store.chosenDate w with
  | Some date => Event.date r = date
  | None => True
  end.

(** What a mutation leaves of [w], when its database call left the store
    [written] and [w'] is the world at its end: the call sent no query; after
    the requests of the call the refresh sent the query of the view, and no
    other; the published list is the reconciled result of that query on
    [written], so it has an event for exactly the records of [written] that
    the view shows; and the cache holds this list, stamped [now], under the
    key of the view, and no other entry. *)
Definition refreshed_after_the_write `{Runtime} (now : Z) (w : World.t)
    (written : ObjectStore.t) (w' : World.t) : Prop :=
  extends (World.db w) written
  ∧ Forall (λ r, is_query r = false) (requests_since (World.db w) written)
  ∧ (∃ rest,
       requests_since (World.db w) (World.db w')
       = requests_since (World.db w) written ++ query w :: rest
       ∧ Forall (λ r, is_query r = false) rest)
  ∧ State.events (World.state w')
    = reconciled now <$> fetched (World.with_db w written)
  ∧ (∀ k, (∃ e, e ∈ State.events (World.state w') ∧ Event.id e = k)
          ↔ ∃ r, ObjectStore.records written !! k = Some r ∧ shown w r)
  ∧ World.cache w'
    = {[ store.cacheKey w := CacheEntry.mk now (State.events (World.state w')) ]}.

Section written.
Context `{Runtime}.

Lemma chosenDate_same_state (w w' : World.t) :
  State.selectedDate (World.state w') = State.selectedDate (World.state w) →
  store.chosenDate w' = store.chosenDate w.
Proof. unfold store.chosenDate. by intros ->. Qed.

Lemma fetched_same (w w' : World.t) :
  World.db w' = World.db w →
  State.selectedDate (World.state w') = State.selectedDate (World.state w) →
  fetched w' = fetched w ∧ query w' = query w.
Proof.
  intros Hdb Hdate%chosenDate_same_state. unfold fetched, query.
  by rewrite Hdb, Hdate.
Qed.

(** The ids of the list a query resolves to. *)
Lemma fetched_ids (w : World.t) (k : Z) :
  keyed (World.db w) →
  (∃ e, e ∈ fetched w ∧ Event.id e = k)
  ↔ ∃ r, ObjectStore.records (World.db w) !! k = Some r ∧ shown w r.
Proof.
  intros Hkeyed. unfold fetched, shown.
  destruct (store.chosenDate w) as [date|].
  - setoid_rewrite elem_of_sort. setoid_rewrite list_elem_of_filter.
    setoid_rewrite elem_of_in_key_order. split.
    + intros (e & [Hdate [k' Hk']] & <-). exists e.
      by rewrite (Hkeyed _ _ Hk').
    + intros (r & Hr & Hdate). exists r. split; [eauto|]. by apply Hkeyed.
  - setoid_rewrite elem_of_sort. setoid_rewrite elem_of_in_key_order. split.
    + intros (e & [k' Hk'] & <-). exists e. by rewrite (Hkeyed _ _ Hk').
    + intros (r & Hr & _). exists r. split; [eauto|]. by apply Hkeyed.
Qed.

(** The refresh that ends a mutation, on the emptied cache: [wm] is the world
    after the database call, before [invalidateCache]. *)
Lemma refreshed_after_the_write_intro (now : Z) (w wm : World.t) :
  consistent (store.invalidateCache wm) →
  State.isDBReady (World.state wm) = true →
  State.selectedDate (World.state wm) = State.selectedDate (World.state w) →
  extends (World.db w) (World.db wm) →
  Forall (λ r, is_query r = false) (requests_since (World.db w) (World.db wm)) →
  refreshed_after_the_write now w (World.db wm)
    (store.refreshed now (store.invalidateCache wm)).
Proof.
  rewrite invalidateCache_frame. intros Hw Hready Hdate Hext Hwrites.
  set (w0 := World.with_cache wm ∅) in *.
  assert (store.isCacheValid (store.cacheKey w0) now w0 = false) as Hmiss.
  { unfold store.isCacheValid. simpl. by rewrite lookup_empty. }
  assert (query w0 = query w) as Hq.
  { unfold query. by rewrite (chosenDate_same_state w w0 Hdate). }
  assert (fetched w0 = fetched (World.with_db w (World.db wm))) as Hf.
  { by apply (fetched_same (World.with_db w (World.db wm)) w0). }
  rewrite refreshed_eq by done.
  destruct (refreshEvents_requests now w0 Hw Hready) as [_ Hreq].
  destruct (Hreq Hmiss) as (rest & Hsince & Hrest).
  pose proof (refreshEvents_extends now _ Hw) as Hext'.
  change (World.db w0) with (World.db wm) in Hsince, Hext'.
  assert (State.events (World.state (store.refreshEvents now w0).1)
          = reconciled now <$> fetched w0
          ∧ World.cache (store.refreshEvents now w0).1
            = {[ store.cacheKey w0
                 := CacheEntry.mk now (reconciled now <$> fetched w0) ]})
    as [Hevents Hcache].
  { rewrite (refreshEvents_miss now w0 Hready Hmiss (consistent_keyed _ Hw)).
    set (events := reconciled now <$> fetched w0).
    set (s := mark_each _ now _).
    destruct (scheduleAll_frame events now (World.with_db w0 s))
      as (_ & Hc & _).
    cbv zeta. cbn [fst]. split; [done|].
    unfold set_events, store.updateCache.
    cbn [World.cache World.with_state World.with_cache]. rewrite Hc.
    cbn [World.cache World.with_db]. unfold w0. cbn [World.cache World.with_cache].
    by rewrite insert_empty. }
  split; [done|]. split; [done|]. split; [|split; [|split]].
  - exists rest. split; [|done].
    by rewrite (proj2 (extends_trans _ _ _ Hext Hext')), Hsince, Hq.
  - by rewrite Hevents, Hf.
  - intros k. rewrite Hevents.
    assert ((∃ e, e ∈ reconciled now <$> fetched w0 ∧ Event.id e = k)
            ↔ ∃ e, e ∈ fetched w0 ∧ Event.id e = k) as ->.
    { setoid_rewrite list_elem_of_fmap. split.
      - intros (e' & (e & -> & He) & <-). exists e.
        by rewrite reconciled_id.
      - intros (e & He & <-). exists (reconciled now e).
        split; [by exists e|apply reconciled_id]. }
    rewrite (fetched_ids w0 k (consistent_keyed _ Hw)).
    unfold shown. by rewrite (chosenDate_same_state w w0 Hdate).
  - rewrite Hcache, Hevents.
    by rewrite (cacheKey_same_state w w0 Hdate).
Qed.
End written.

(** The four mutations of the store, when their database call resolved. *)
Section mutations.
Context `{Runtime}.

Lemma addEvent_written (event : CreateEvent.t) (now : Z) (w : World.t) :
  consistent w → State.isDBReady (World.state w) = true →
  is_resolved (db.addEvent event now (World.db w)).2 = true →
  refreshed_after_the_write now w (db.addEvent event now (World.db w)).1
    (store.addEvent event now w).1.
Proof.
  intros Hw Hready. pose proof (consistent_set_loading w Hw) as Hwl.
  unfold store.addEvent. rewrite Hready. simpl.
  destruct (addEvent_keyed event now (World.db w) (consistent_keyed _ Hw))
    as (Hk & Hst & Hext & Hwrites).
  destruct (db.addEvent event now (World.db w)) as [s [key|err]]; [|done].
  intros _. simpl in *.
  apply (refreshed_after_the_write_intro now w (World.with_db (set_loading w) s));
    [|done..].
  by apply invalidateCache_consistent, consistent_with_db.
Qed.

Lemma updateEvent_written (id : Z) (updates : UpdateEvent.t) (now : Z) (w : World.t) :
  consistent w → State.isDBReady (World.state w) = true →
  is_resolved (db.updateEvent id updates now (World.db w)).2 = true →
  refreshed_after_the_write now w (db.updateEvent id updates now (World.db w)).1
    (store.updateEvent id updates now w).1.
Proof.
  intros Hw Hready. pose proof (consistent_set_loading w Hw) as Hwl.
  unfold store.updateEvent. rewrite Hready. simpl.
  destruct (updateEvent_keyed id updates now (World.db w) (consistent_keyed _ Hw))
    as (Hk & Hst & _ & Hext & Hwrites).
  destruct (db.updateEvent id updates now (World.db w)) as [s [[]|err]]; [|done].
  intros _. simpl in *.
  assert (consistent (World.with_db (set_loading w) s)) as Hws.
  { apply consistent_with_db; [done..|]. intros k. by rewrite Hst. }
  destruct (unschedule_frame id (World.with_db (set_loading w) s))
    as (Hdb & _ & Hstate & _).
  pose proof (refreshed_after_the_write_intro now w
                (unschedule id (World.with_db (set_loading w) s))) as Hintro.
  rewrite Hdb, Hstate in Hintro. apply Hintro; [|done..].
  by apply invalidateCache_consistent, unschedule_consistent.
Qed.

Lemma deleteEvent_written (id : Z) (now : Z) (w : World.t) :
  consistent w → State.isDBReady (World.state w) = true →
  refreshed_after_the_write now w (db.deleteEvent id (World.db w)).1
    (store.deleteEvent id now w).1.
Proof.
  intros Hw Hready.
  destruct (deleteEvent_run id now w Hw Hready) as (Hmid & Hstate & Heq).
  destruct (deleteEvent_keyed id (World.db w) (consistent_keyed _ Hw))
    as (_ & _ & _ & Hext & Hwrites).
  pose proof (refreshed_after_the_write_intro now w
                (World.with_db (unschedule id (set_loading w))
                               (db.deleteEvent id (World.db w)).1)) as Hintro.
  rewrite invalidateCache_frame, refreshed_eq, <-Heq in Hintro by done.
  apply Hintro; [done| | |done..].
  - simpl. by rewrite (proj1 (proj2 (proj2 (unschedule_frame id (set_loading w))))).
  - simpl. by rewrite (proj1 (proj2 (proj2 (unschedule_frame id (set_loading w))))).
Qed.

Lemma markEventAsCompleted_written (id : Z) (completed : bool) (now : Z)
    (w : World.t) :
  consistent w → State.isDBReady (World.state w) = true →
  is_resolved (db.markEventAsCompleted id completed now (World.db w)).2 = true →
  refreshed_after_the_write now w
    (db.markEventAsCompleted id completed now (World.db w)).1
    (store.markEventAsCompleted id completed now w).1.
Proof.
  intros Hw Hready. pose proof (consistent_set_loading w Hw) as Hwl.
  unfold store.markEventAsCompleted. rewrite Hready. simpl.
  set (w0 := if completed then unschedule id (set_loading w) else set_loading w).
  assert (consistent w0 ∧ World.db w0 = World.db w
          ∧ World.state w0 = World.state (set_loading w)) as (Hw0 & Hdb & Hstate0).
  { unfold w0. destruct completed; [|done].
    destruct (unschedule_frame id (set_loading w)) as (-> & _ & -> & _).
    split; [|done]. by apply unschedule_consistent. }
  rewrite Hdb. unfold db.markEventAsCompleted.
  destruct (updateEvent_keyed id (UpdateEvent.only_completed completed) now
              (World.db w) (consistent_keyed _ Hw))
    as (Hk & Hst & _ & Hext & Hwrites).
  destruct (db.updateEvent id _ now (World.db w)) as [s [[]|err]]; [|done].
  intros _. simpl in *.
  pose proof (refreshed_after_the_write_intro now w (World.with_db w0 s)) as Hintro.
  cbn [World.db World.state World.with_db] in Hintro. rewrite Hstate0 in Hintro.
  apply Hintro; [|done..].
  apply invalidateCache_consistent, consistent_with_db; [done..|].
  intros k. by rewrite Hdb, Hst.
Qed.
End mutations.

(** C6. [invalidateCache] leaves the cache empty. On a ready store, whatever
    the cache holds and however recent its entries are, each of [addEvent],
    [updateEvent], [deleteEvent] and [markEventAsCompleted] whose database
    call resolved ends refreshed after the write: the refresh sends the query
    of the view after the requests of the database call, the published list
    is the result of that query on the store the call left, and no entry
    remains in the cache but the one this refresh wrote. *)
Theorem mutations_empty_the_cache `{Runtime} (w : World.t) (now : Z) :
  World.cache (store.invalidateCache w) = ∅
  ∧ (consistent w → State.isDBReady (World.state w) = true →
     (∀ event,
        is_resolved (db.addEvent event now (World.db w)).2 = true →
        refreshed_after_the_write now w (db.addEvent event now (World.db w)).1
          (store.addEvent event now w).1)
     ∧ (∀ id updates,
        is_resolved (db.updateEvent id updates now (World.db w)).2 = true →
        refreshed_after_the_write now w (db.updateEvent id updates now (World.db w)).1
          (store.updateEvent id updates now w).1)
     ∧ (∀ id,
        is_resolved (db.deleteEvent id (World.db w)).2 = true
        ∧ refreshed_after_the_write now w (db.deleteEvent id (World.db w)).1
            (store.deleteEvent id now w).1)
     ∧ (∀ id completed,
        is_resolved (db.markEventAsCompleted id completed now (World.db w)).2 = true →
        refreshed_after_the_write now w
          (db.markEventAsCompleted id completed now (World.db w)).1
          (store.markEventAsCompleted id completed now w).1)).
Proof.
  split; [apply invalidateCache_empty|]. intros Hw Hready.
  split; [|split; [|split]].
  - intros event. by apply addEvent_written.
  - intros id updates. by apply updateEvent_written.
  - intros id. split; [done|]. by apply deleteEvent_written.
  - intros id completed. by apply markEventAsCompleted_written.
Qed.

(** C9, as the code has it. Deleting an id that the record store does not
    hold succeeds on a ready store: the database call resolves and keeps the
    records, no error is published, and the published list is read again from
    the record store. *)
Theorem deleting_an_absent_id_succeeds `{Runtime} (w : World.t) (id now : Z) :
  consistent w → State.isDBReady (World.state w) = true →
  ObjectStore.records (World.db w) !! id = None →
  let w' := (store.deleteEvent id now w).1 in
  (store.deleteEvent id now w).2 = Resolved ()
  ∧ (db.deleteEvent id (World.db w)).2 = Resolved ()
  ∧ ObjectStore.records (db.deleteEvent id (World.db w)).1
    = ObjectStore.records (World.db w)
  ∧ State.error (World.state w') = None
  ∧ State.loading (World.state w') = false
  ∧ State.events (World.state w') = reconciled now <$> fetched w
  ∧ refreshed_from_store now w w'.
Proof.
  intros Hw Hready Habsent. simpl.
  pose proof (deleteEvent_refreshed id now w Hw Hready) as Hrefreshed.
  assert (ObjectStore.records (db.deleteEvent id (World.db w)).1
          = ObjectStore.records (World.db w)) as Hsame.
  { simpl. by apply delete_id. }
  split; [|split; [done|split; [done|]]].
  { unfold store.deleteEvent. by rewrite Hready. }
  enough (State.error (World.state (store.deleteEvent id now w).1) = None
          ∧ State.loading (World.state (store.deleteEvent id now w).1) = false
          ∧ State.events (World.state (store.deleteEvent id now w).1)
            = reconciled now <$> fetched w) as (? & ? & ?) by done.
  clear Hrefreshed.
  destruct (deleteEvent_run id now w Hw Hready) as (Hmid & Hstate & ->).
  set (wmid := World.with_cache _ ∅) in *.
  assert (State.isDBReady (World.state wmid) = true) as Hreadymid
    by (by rewrite Hstate).
  assert (store.isCacheValid (store.cacheKey wmid) now wmid = false) as Hmiss
    by (unfold store.isCacheValid; simpl; by rewrite lookup_empty).
  rewrite (refreshEvents_miss now wmid Hreadymid Hmiss (consistent_keyed _ Hmid)).
  destruct (scheduleAll_frame (reconciled now <$> fetched wmid) now
              (World.with_db wmid (mark_each (past_due_ids now (fetched wmid)) now
                                     (issue (query wmid) (World.db wmid)))))
    as (_ & _ & Hstate').
  cbn [fst set_events store.updateCache World.state World.with_state World.with_cache
       State.error State.loading State.events].
  rewrite Hstate'. cbn [World.state World.with_db]. rewrite Hstate.
  split; [done|]. split; [done|].
  f_equal. unfold fetched, store.chosenDate.
  change (World.db wmid) with (db.deleteEvent id (World.db w)).1.
  by rewrite Hstate, Hsame.
Qed.

(** ** The store on a concrete run

    2025-01-09T08:00 UTC: the store is initialised and the event
    "Standup", of 2025-01-10 at 09:00, is added. *)

Definition t0 : Z := 1736409600000.

Definition w_ready : World.t :=
  @store.initializeStore utc.runtime (Resolved ()) t0 World.initial.

Definition w_added : World.t :=
  (@store.addEvent utc.runtime
     (CreateEvent.mk "Standup" "Daily" "2025-01-10" "09:00" 2) t0 w_ready).1.

Lemma reachable_w_ready : @reachable utc.runtime w_ready.
Proof.
  apply rtc_once. exact (step_initializeStore (Resolved ()) t0 World.initial).
Qed.

Lemma reachable_w_added : @reachable utc.runtime w_added.
Proof.
  eapply rtc_r; [exact reachable_w_ready|].
  exact (step_addEvent (CreateEvent.mk "Standup" "Daily" "2025-01-10" "09:00" 2)
                       t0 w_ready).
Qed.

Example w_added_published :
  State.events (World.state w_added)
  = [Event.mk 1 "Standup" "Daily" "2025-01-10" "09:00" 2 false
              "2025-01-09T08:00:00.000Z" None]
  ∧ World.timeouts w_added !! 1 = Some (Timeout.mk 1 t0 (Some 90000000))
  ∧ World.scheduledChecks w_added !! 1 = Some 1.
Proof. vm_compute. done. Qed.

(** C2, as the spec has it, fails for an event whose date and time are
    exactly [now]: the spec makes it a no-op, the code arms a timeout with
    delay 0. *)
Lemma scheduleEventCheck_at_its_time_counterexample :
  Event.completed standup = false
  ∧ @parseISO utc.runtime (Event.date standup +:+ "T" +:+ Event.time standup)
    = Some 1736499600000
  ∧ World.timeouts
      (@store.scheduleEventCheck utc.runtime standup 1736499600000 World.initial) !! 1
    = Some (Timeout.mk 1 1736499600000 (Some 0))
  ∧ @store.scheduleEventCheck utc.runtime standup 1736499600000 World.initial
    ≠ World.initial.
Proof.
  split; [done|]. split; [by vm_compute|]. split; [by vm_compute|].
  intros Heq. apply (f_equal World.nextTimeout) in Heq. vm_compute in Heq. done.
Qed.

(** A delay above 2147483647 ms is not one [setTimeout] keeps: up to
    4294967295 ms it wraps to a negative number, and the timeout is due at
    once. *)
Lemma due_of_a_wrapped_delay (x : Timeout.t) (d : Z) :
  Timeout.delay x = Some d → 2147483647 < d < 4294967296 →
  Timeout.due x = Timeout.armed_at x.
Proof.
  intros Hd Hrange. unfold Timeout.due, Timeout.kept, Timeout.ToInt32.
  rewrite Hd. simpl.
  replace (d + 2 ^ 31) with (d - 2 ^ 31 + 1 * 2 ^ 32) by lia.
  rewrite Z_mod_plus_full, Z.mod_small by lia. lia.
Qed.

(** An event thirty days ahead: its timeout is due when it is armed. *)
Definition congress : Event.t :=
  Event.mk 4 "Congress" "" "2025-02-08" "09:00" 3 false
           "2025-01-09T08:00:00.000Z" None.

Example scheduleEventCheck_thirty_days_ahead :
  World.timeouts (@store.scheduleEventCheck utc.runtime congress t0 World.initial) !! 1
  = Some (Timeout.mk 4 t0 (Some 2595600000))
  ∧ Timeout.due (Timeout.mk 4 t0 (Some 2595600000)) = t0.
Proof. split; by vm_compute. Qed.

Lemma scheduleEventCheck_arms_witness :
  let w' := @store.scheduleEventCheck utc.runtime standup t0 w_ready in
  let fired := @store.timeoutFires utc.runtime 1 1736499600000 w_added in
  (World.timeouts w' = <[1 := Timeout.mk 1 t0 (Some 90000000)]> (World.timeouts w_ready)
   ∧ Timeout.due (Timeout.mk 1 t0 (Some 90000000)) = 1736499600000
   ∧ World.scheduledChecks w' = <[1 := 1]> (World.scheduledChecks w_ready)
   ∧ World.nextTimeout w' = 2)
  ∧ (World.timeouts w_added !! 1 = Some (Timeout.mk 1 t0 (Some 90000000))
     ∧ (∃ r, ObjectStore.records (World.db fired) !! 1 = Some r
             ∧ Event.completed r = true)
     ∧ World.timeouts fired !! 1 = None
     ∧ World.scheduledChecks fired !! 1 = None).
Proof.
  intros w' fired.
  destruct (@scheduleEventCheck_arms_one_timeout utc.runtime standup t0 w_ready)
    as (_ & Harm & _).
  destruct (@scheduleEventCheck_arms_one_timeout utc.runtime standup t0 w_added)
    as (_ & _ & Hfire).
  assert (World.timeouts w_added !! 1 = Some (Timeout.mk 1 t0 (Some 90000000)))
    as Hpending by (by vm_compute).
  split.
  - destruct Harm as (Htimeouts & Hdue & Hchecks & Hnext & _).
    + reflexivity.
    + intros t. vm_compute. intros [= <-]. done.
    + split; [exact Htimeouts|]. split; [|split; [exact Hchecks|exact Hnext]].
      apply (Hdue 1736499600000); by vm_compute.
  - destruct (Hfire (@reachable_consistent utc.runtime _ reachable_w_added)
                1 _ 1736499600000 Hpending) as (_ & _ & Hdone & Hgone & Hreg).
    split; [exact Hpending|]. split; [exact Hdone|]. split; [exact Hgone|exact Hreg].
Defined.

Lemma at_most_one_timer_witness :
  @reachable utc.runtime w_added
  ∧ one_timer_per_event w_added
  ∧ World.timeouts (store.cleanup w_added) = ∅.
Proof.
  split; [exact reachable_w_added|].
  destruct (@at_most_one_timer_per_event utc.runtime w_added reachable_w_added)
    as (Hone & _ & _ & _ & Hclean & _).
  split; [exact Hone|exact Hclean].
Defined.

Lemma cache_entry_is_used_witness :
  let w1 := @store.fetchEvents utc.runtime (t0 + 6000) w_ready in
  let w2 := @store.fetchEvents utc.runtime (t0 + 7000) w1 in
  store.isCacheValid "all" (t0 + 6000) w_ready = false
  ∧ Forall (λ r, is_query r = false) (requests_since (World.db w1) (World.db w2))
  ∧ State.events (World.state w2)
    = @reconciled utc.runtime (t0 + 7000) <$> State.events (World.state w1).
Proof.
  intros w1 w2. split; [by vm_compute|].
  destruct (@cache_entry_is_used_within_ttl utc.runtime w_ready (t0 + 6000) (t0 + 7000))
    as [_ Hready].
  destruct Hready as [_ Htwo].
  - apply (@reachable_consistent utc.runtime), reachable_w_ready.
  - reflexivity.
  - destruct Htwo as [Hwithin _]; [by vm_compute|].
    apply Hwithin. unfold t0. lia.
Defined.

Lemma mutations_empty_the_cache_witness :
  let event := CreateEvent.mk "Standup" "Daily" "2025-01-10" "09:00" 2 in
  let record := Event.mk 1 "Standup" "Daily" "2025-01-10" "09:00" 2 false
                         "2025-01-09T08:00:00.000Z" None in
  @refreshed_after_the_write utc.runtime t0 w_ready
    (@db.addEvent utc.runtime event t0 (World.db w_ready)).1 w_added
  ∧ ObjectStore.requests (World.db w_added) = [StoreGetAll; StoreAdd record; StoreGetAll]
  ∧ State.events (World.state w_added) = [record]
  ∧ @refreshed_after_the_write utc.runtime (t0 + 1000) w_added
      (@db.markEventAsCompleted utc.runtime 1 true (t0 + 1000) (World.db w_added)).1
      (@store.markEventAsCompleted utc.runtime 1 true (t0 + 1000) w_added).1.
Proof.
  intros event record.
  destruct (@mutations_empty_the_cache utc.runtime w_ready t0) as [_ Hready].
  destruct (@mutations_empty_the_cache utc.runtime w_added (t0 + 1000)) as [_ Hadded].
  split; [|split; [|split]].
  - destruct Hready as (Hadd & _).
    + apply (@reachable_consistent utc.runtime), reachable_w_ready.
    + reflexivity.
    + apply (Hadd event). by vm_compute.
  - by vm_compute.
  - by vm_compute.
  - destruct Hadded as (_ & _ & _ & Hmark).
    + apply (@reachable_consistent utc.runtime), reachable_w_added.
    + reflexivity.
    + apply Hmark. by vm_compute.
Defined.

(** C9, as the spec has it, fails: deleting the id 99, which the store does
    not hold, is accepted by the database and publishes no error. *)
Lemma deleting_an_absent_id_counterexample :
  ObjectStore.records (World.db w_added) !! 99 = None
  ∧ (db.deleteEvent 99 (World.db w_added)).2 = Resolved ()
  ∧ (@store.deleteEvent utc.runtime 99 (t0 + 1000) w_added).2 = Resolved ()
  ∧ State.error (World.state (@store.deleteEvent utc.runtime 99 (t0 + 1000) w_added).1)
    = None.
Proof. vm_compute. done. Qed.

Lemma deleting_an_absent_id_witness :
  let w' := (@store.deleteEvent utc.runtime 99 (t0 + 1000) w_added).1 in
  (db.deleteEvent 99 (World.db w_added)).2 = Resolved ()
  ∧ State.error (World.state w') = None
  ∧ State.events (World.state w') = State.events (World.state w_added).
Proof.
  intros w'.
  destruct (@deleting_an_absent_id_succeeds utc.runtime w_added 99 (t0 + 1000))
    as (_ & Hdb & _ & Herror & _ & Hevents & _).
  - apply (@reachable_consistent utc.runtime), reachable_w_added.
  - reflexivity.
  - by vm_compute.
  - split; [exact Hdb|]. split; [exact Herror|].
    etrans; [exact Hevents|]. by vm_compute.
Defined.

(** * The rest of [database.ts] *)

(** ** The key generator and the priorities of a store *)

(** The key generator is ahead of every key in use. *)
Definition fresh_keys (s : ObjectStore.t) : Prop :=
  ∀ k, stored s k → k < ObjectStore.keygen s.

(** Every record has one of the three priorities. *)
Definition valid_priorities (s : ObjectStore.t) : Prop :=
  ∀ k e, ObjectStore.records s !! k = Some e → Event.priority e ∈ [1; 2; 3].

Record sound_store (s : ObjectStore.t) : Prop := {
  sound_keyed : keyed s;
  sound_fresh : fresh_keys s;
  sound_priorities : valid_priorities s;
}.

(** A key the generator has passed and that holds no record. *)
Definition retired (s : ObjectStore.t) (k : Z) : Prop :=
  k < ObjectStore.keygen s ∧ ¬ stored s k.

(** One call of a method of [EventDatabase]. *)
Inductive db_step `{Runtime} : ObjectStore.t → ObjectStore.t → Prop :=
  | db_getAllEvents s :
      db_step s (db.getAllEvents s).1
  | db_getEventsByDate date s :
      db_step s (db.getEventsByDate date s).1
  | db_getEventsByPriority priority s :
      db_step s (db.getEventsByPriority priority s).1
  | db_getEventsByDateRange startDate endDate s :
      db_step s (db.getEventsByDateRange startDate endDate s).1
  | db_addEvent event now s :
      db_step s (db.addEvent event now s).1
  | db_updateEvent id updates now s :
      db_step s (db.updateEvent id updates now s).1
  | db_deleteEvent id s :
      db_step s (db.deleteEvent id s).1
  | db_markEventAsCompleted id completed now s :
      db_step s (db.markEventAsCompleted id completed now s).1.

Lemma sound_store_created : sound_store ObjectStore.created.
Proof.
  split.
  - intros k e. unfold ObjectStore.created. simpl. by rewrite lookup_empty.
  - intros k [e He]. unfold ObjectStore.created in He. simpl in He.
    by rewrite lookup_empty in He.
  - intros k e. unfold ObjectStore.created. simpl. by rewrite lookup_empty.
Qed.

Lemma sound_store_issue (r : Request) (s : ObjectStore.t) :
  sound_store s → sound_store (issue r s).
Proof. intros [Hk Hf Hp]. by split. Qed.

Lemma fresh_keys_free (s : ObjectStore.t) :
  fresh_keys s → ObjectStore.records s !! ObjectStore.keygen s = None.
Proof.
  intros Hfresh.
  destruct (ObjectStore.records s !! ObjectStore.keygen s) as [e|] eqn:He; [|done].
  assert (stored s (ObjectStore.keygen s)) as Hlt%Hfresh by by exists e.
  lia.
Qed.

Section database.
Context `{Runtime}.

(** [addEvent] on a store whose generator is ahead of its keys. *)
Lemma addEvent_fresh (event : CreateEvent.t) (now : Z) (s : ObjectStore.t) :
  fresh_keys s → CreateEvent.priority event ∈ [1; 2; 3] →
  let key := ObjectStore.keygen s in
  let record :=
    Event.mk key (CreateEvent.title event) (CreateEvent.description event)
             (CreateEvent.date event) (CreateEvent.time event)
             (CreateEvent.priority event) false (toISOString now) None in
  db.addEvent event now s
  = (ObjectStore.mk (<[key := record]> (ObjectStore.records s)) (key + 1)
                    (ObjectStore.requests s ++ [StoreAdd record]),
     Resolved key).
Proof.
  intros Hfresh Hp. unfold db.addEvent.
  rewrite validatePriority_spec, decide_True by done.
  cbv zeta. unfold issue at 1. cbn [ObjectStore.records].
  by rewrite (fresh_keys_free s Hfresh).
Qed.

Lemma addEvent_rejected (event : CreateEvent.t) (now : Z) (s : ObjectStore.t)
    (e : Err.t) :
  (db.addEvent event now s).2 = Rejected e →
  ObjectStore.records (db.addEvent event now s).1 = ObjectStore.records s
  ∧ ObjectStore.keygen (db.addEvent event now s).1 = ObjectStore.keygen s.
Proof.
  unfold db.addEvent. destruct (db.validatePriority _); [|done].
  simpl. destruct (ObjectStore.records s !! ObjectStore.keygen s); simpl; done.
Qed.

(** The outcomes of [updateEvent]. *)
Lemma updateEvent_cases (id : Z) (updates : UpdateEvent.t) (now : Z)
    (s : ObjectStore.t) :
  (∃ p, UpdateEvent.priority updates = Some p ∧ (p ∉ [1; 2; 3])
        ∧ db.updateEvent id updates now s = (s, Rejected (InvalidPriorityError p)))
  ∨ (typed_update updates ∧ ObjectStore.records s !! id = None
     ∧ db.updateEvent id updates now s
       = (issue (StoreGet id) s, Rejected (Error "Evento não encontrado")))
  ∨ (∃ event, typed_update updates ∧ ObjectStore.records s !! id = Some event
       ∧ db.needsUpdate updates event = false
       ∧ db.updateEvent id updates now s = (issue (StoreGet id) s, Resolved ()))
  ∨ (∃ event, typed_update updates ∧ ObjectStore.records s !! id = Some event
       ∧ db.needsUpdate updates event = true
       ∧ db.updateEvent id updates now s
         = (put (db.updatedEvent event updates now)
                (issue (StorePut (db.updatedEvent event updates now))
                       (issue (StoreGet id) s)),
            Resolved ())).
Proof.
  unfold db.updateEvent, typed_update.
  destruct (UpdateEvent.priority updates) as [p|] eqn:Hp; simpl.
  - rewrite validatePriority_spec. destruct (decide (p ∈ [1; 2; 3])) as [Hin|Hin].
    + right. destruct (ObjectStore.records s !! id) as [event|] eqn:Hid.
      * right. destruct (db.needsUpdate updates event) eqn:Hn.
        -- right. exists event. split; [by intros ? [= <-]|]. done.
        -- left. exists event. split; [by intros ? [= <-]|]. done.
      * left. split; [by intros ? [= <-]|]. done.
    + left. by exists p.
  - right. destruct (ObjectStore.records s !! id) as [event|] eqn:Hid.
    + right. destruct (db.needsUpdate updates event) eqn:Hn.
      * right. by exists event.
      * left. by exists event.
    + left. done.
Qed.

Lemma differs_false {A} `{EqDecision A} (value : option A) (current : A) :
  db.differs value current = false → current = default current value.
Proof.
  destruct value as [v|]; simpl; [|done].
  intros Hd. apply bool_decide_eq_false in Hd. by apply dec_stable in Hd.
Qed.

Lemma updatedEvent_priority (event : Event.t) (updates : UpdateEvent.t) (now : Z) :
  typed_update updates → Event.priority event ∈ [1; 2; 3] →
  Event.priority (db.updatedEvent event updates now) ∈ [1; 2; 3].
Proof.
  intros Htyped Hp. simpl.
  destruct (UpdateEvent.priority updates) as [p|] eqn:Hup; simpl; [|done].
  by apply Htyped.
Qed.

(** What one call keeps and what it cannot undo. *)
Lemma db_step_sound (s s' : ObjectStore.t) :
  db_step s s' → sound_store s →
  sound_store s'
  ∧ ObjectStore.keygen s ≤ ObjectStore.keygen s'
  ∧ ∀ k, retired s k → retired s' k.
Proof.
  assert (∀ r s, sound_store s →
            sound_store (issue r s)
            ∧ ObjectStore.keygen s ≤ ObjectStore.keygen (issue r s)
            ∧ ∀ k, retired s k → retired (issue r s) k) as Hissue.
  { intros r s0 Hs. split; [by apply sound_store_issue|]. split; [done|]. done. }
  assert (∀ id updates now s, sound_store s →
            sound_store (db.updateEvent id updates now s).1
            ∧ ObjectStore.keygen s ≤ ObjectStore.keygen (db.updateEvent id updates now s).1
            ∧ ∀ k, retired s k → retired (db.updateEvent id updates now s).1 k)
    as Hupdate.
  { intros id updates now s0 Hs.
    destruct (updateEvent_cases id updates now s0)
      as [(p & _ & _ & ->)|[(_ & _ & ->)|[(event & _ & _ & _ & ->)
          |(event & Htyped & Hid & _ & ->)]]]; simpl;
      [done|by apply Hissue..|].
    destruct Hs as [Hk Hf Hp].
    pose proof (Hk _ _ Hid) as Heq.
    assert (id < ObjectStore.keygen s0) as Hlt by (apply Hf; by exists event).
    split; [split|split].
    - intros k e. simpl. rewrite Heq.
      intros [[<- <-]|[Hne Hke]]%lookup_insert_Some; [done|]. by apply Hk.
    - intros k [e Hke]. simpl in *. rewrite Heq in Hke.
      apply lookup_insert_Some in Hke as [[<- <-]|[Hne Hke]]; [lia|].
      assert (k < ObjectStore.keygen s0) by (apply Hf; by exists e). lia.
    - intros k e. simpl. rewrite Heq.
      intros [[<- <-]|[Hne Hke]]%lookup_insert_Some.
      + apply updatedEvent_priority; [done|]. by eapply Hp.
      + by eapply Hp.
    - simpl. lia.
    - intros k [Hlt' Hnot]. split; [simpl; lia|].
      intros [e Hke]. simpl in Hke. rewrite Heq in Hke.
      apply lookup_insert_Some in Hke as [[<- <-]|[Hne Hke]].
      + apply Hnot. by exists event.
      + apply Hnot. by exists e. }
  destruct 1 as [s|date s|priority s|startDate endDate s|event now s
                 |id updates now s|id s|id completed now s]; intros Hs.
  - by apply Hissue.
  - by apply Hissue.
  - unfold db.getEventsByPriority. destruct (db.validatePriority priority); simpl.
    + by apply Hissue.
    + done.
  - by apply Hissue.
  - destruct (db.addEvent event now s) as [s' [key|err]] eqn:Hadd.
    + unfold db.addEvent in Hadd.
      destruct (db.validatePriority (CreateEvent.priority event)) as [[]|] eqn:Hv;
        [|done].
      rewrite validatePriority_spec in Hv.
      destruct (decide (CreateEvent.priority event ∈ [1; 2; 3])) as [Hin|]; [|done].
      cbv zeta in Hadd. unfold issue at 1 in Hadd. cbn [ObjectStore.records] in Hadd.
      destruct (ObjectStore.records s !! ObjectStore.keygen s) eqn:Hfree; [done|].
      injection Hadd as <- <-. simpl. destruct Hs as [Hk Hf Hp].
      split; [split|split].
      * intros k e. simpl.
        intros [[<- <-]|[Hne Hke]]%lookup_insert_Some; [done|]. by apply Hk.
      * intros k [e Hke]. simpl in *.
        apply lookup_insert_Some in Hke as [[<- <-]|[Hne Hke]]; [lia|].
        assert (k < ObjectStore.keygen s) by (apply Hf; by exists e). lia.
      * intros k e. simpl.
        intros [[<- <-]|[Hne Hke]]%lookup_insert_Some; [done|]. by eapply Hp.
      * lia.
      * intros k [Hlt Hnot]. split; [simpl; lia|].
        intros [e Hke]. simpl in Hke.
        apply lookup_insert_Some in Hke as [[<- <-]|[Hne Hke]]; [lia|].
        apply Hnot. by exists e.
    + pose proof (addEvent_rejected event now s err) as Hrej.
      rewrite Hadd in Hrej. simpl in *. destruct Hrej as [Hrec Hgen]; [done|].
      destruct Hs as [Hk Hf Hp]. unfold retired, stored, fresh_keys, stored.
      split; [split|].
      * intros k e. rewrite Hrec. apply Hk.
      * intros k. unfold stored. rewrite Hrec, Hgen. apply Hf.
      * intros k e. rewrite Hrec. apply Hp.
      * rewrite Hrec, Hgen. split; [lia|done].
  - by apply Hupdate.
  - unfold db.deleteEvent. simpl. destruct Hs as [Hk Hf Hp].
    split; [split|split].
    + intros k e. simpl. intros [_ Hke]%lookup_delete_Some. by apply Hk.
    + intros k [e Hke]. simpl in *. apply lookup_delete_Some in Hke as [_ Hke].
      apply Hf. by exists e.
    + intros k e. simpl. intros [_ Hke]%lookup_delete_Some. by eapply Hp.
    + done.
    + intros k [Hlt Hnot]. split; [done|]. intros [e Hke]. simpl in Hke.
      apply lookup_delete_Some in Hke as [_ Hke]. apply Hnot. by exists e.
  - by apply Hupdate.
Qed.

Lemma db_steps_sound (s s' : ObjectStore.t) :
  rtc db_step s s' → sound_store s →
  sound_store s'
  ∧ ObjectStore.keygen s ≤ ObjectStore.keygen s'
  ∧ ∀ k, retired s k → retired s' k.
Proof.
  induction 1 as [s|s1 s2 s3 Hstep _ IH]; intros Hs.
  - split; [done|]. split; [lia|done].
  - destruct (db_step_sound s1 s2 Hstep Hs) as (Hs2 & Hle & Hret).
    destruct (IH Hs2) as (Hs3 & Hle' & Hret').
    split; [done|]. split; [lia|]. eauto.
Qed.
End database.

(** ** [addEvent], [updateEvent] and [deleteEvent] on the records *)

(** X1. On a store whose key generator is ahead of its keys, [addEvent] of an
    event with a priority of 1, 2 or 3 resolves to the generator's key, which
    held nothing; the record stored under it has the event's fields, is not
    completed, was created now and never updated; the other records are
    kept, the only request is the [add], the generator moves by one, and
    [getAllEvents] lists the record. *)
Theorem addEvent_stores_the_new_record `{Runtime}
    (event : CreateEvent.t) (now : Z) (s : ObjectStore.t) :
  fresh_keys s → CreateEvent.priority event ∈ [1; 2; 3] →
  let key := ObjectStore.keygen s in
  let record :=
    Event.mk key (CreateEvent.title event) (CreateEvent.description event)
             (CreateEvent.date event) (CreateEvent.time event)
             (CreateEvent.priority event) false (toISOString now) None in
  let s' := (db.addEvent event now s).1 in
  (db.addEvent event now s).2 = Resolved key
  ∧ ObjectStore.records s !! key = None
  ∧ ObjectStore.records s' !! key = Some record
  ∧ (∀ k, k ≠ key → ObjectStore.records s' !! k = ObjectStore.records s !! k)
  ∧ ObjectStore.requests s' = ObjectStore.requests s ++ [StoreAdd record]
  ∧ ObjectStore.keygen s' = key + 1
  ∧ fresh_keys s'
  ∧ ∃ l, (db.getAllEvents s').2 = Resolved l ∧ record ∈ l.
Proof.
  intros Hfresh Hp key record s'. subst s'.
  rewrite (addEvent_fresh event now s Hfresh Hp). fold key. fold record. simpl.
  split; [done|]. split; [by apply fresh_keys_free|].
  split; [apply lookup_insert_eq|].
  split; [by intros k Hne; apply lookup_insert_ne|].
  split; [done|]. split; [done|]. split.
  - intros k [e He]. simpl in *.
    apply lookup_insert_Some in He as [[<- <-]|[Hne He]]; [lia|].
    assert (k < ObjectStore.keygen s) by (apply Hfresh; by exists e). fold key in H0.
    lia.
  - eexists. split; [done|]. rewrite elem_of_sort, elem_of_in_key_order.
    exists key. apply lookup_insert_eq.
Qed.

(** X2. [updateEvent] of a stored record with a typed update resolves, and
    the record then stored under the id has, field by field, the value the
    update gives or else the value it had; its id and [created_at] are kept,
    and so is every other record. *)
Theorem updateEvent_merges_the_fields `{Runtime}
    (s : ObjectStore.t) (id : Z) (event : Event.t) (updates : UpdateEvent.t)
    (now : Z) :
  ObjectStore.records s !! id = Some event →
  Event.id event = id →
  typed_update updates →
  let s' := (db.updateEvent id updates now s).1 in
  (db.updateEvent id updates now s).2 = Resolved ()
  ∧ (∃ record,
       ObjectStore.records s' !! id = Some record
       ∧ Event.id record = id
       ∧ Event.created_at record = Event.created_at event
       ∧ Event.title record = default (Event.title event) (UpdateEvent.title updates)
       ∧ Event.description record
         = default (Event.description event) (UpdateEvent.description updates)
       ∧ Event.date record = default (Event.date event) (UpdateEvent.date updates)
       ∧ Event.time record = default (Event.time event) (UpdateEvent.time updates)
       ∧ Event.priority record
         = default (Event.priority event) (UpdateEvent.priority updates)
       ∧ Event.completed record
         = default (Event.completed event) (UpdateEvent.completed updates))
  ∧ ∀ k, k ≠ id → ObjectStore.records s' !! k = ObjectStore.records s !! k.
Proof.
  intros Hid Heq Htyped s'. subst s'.
  destruct (updateEvent_cases id updates now s)
    as [(p & Hp & Hnot & _)|[(_ & Hnone & _)|[(e & _ & He & Hn & ->)
        |(e & _ & He & Hn & ->)]]].
  - destruct Hnot. by apply Htyped.
  - congruence.
  - assert (e = event) as -> by congruence. simpl.
    split; [done|]. split; [|done]. exists event.
    split; [done|]. split; [done|]. split; [done|].
    unfold db.needsUpdate in Hn. rewrite !orb_false_iff in Hn.
    destruct Hn as (((((H1 & H2) & H3) & H4) & H5) & H6).
    by repeat split; apply differs_false.
  - assert (e = event) as -> by congruence. simpl.
    split; [done|]. rewrite Heq. split.
    + eexists. split; [apply lookup_insert_eq|]. simpl. done.
    + intros k Hne. by apply lookup_insert_ne.
Qed.

(** X3. After [deleteEvent] the id holds no record and every other record is
    kept; the key generator does not move; deleting again changes no record;
    an [updateEvent] of the id is rejected with 'Evento não encontrado', and
    [getAllEvents] lists no event of that id. *)
Theorem deleteEvent_removes_the_record `{Runtime}
    (s : ObjectStore.t) (id : Z) (updates : UpdateEvent.t) (now : Z) :
  let s' := (db.deleteEvent id s).1 in
  ObjectStore.records s' !! id = None
  ∧ (∀ k, k ≠ id → ObjectStore.records s' !! k = ObjectStore.records s !! k)
  ∧ ObjectStore.keygen s' = ObjectStore.keygen s
  ∧ ObjectStore.requests s' = ObjectStore.requests s ++ [StoreDelete id]
  ∧ ObjectStore.records (db.deleteEvent id s').1 = ObjectStore.records s'
  ∧ (typed_update updates →
     (db.updateEvent id updates now s').2 = Rejected (Error "Evento não encontrado"))
  ∧ (keyed s →
     ∀ l e, (db.getAllEvents s').2 = Resolved l → e ∈ l → Event.id e ≠ id).
Proof.
  intros s'.
  assert (ObjectStore.records s' = delete id (ObjectStore.records s)) as Hrec by done.
  split; [rewrite Hrec; apply lookup_delete_eq|].
  split; [by intros k Hne; rewrite Hrec; apply lookup_delete_ne|].
  split; [done|]. split; [done|]. split; [|split].
  - change (delete id (ObjectStore.records s') = ObjectStore.records s').
    apply delete_id. rewrite Hrec. apply lookup_delete_eq.
  - intros Htyped.
    destruct (updateEvent_cases id updates now s')
      as [(p & Hp & Hnot & _)|[(_ & _ & ->)|[(e & _ & He & _)|(e & _ & He & _)]]].
    + destruct Hnot. by apply Htyped.
    + done.
    + by rewrite Hrec, lookup_delete_eq in He.
    + by rewrite Hrec, lookup_delete_eq in He.
  - intros Hkeyed l e [= <-].
    rewrite elem_of_sort, elem_of_in_key_order.
    intros [k Hk]. change (ObjectStore.records s' !! k = Some e) in Hk.
    rewrite Hrec in Hk. apply lookup_delete_Some in Hk as [Hne Hk].
    by rewrite (Hkeyed _ _ Hk).
Qed.

(** X4. No call of a method of [EventDatabase], and no sequence of calls,
    breaks a store in which every record is stored under its id, the key
    generator is ahead of every key and every priority is 1, 2 or 3; the key
    generator never goes back, and a key it has passed that holds no record
    never holds one again: an id is not given twice. *)
Theorem database_calls_keep_the_store_sound `{Runtime} (s s' : ObjectStore.t) :
  rtc db_step s s' → sound_store s →
  sound_store s'
  ∧ ObjectStore.keygen s ≤ ObjectStore.keygen s'
  ∧ (∀ k, retired s k → retired s' k)
  ∧ ∀ event now, CreateEvent.priority event ∈ [1; 2; 3] →
      (db.addEvent event now s').2 = Resolved (ObjectStore.keygen s')
      ∧ ¬ stored s (ObjectStore.keygen s')
      ∧ ¬ retired s (ObjectStore.keygen s').
Proof.
  intros Hsteps Hs.
  destruct (db_steps_sound s s' Hsteps Hs) as (Hs' & Hle & Hret).
  split; [done|]. split; [done|]. split; [done|].
  intros event now Hp.
  rewrite (addEvent_fresh event now s' (sound_fresh _ Hs') Hp). simpl.
  split; [done|]. split.
  - intros Hst%(sound_fresh _ Hs). lia.
  - intros [Hlt _]. lia.
Qed.

(** ** [getEventsByDateRange] and [getPriorityText] *)

Lemma leb_str_le (s t : string) : String.leb s t = true ↔ str_le s t.
Proof. unfold String.leb, str_le. by destruct (String.compare s t). Qed.

Lemma str_lt_not_le (s t : string) : str_lt s t → ¬ str_le t s.
Proof.
  unfold str_lt, str_le. rewrite (String.compare_antisym s t).
  destruct (String.compare t s); naive_solver.
Qed.

(** X5. [getEventsByDateRange] sends the one request of [getAllEvents] and
    resolves to the events of that list, in its order, whose date is between
    the two bounds, both included, in the order of the code units; to nothing
    when the end is before the start; and, when the two bounds are one date,
    to the events [getEventsByDate] resolves to for it. *)
Theorem getEventsByDateRange_is_the_range `{Runtime}
    (startDate endDate : string) (s : ObjectStore.t) :
  ∃ all l,
    (db.getAllEvents s).2 = Resolved all
    ∧ db.getEventsByDateRange startDate endDate s = (issue StoreGetAll s, Resolved l)
    ∧ l `sublist_of` all
    ∧ (∀ e, e ∈ l ↔ (∃ k, ObjectStore.records s !! k = Some e)
                    ∧ str_le startDate (Event.date e)
                    ∧ str_le (Event.date e) endDate)
    ∧ (str_lt endDate startDate → l = [])
    ∧ (startDate = endDate →
       ∃ l', (db.getEventsByDate startDate s).2 = Resolved l' ∧ l ≡ₚ l').
Proof.
  eexists _, _. split; [done|]. split; [done|].
  set (all := sort db.by_date_time _).
  set (within := λ event : Event.t,
         Is_true (String.leb startDate (Event.date event)
                  && String.leb (Event.date event) endDate)).
  assert (∀ e, within e ↔ str_le startDate (Event.date e)
                          ∧ str_le (Event.date e) endDate) as Hwithin.
  { intros e. unfold within. by rewrite andb_True, !Is_true_true, !leb_str_le. }
  split; [apply sublist_filter|]. split; [|split].
  - intros e. rewrite list_elem_of_filter, Hwithin. unfold all.
    rewrite elem_of_sort, elem_of_in_key_order. simpl. tauto.
  - intros Hlt. apply elem_of_nil_inv. intros e.
    rewrite list_elem_of_filter, Hwithin. intros [[H1 H2] _].
    by apply (str_lt_not_le endDate startDate), (str_le_trans _ (Event.date e)).
  - intros <-. eexists. split; [done|].
    rewrite sort_perm. unfold all. rewrite sort_perm.
    erewrite list_filter_iff; [done|]. intros e. simpl. rewrite Hwithin.
    split; [|by intros ->; split; intros H0; by rewrite string_compare_refl in H0].
    intros [H1 H2]. symmetry. apply string_compare_eq.
    destruct (String.compare startDate (Event.date e)) eqn:Hc; [done|..].
    + destruct (str_lt_not_le _ _ Hc H2).
    + by destruct H1.
Qed.

Lemma getPriorityText_spec (p : Z) :
  getPriorityText p
  = if decide (p = 1) then Resolved "Pouco importante"
    else if decide (p = 2) then Resolved "Razoavelmente importante"
    else if decide (p = 3) then Resolved "Muito importante"
    else Rejected (InvalidPriorityError p).
Proof.
  destruct p as [|[[q|q|]|[q|q|]|]|q]; try done.
Qed.

(** X6. [getPriorityText] gives a text exactly for the priorities
    [validatePriority] accepts, and otherwise throws the error
    [validatePriority] throws; two priorities with the same text are the
    same priority. *)
Theorem getPriorityText_accepts_what_validatePriority_accepts (p q : Z) :
  (p ∈ [1; 2; 3] ↔ ∃ text, getPriorityText p = Resolved text)
  ∧ is_resolved (getPriorityText p) = is_resolved (db.validatePriority p)
  ∧ (∀ e, getPriorityText p = Rejected e ↔ db.validatePriority p = Rejected e)
  ∧ (∀ text, getPriorityText p = Resolved text → getPriorityText q = Resolved text →
             p = q).
Proof.
  assert (p ∈ [1; 2; 3] ↔ p = 1 ∨ p = 2 ∨ p = 3) as Hin by set_solver.
  rewrite !getPriorityText_spec, validatePriority_spec.
  destruct (decide (p ∈ [1; 2; 3])) as [Hp|Hp].
  - pose proof Hp as Hp'. apply Hin in Hp' as [->|[->| ->]]; simpl.
    all: split; [split; [eauto|done]|]; split; [done|];
      split; [intros e; split; intros [=]|].
    all: intros text [= <-]; repeat case_decide; by try subst q.
  - assert (p ≠ 1 ∧ p ≠ 2 ∧ p ≠ 3) as (H1 & H2 & H3) by set_solver.
    rewrite !decide_False by done. generalize (InvalidPriorityError p). intros err.
    split; [|split; [reflexivity|split]].
    + split; [done|]. intros [text Htext]. discriminate.
    + intros e. split; intros [= <-]; reflexivity.
    + intros text Htext. discriminate.
Qed.

(** * The rest of [eventStore.ts] *)

(** ** What the store does to the database *)

Section store_database.
Context `{Runtime}.

Lemma mark_each_steps (ids : list Z) (now : Z) (s : ObjectStore.t) :
  rtc db_step s (mark_each ids now s).
Proof.
  revert s. induction ids as [|id ids IH]; intros s; simpl; [done|].
  eapply rtc_l; [|apply IH]. apply db_markEventAsCompleted.
Qed.

Lemma refreshEvents_db_steps (now : Z) (w : World.t) :
  rtc db_step (World.db w) (World.db (store.refreshEvents now w).1).
Proof.
  unfold store.refreshEvents.
  destruct (negb _); [done|].
  destruct (store.isCacheValid _ now w).
  - destruct (World.cache w !! store.cacheKey w) as [entry|]; [|done].
    pose proof (checkAndUpdatePastEvents_store (CacheEntry.events entry) now
                  (World.db w)) as Hs.
    destruct (store.checkAndUpdatePastEvents _ now (World.db w)) as [s [l|e]];
      simpl in *; subst s; apply mark_each_steps.
  - assert (∃ q l,
              match store.chosenDate w with
              | Some selectedDate => db.getEventsByDate selectedDate (World.db w)
              | None => db.getAllEvents (World.db w)
              end = (issue q (World.db w), Resolved l)
              ∧ db_step (World.db w) (issue q (World.db w))) as (q & l & -> & Hq).
    { destruct (store.chosenDate w) as [d|].
      - eexists _, _. split; [done|]. apply (db_getEventsByDate d).
      - eexists _, _. split; [done|]. apply db_getAllEvents. }
    eapply rtc_l; [exact Hq|].
    pose proof (checkAndUpdatePastEvents_store l now (issue q (World.db w))) as Hs.
    destruct (store.checkAndUpdatePastEvents l now _) as [s [l'|e]];
      cbn [fst snd] in *; subst s.
    + pose proof (proj1 (scheduleAll_frame l' now
        (World.with_db w (mark_each (past_due_ids now l) now (issue q (World.db w))))))
        as Hdb.
      unfold scheduleAll in Hdb. unfold set_events, store.updateCache.
      cbn [World.db World.with_state World.with_cache]. rewrite Hdb.
      apply mark_each_steps.
    + apply mark_each_steps.
Qed.

Lemma refreshed_db (now : Z) (w : World.t) :
  World.db (store.refreshed now w) = World.db (store.refreshEvents now w).1.
Proof. unfold store.refreshed. by destruct (store.refreshEvents now w) as [w' [[]|e]]. Qed.

Lemma refreshed_db_steps (now : Z) (w : World.t) :
  rtc db_step (World.db w) (World.db (store.refreshed now w)).
Proof. rewrite refreshed_db. apply refreshEvents_db_steps. Qed.

Lemma unschedule_db (id : Z) (w : World.t) : World.db (unschedule id w) = World.db w.
Proof. apply unschedule_frame. Qed.

Lemma cleanup_db (w : World.t) : World.db (store.cleanup w) = World.db w.
Proof. unfold store.cleanup. by rewrite clearTimeout_each. Qed.

Ltac by_refresh :=
  cbv zeta;
  lazymatch goal with
  | |- rtc db_step _ (World.db (store.refreshed ?n ?x)) =>
      exact (refreshed_db_steps n x)
  | |- rtc db_step _ (World.db (store.refreshEvents ?n ?x).1) =>
      exact (refreshEvents_db_steps n x)
  end.

(** The database only changes by calls of its methods. *)
Lemma step_db_steps (w w' : World.t) :
  step w w' → rtc db_step (World.db w) (World.db w').
Proof.
  destruct 1 as [opened now w|date now w|now w|date now w|event now w
                 |id updates now w|id now w|id completed now w|w|w|w
                 |handle timeout now w Hh Hdue].
  - unfold store.initializeStore. destruct opened; [|done].
    by_refresh.
  - unfold store.setSelectedDate. by_refresh.
  - unfold store.fetchEvents. destruct (negb _); [done|].
    by_refresh.
  - unfold store.fetchEventsByDate. destruct (negb _); [done|].
    by_refresh.
  - unfold store.addEvent. destruct (negb _); [done|].
    change (World.db (set_loading w)) with (World.db w).
    pose proof (db_addEvent event now (World.db w)) as Hstep.
    destruct (db.addEvent event now (World.db w)) as [s [key|e]]; simpl in *.
    + eapply rtc_l; [exact Hstep|].
      by_refresh.
    + by apply rtc_once.
  - unfold store.updateEvent. destruct (negb _); [done|].
    change (World.db (set_loading w)) with (World.db w).
    pose proof (db_updateEvent id updates now (World.db w)) as Hstep.
    destruct (db.updateEvent id updates now (World.db w)) as [s [[]|e]]; simpl in *.
    + eapply rtc_l; [exact Hstep|].
      etrans; [|apply refreshed_db_steps]. simpl. by rewrite unschedule_db.
    + by apply rtc_once.
  - unfold store.deleteEvent. destruct (negb _); [done|].
    rewrite unschedule_db. change (World.db (set_loading w)) with (World.db w).
    eapply rtc_l; [apply (db_deleteEvent id)|].
    unfold db.deleteEvent. cbn [fst snd]. by_refresh.
  - unfold store.markEventAsCompleted. destruct (negb _); [done|].
    assert (World.db (if completed then unschedule id (set_loading w)
                      else set_loading w) = World.db w) as ->.
    { destruct completed; [by rewrite unschedule_db|done]. }
    pose proof (db_markEventAsCompleted id completed now (World.db w)) as Hstep.
    destruct (db.markEventAsCompleted id completed now (World.db w)) as [s [[]|e]];
      simpl in *.
    + eapply rtc_l; [exact Hstep|].
      by_refresh.
    + by apply rtc_once.
  - done.
  - done.
  - by rewrite cleanup_db.
  - unfold store.timeoutFires. rewrite Hh.
    change (World.db (clearTimeout handle w)) with (World.db w).
    pose proof (db_markEventAsCompleted (Timeout.event timeout) true now (World.db w))
      as Hstep.
    destruct (db.markEventAsCompleted _ true now (World.db w)) as [s [[]|e]];
      simpl in *.
    + eapply rtc_l; [exact Hstep|].
      pose proof (refreshEvents_db_steps now
                    (World.with_db (clearTimeout handle w) s)) as Hsteps.
      destruct (store.refreshEvents now _) as [w' [[]|e]]; simpl in *; done.
    + by apply rtc_once.
Qed.

Lemma reachable_db_steps (w : World.t) :
  reachable w → rtc db_step ObjectStore.created (World.db w).
Proof.
  unfold reachable. revert w. apply rtc_ind_r; [done|].
  intros w1 w2 _ Hstep Hw1. etrans; [exact Hw1|]. by apply step_db_steps.
Qed.

Lemma reachable_sound_store (w : World.t) : reachable w → sound_store (World.db w).
Proof.
  intros Hw%reachable_db_steps.
  by apply (db_steps_sound _ _ Hw sound_store_created).
Qed.
End store_database.

(** ** What the store keeps between two operations *)

(** A list the view can render: no two events share an id, the key of the
    list items, and every priority has a text. *)
Definition presentable (l : list Event.t) : Prop :=
  NoDup (Event.id <$> l) ∧ Forall (λ e, Event.priority e ∈ [1; 2; 3]) l.

(** The timeout was armed for the date and the time its record has: its
    delay is the distance from the arming to them, and is not negative. *)
Definition timed `{Runtime} (s : ObjectStore.t) (t : Timeout.t) : Prop :=
  ∃ r, ObjectStore.records s !! Timeout.event t = Some r
       ∧ Timeout.delay t
         = (λ x, x - Timeout.armed_at t)
           <$> parseISO (Event.date r +:+ "T" +:+ Event.time r)
       ∧ ∀ d, Timeout.delay t = Some d → 0 ≤ d.

(** Every record of [s] is in [s'] with the same date and time. *)
Definition keeps_times (s s' : ObjectStore.t) : Prop :=
  ∀ k r, ObjectStore.records s !! k = Some r →
    ∃ r', ObjectStore.records s' !! k = Some r'
          ∧ Event.date r' = Event.date r ∧ Event.time r' = Event.time r.

Record steady `{Runtime} (w : World.t) : Prop := {
  steady_store : sound_store (World.db w);
  (** the published list can be rendered *)
  steady_published : presentable (State.events (World.state w));
  (** and so can every cached list *)
  steady_cached : ∀ key entry,
    World.cache w !! key = Some entry → presentable (CacheEntry.events entry);
  (** no handle in [scheduledChecks] is one the browser has yet to give *)
  steady_handles : ∀ k h,
    World.scheduledChecks w !! k = Some h → h < World.nextTimeout w;
  (** a handle in [scheduledChecks] under an id is of a timeout for that id *)
  steady_owner : ∀ k h t,
    World.scheduledChecks w !! k = Some h → World.timeouts w !! h = Some t →
    Timeout.event t = k;
  (** a pending timeout is due at the date and time of its record *)
  steady_timed : ∀ h t, World.timeouts w !! h = Some t → timed (World.db w) t;
}.

Section steady.
Context `{Runtime}.

Lemma keeps_times_refl (s : ObjectStore.t) : keeps_times s s.
Proof. intros k r Hr. by exists r. Qed.

Lemma keeps_times_trans (s1 s2 s3 : ObjectStore.t) :
  keeps_times s1 s2 → keeps_times s2 s3 → keeps_times s1 s3.
Proof.
  intros H12 H23 k r Hr.
  destruct (H12 k r Hr) as (r2 & Hr2 & Hd2 & Ht2).
  destruct (H23 k r2 Hr2) as (r3 & Hr3 & Hd3 & Ht3).
  exists r3. split; [done|]. split; congruence.
Qed.

Lemma timed_keeps (s s' : ObjectStore.t) (t : Timeout.t) :
  keeps_times s s' → timed s t → timed s' t.
Proof.
  intros Hkeeps (r & Hr & Hdelay & Hpos).
  destruct (Hkeeps _ _ Hr) as (r' & Hr' & Hd & Ht).
  exists r'. by rewrite Hd, Ht.
Qed.

Lemma markEventAsCompleted_keeps_times (id : Z) (completed : bool) (now : Z)
    (s : ObjectStore.t) :
  keyed s → keeps_times s (db.markEventAsCompleted id completed now s).1.
Proof.
  intros Hkeyed k r Hr. unfold db.markEventAsCompleted.
  destruct (updateEvent_cases id (UpdateEvent.only_completed completed) now s)
    as [(p & Hp & _)|[(_ & _ & ->)|[(e & _ & _ & _ & ->)|(e & _ & He & _ & ->)]]].
  - done.
  - by exists r.
  - by exists r.
  - cbn [fst]. unfold put, issue.
    cbn [ObjectStore.records db.updatedEvent Event.id].
    rewrite (Hkeyed _ _ He). destruct (decide (k = id)) as [->|Hne].
    + rewrite lookup_insert_eq. assert (e = r) as -> by congruence.
      eexists. split; [done|]. done.
    + rewrite lookup_insert_ne by done. by exists r.
Qed.

Lemma mark_each_keeps_times (ids : list Z) (now : Z) (s : ObjectStore.t) :
  keyed s → keeps_times s (mark_each ids now s).
Proof.
  revert s. induction ids as [|id ids IH]; intros s Hkeyed; [apply keeps_times_refl|].
  eapply keeps_times_trans; [by apply (markEventAsCompleted_keeps_times id true now)|].
  apply IH.
  by apply (updateEvent_keyed id (UpdateEvent.only_completed true) now s).
Qed.

Lemma mark_each_sound (ids : list Z) (now : Z) (s : ObjectStore.t) :
  sound_store s → sound_store (mark_each ids now s).
Proof. intros Hs. by apply (db_steps_sound _ _ (mark_each_steps ids now s)). Qed.

(** The lists the store publishes. *)
Lemma reconciled_fields (now : Z) (e : Event.t) :
  Event.date (reconciled now e) = Event.date e
  ∧ Event.time (reconciled now e) = Event.time e
  ∧ Event.priority (reconciled now e) = Event.priority e.
Proof. unfold reconciled. by destruct (decide _). Qed.

Lemma presentable_reconciled (now : Z) (l : list Event.t) :
  presentable l → presentable (reconciled now <$> l).
Proof.
  intros [Hnodup Hall]. split.
  - rewrite <-list_fmap_compose.
    rewrite (list_fmap_ext (Event.id ∘ reconciled now) Event.id l); [done|].
    intros i e _. apply reconciled_id.
  - apply Forall_fmap. eapply Forall_impl; [done|]. intros e He. simpl.
    by rewrite (proj2 (proj2 (reconciled_fields now e))).
Qed.

Lemma in_key_order_ids (s : ObjectStore.t) :
  keyed s → Event.id <$> in_key_order (ObjectStore.records s)
            ≡ₚ (map_to_list (ObjectStore.records s)).*1.
Proof.
  intros Hkeyed. unfold in_key_order. rewrite sort_perm, <-list_fmap_compose.
  assert (Event.id ∘ snd <$> map_to_list (ObjectStore.records s)
          = (map_to_list (ObjectStore.records s)).*1) as ->; [|done].
  apply Forall_fmap_ext, Forall_forall.
  intros [k e] Hke%elem_of_map_to_list. simpl. by apply Hkeyed.
Qed.

Lemma presentable_fetched (w : World.t) :
  sound_store (World.db w) → presentable (fetched w).
Proof.
  intros [Hkeyed _ Hp].
  assert (NoDup (Event.id <$> in_key_order (ObjectStore.records (World.db w))))
    as Hnodup.
  { rewrite in_key_order_ids by done. apply NoDup_fst_map_to_list. }
  assert (Forall (λ e, Event.priority e ∈ [1; 2; 3]) (fetched w)) as Hall.
  { apply Forall_forall. intros e He%fetched_stored; [|done]. by eapply Hp. }
  split; [|done]. unfold fetched. destruct (store.chosenDate w) as [d|].
  - rewrite sort_perm. eapply sublist_NoDup; [exact Hnodup|].
    apply fmap_sublist, sublist_filter.
  - by rewrite sort_perm.
Qed.

(** The parts of an operation. *)
Lemma steady_with_state (w : World.t) (x : State.t) :
  steady w → State.events x = State.events (World.state w) →
  steady (World.with_state w x).
Proof. intros [Hs Hp Hc Hh Ho Ht] Hx. split; simpl; [done|by rewrite Hx|done..]. Qed.

Lemma steady_set_events (l : list Event.t) (w : World.t) :
  steady w → presentable l → steady (set_events l w).
Proof. intros [Hs Hp Hc Hh Ho Ht] Hl. by split. Qed.

Lemma steady_invalidateCache (w : World.t) :
  steady w → steady (store.invalidateCache w).
Proof.
  intros [Hs Hp Hc Hh Ho Ht]. rewrite invalidateCache_frame. by split.
Qed.

Lemma steady_updateCache (key : string) (l : list Event.t) (now : Z) (w : World.t) :
  steady w → presentable l → steady (store.updateCache key l now w).
Proof.
  intros [Hs Hp Hc Hh Ho Ht] Hl. split; simpl; try done.
  intros key' entry [[<- <-]|[_ Hentry]]%lookup_insert_Some; [done|]. by eapply Hc.
Qed.

Lemma steady_with_db (w : World.t) (s : ObjectStore.t) :
  steady w → sound_store s →
  (∀ h t, World.timeouts w !! h = Some t → timed s t) →
  steady (World.with_db w s).
Proof. intros [Hs Hp Hc Hh Ho Ht] Hsound Htimed. by split. Qed.

Lemma steady_unschedule (id : Z) (w : World.t) : steady w → steady (unschedule id w).
Proof.
  intros [Hs Hp Hc Hh Ho Ht].
  destruct (unschedule_frame id w) as (Hdb & Hcache & Hstate & Hnext & Hreg).
  split.
  - by rewrite Hdb.
  - by rewrite Hstate.
  - by rewrite Hcache.
  - intros k h. rewrite Hreg, Hnext. intros [_ Hk]%lookup_delete_Some. by eapply Hh.
  - intros k h t. rewrite Hreg.
    intros [_ Hk]%lookup_delete_Some Hh'%unschedule_subset. by eapply Ho.
  - intros h t Hh'%unschedule_subset. rewrite Hdb. by eapply Ht.
Qed.

Lemma unschedule_with_db (id : Z) (w : World.t) (s : ObjectStore.t) :
  unschedule id (World.with_db w s) = World.with_db (unschedule id w) s.
Proof. unfold unschedule. simpl. by destruct (World.scheduledChecks w !! id). Qed.

Lemma steady_scheduleEventCheck (e : Event.t) (now : Z) (w : World.t) :
  steady w →
  (∃ r, ObjectStore.records (World.db w) !! Event.id e = Some r
        ∧ Event.date r = Event.date e ∧ Event.time r = Event.time e) →
  steady (store.scheduleEventCheck e now w).
Proof.
  intros Hw (r & Hr & Hdate & Htime). destruct (schedulable now e) eqn:Hs.
  2:{ by rewrite scheduleEventCheck_skip. }
  rewrite scheduleEventCheck_arm by done.
  destruct Hw as [Hsound Hp Hc Hh Ho Ht]. split; simpl; try done.
  - intros k h [[<- <-]|[_ [_ Hk]%lookup_delete_Some]]%lookup_insert_Some; [lia|].
    assert (h < World.nextTimeout w) by by eapply Hh. lia.
  - intros k h t [[<- <-]|[Hne [_ Hk]%lookup_delete_Some]]%lookup_insert_Some.
    + rewrite lookup_insert_eq. by intros [= <-].
    + pose proof (Hh _ _ Hk) as Hlt.
      rewrite lookup_insert_ne by lia. intros Hh'%unschedule_subset. by eapply Ho.
  - intros h t [[<- <-]|[_ Hh'%unschedule_subset]]%lookup_insert_Some; [|by eapply Ht].
    exists r. simpl. split; [done|]. rewrite Hdate, Htime. split; [done|].
    unfold schedulable in Hs. apply andb_true_iff in Hs as [_ Hs].
    destruct (parseISO _) as [x|]; simpl in *; [|done].
    intros d [= <-]. apply negb_true_iff, bool_decide_eq_false in Hs. lia.
Qed.

Lemma steady_scheduleAll (events : list Event.t) (now : Z) (w : World.t) :
  steady w →
  Forall (λ e, ∃ r, ObjectStore.records (World.db w) !! Event.id e = Some r
                    ∧ Event.date r = Event.date e ∧ Event.time r = Event.time e)
         events →
  steady (scheduleAll events now w).
Proof.
  revert w. induction events as [|e events IH]; intros w Hw Hall; simpl; [done|].
  apply Forall_cons in Hall as [He Hall]. apply IH.
  - by apply steady_scheduleEventCheck.
  - by rewrite (proj1 (scheduleEventCheck_frame e now w)).
Qed.

Lemma steady_mark_each (ids : list Z) (now : Z) (w : World.t) :
  steady w → steady (World.with_db w (mark_each ids now (World.db w))).
Proof.
  intros Hw. apply steady_with_db; [done|apply mark_each_sound, Hw|].
  intros h t Ht. eapply timed_keeps; [|by eapply steady_timed].
  apply mark_each_keeps_times, Hw.
Qed.

(** [refreshEvents] *)
Lemma refreshEvents_steady (now : Z) (w : World.t) :
  consistent w → steady w → steady (store.refreshEvents now w).1.
Proof.
  intros Hc Hw.
  destruct (State.isDBReady (World.state w)) eqn:Hready.
  2:{ unfold store.refreshEvents. by rewrite Hready. }
  destruct (store.isCacheValid (store.cacheKey w) now w) eqn:Hvalid.
  - unfold store.isCacheValid in Hvalid.
    destruct (World.cache w !! store.cacheKey w) as [entry|] eqn:Hentry; [|done].
    apply bool_decide_eq_true in Hvalid.
    rewrite (refreshEvents_hit now w entry) by done. cbn [fst].
    apply steady_set_events; [by apply steady_mark_each|].
    apply presentable_reconciled. by eapply steady_cached.
  - rewrite (refreshEvents_miss now w Hready Hvalid (consistent_keyed _ Hc)).
    cbv zeta. cbn [fst].
    set (s0 := issue (query w) (World.db w)).
    set (s := mark_each (past_due_ids now (fetched w)) now s0).
    assert (presentable (reconciled now <$> fetched w)) as Hl.
    { apply presentable_reconciled, presentable_fetched, Hw. }
    assert (steady (World.with_db w s0)) as Hw0.
    { apply steady_with_db; [done|apply sound_store_issue, Hw|].
      intros h t Ht. by eapply steady_timed. }
    apply steady_set_events; [|done]. apply steady_updateCache; [|done].
    apply steady_scheduleAll; [exact (steady_mark_each _ now _ Hw0)|].
    apply Forall_fmap, Forall_forall. intros e He. simpl.
    rewrite reconciled_id.
    destruct (reconciled_fields now e) as (-> & -> & _).
    apply fetched_stored in He; [|apply Hc].
    apply (mark_each_keeps_times _ now s0); [apply Hc|done].
Qed.

Lemma refreshed_steady (now : Z) (w : World.t) :
  consistent w → steady w → steady (store.refreshed now w).
Proof.
  intros Hc Hw. rewrite refreshed_eq by done. by apply refreshEvents_steady.
Qed.
End steady.

Section steady_operations.
Context `{Runtime}.

Lemma addEvent_keeps_times (event : CreateEvent.t) (now : Z) (s : ObjectStore.t) :
  keeps_times s (db.addEvent event now s).1.
Proof.
  intros k r Hr. unfold db.addEvent.
  destruct (db.validatePriority _); [|by exists r]. cbn.
  destruct (ObjectStore.records s !! ObjectStore.keygen s) eqn:Hfree; cbn;
    [by exists r|].
  exists r. split; [|done]. rewrite lookup_insert_ne; [done|]. congruence.
Qed.

Lemma updateEvent_rejected (id : Z) (updates : UpdateEvent.t) (now : Z)
    (s : ObjectStore.t) (e : Err.t) :
  (db.updateEvent id updates now s).2 = Rejected e →
  ObjectStore.records (db.updateEvent id updates now s).1 = ObjectStore.records s
  ∧ (e = Error "Evento não encontrado" ↔ typed_update updates)
  ∧ (typed_update updates → ObjectStore.records s !! id = None).
Proof.
  destruct (updateEvent_cases id updates now s)
    as [(p & Hp & Hnot & ->)|[(Htyped & Hnone & ->)|[(r & _ & _ & _ & ->)
        |(r & _ & _ & _ & ->)]]]; [| |done..].
  - intros [= <-]. split; [done|]. split; [|by intros Ht%(λ Ht, Ht p Hp)].
    split; [done|]. by intros Ht%(λ Ht, Ht p Hp).
  - intros [= <-]. done.
Qed.

Lemma steady_caught (e : Err.t) (w : World.t) : steady w → steady (store.caught e w).
Proof. intros Hw. by apply steady_with_state. Qed.

Lemma steady_set_loading (w : World.t) : steady w → steady (set_loading w).
Proof. intros Hw. by apply steady_with_state. Qed.

Lemma initializeStore_steady (opened : Outcome unit) (now : Z) (w : World.t) :
  consistent w → steady w → steady (store.initializeStore opened now w).
Proof.
  intros Hc Hw. unfold store.initializeStore. destruct opened.
  - apply refreshed_steady.
    + by apply consistent_with_state, consistent_with_state.
    + by apply steady_with_state; [apply steady_with_state|].
  - by apply steady_caught, steady_with_state.
Qed.

Lemma setSelectedDate_steady (date : option string) (now : Z) (w : World.t) :
  consistent w → steady w → steady (store.setSelectedDate date now w).
Proof.
  intros Hc Hw. unfold store.setSelectedDate.
  apply refreshEvents_steady; [by apply consistent_with_state|].
  by apply steady_with_state.
Qed.

Lemma fetchEvents_steady (now : Z) (w : World.t) :
  consistent w → steady w → steady (store.fetchEvents now w).
Proof.
  intros Hc Hw. unfold store.fetchEvents. destruct (negb _); [done|].
  apply refreshed_steady; [by apply consistent_set_loading|].
  by apply steady_set_loading.
Qed.

Lemma fetchEventsByDate_steady (date : string) (now : Z) (w : World.t) :
  consistent w → steady w → steady (store.fetchEventsByDate date now w).
Proof.
  intros Hc Hw. unfold store.fetchEventsByDate. destruct (negb _); [done|].
  apply refreshed_steady; [by apply consistent_with_state|].
  by apply steady_with_state.
Qed.

(** The world between the database call of a mutation and its refresh. *)
Lemma addEvent_mid (event : CreateEvent.t) (now : Z) (w : World.t) :
  consistent w → steady w →
  let wmid := World.with_db (set_loading w) (db.addEvent event now (World.db w)).1 in
  consistent wmid ∧ steady wmid.
Proof.
  intros Hc Hw wmid.
  destruct (addEvent_keyed event now (World.db w)) as (Hk & Hst & _); [apply Hc|].
  split.
  - apply consistent_with_db; [by apply consistent_set_loading|done..].
  - apply steady_with_db; [by apply steady_set_loading| |].
    + by apply (db_step_sound _ _ (db_addEvent event now (World.db w))), Hw.
    + intros h t Ht. eapply timed_keeps; [apply addEvent_keeps_times|].
      by eapply steady_timed.
Qed.

Lemma addEvent_steady (event : CreateEvent.t) (now : Z) (w : World.t) :
  consistent w → steady w → steady (store.addEvent event now w).1.
Proof.
  intros Hc Hw. unfold store.addEvent. destruct (negb _); [done|].
  destruct (addEvent_mid event now w Hc Hw) as [Hcm Hwm].
  change (World.db (set_loading w)) with (World.db w).
  destruct (db.addEvent event now (World.db w)) as [s [key|err]]; cbn [fst] in *.
  - apply refreshed_steady; [by apply invalidateCache_consistent|].
    by apply steady_invalidateCache.
  - by apply steady_caught.
Qed.

Lemma updateEvent_mid (id : Z) (updates : UpdateEvent.t) (now : Z) (w : World.t) :
  consistent w → steady w →
  let s := (db.updateEvent id updates now (World.db w)).1 in
  consistent (World.with_db (set_loading w) s)
  ∧ ((∃ e, (db.updateEvent id updates now (World.db w)).2 = Rejected e) →
     steady (World.with_db (set_loading w) s))
  ∧ consistent (unschedule id (World.with_db (set_loading w) s))
  ∧ steady (unschedule id (World.with_db (set_loading w) s)).
Proof.
  intros Hc Hw s.
  destruct (updateEvent_keyed id updates now (World.db w)) as (Hk & Hst & Hother & _);
    [apply Hc|]. fold s in Hk, Hst, Hother.
  assert (sound_store s) as Hsound.
  { by apply (db_step_sound _ _ (db_updateEvent id updates now (World.db w))), Hw. }
  assert (consistent (World.with_db (set_loading w) s)) as Hcm.
  { apply consistent_with_db; [by apply consistent_set_loading|done|].
    intros k. by rewrite Hst. }
  split; [done|]. split; [|split].
  - intros [e He]. apply steady_with_db; [by apply steady_set_loading|done|].
    intros h t Ht. destruct (steady_timed _ Hw h t Ht) as (r & Hr & Hrest).
    exists r. split; [|done]. unfold s.
    by rewrite (proj1 (updateEvent_rejected id updates now _ e He)).
  - by apply unschedule_consistent.
  - rewrite unschedule_with_db.
    destruct (unschedule_consistent id (set_loading w)) as [Hc0 Hnone];
      [by apply consistent_set_loading|].
    apply steady_with_db; [by apply steady_unschedule, steady_set_loading|done|].
    intros h t Ht. pose proof (Hnone h t Ht) as Hne.
    apply unschedule_subset in Ht.
    destruct (steady_timed _ Hw h t Ht) as (r & Hr & Hrest).
    exists r. split; [|done]. by rewrite Hother.
Qed.

Lemma updateEvent_steady (id : Z) (updates : UpdateEvent.t) (now : Z) (w : World.t) :
  consistent w → steady w → steady (store.updateEvent id updates now w).1.
Proof.
  intros Hc Hw. unfold store.updateEvent. destruct (negb _); [done|].
  destruct (updateEvent_mid id updates now w Hc Hw) as (Hcm & Hrej & Hcu & Hwu).
  change (World.db (set_loading w)) with (World.db w).
  destruct (db.updateEvent id updates now (World.db w)) as [s [[]|err]];
    cbn [fst snd] in *.
  - apply refreshed_steady; [by apply invalidateCache_consistent|].
    by apply steady_invalidateCache.
  - apply steady_caught, Hrej. by exists err.
Qed.

Lemma markEventAsCompleted_mid (id : Z) (completed : bool) (now : Z) (w : World.t) :
  consistent w → steady w →
  let w0 := if completed then unschedule id (set_loading w) else set_loading w in
  let wmid := World.with_db w0 (db.markEventAsCompleted id completed now (World.db w)).1 in
  World.db w0 = World.db w ∧ consistent wmid ∧ steady wmid.
Proof.
  intros Hc Hw w0 wmid.
  assert (World.db w0 = World.db w) as Hdb.
  { unfold w0. destruct completed; [by rewrite unschedule_db|done]. }
  assert (consistent w0 ∧ steady w0) as [Hc0 Hw0].
  { unfold w0. destruct completed.
    - split; [by apply unschedule_consistent, consistent_set_loading|].
      by apply steady_unschedule, steady_set_loading.
    - split; [by apply consistent_set_loading|by apply steady_set_loading]. }
  split; [done|]. unfold wmid. rewrite <-Hdb.
  destruct (updateEvent_keyed id (UpdateEvent.only_completed completed) now
              (World.db w0)) as (Hk & Hst & _); [apply Hc0|].
  split.
  - apply consistent_with_db; [done..|]. intros k. by rewrite Hst.
  - apply steady_with_db; [done| |].
    + by apply (db_step_sound _ _
                  (db_markEventAsCompleted id completed now (World.db w0))), Hw0.
    + intros h t Ht.
      eapply timed_keeps; [apply markEventAsCompleted_keeps_times, Hc0|].
      by eapply steady_timed.
Qed.

Lemma markEventAsCompleted_steady (id : Z) (completed : bool) (now : Z)
    (w : World.t) :
  consistent w → steady w → steady (store.markEventAsCompleted id completed now w).1.
Proof.
  intros Hc Hw. unfold store.markEventAsCompleted. destruct (negb _); [done|].
  destruct (markEventAsCompleted_mid id completed now w Hc Hw) as (Hdb & Hcm & Hwm).
  cbv zeta in Hdb, Hcm, Hwm. cbv zeta. rewrite Hdb.
  destruct (db.markEventAsCompleted id completed now (World.db w)) as [s [[]|err]];
    cbn [fst] in *.
  - apply refreshed_steady; [by apply invalidateCache_consistent|].
    by apply steady_invalidateCache.
  - by apply steady_caught.
Qed.

Lemma deleteEvent_mid (id : Z) (w : World.t) :
  consistent w → steady w →
  steady (World.with_cache
            (World.with_db (unschedule id (set_loading w))
                           (db.deleteEvent id (World.db w)).1) ∅).
Proof.
  intros Hc Hw.
  destruct (unschedule_consistent id (set_loading w)) as [Hc0 Hnone];
    [by apply consistent_set_loading|].
  rewrite <-invalidateCache_frame. apply steady_invalidateCache.
  apply steady_with_db; [by apply steady_unschedule, steady_set_loading| |].
  - by apply (db_step_sound _ _ (db_deleteEvent id (World.db w))), Hw.
  - intros h t Ht. pose proof (Hnone h t Ht) as Hne. apply unschedule_subset in Ht.
    destruct (steady_timed _ Hw h t Ht) as (r & Hr & Hrest).
    exists r. split; [|done]. simpl. by rewrite lookup_delete_ne.
Qed.

Lemma deleteEvent_steady (id : Z) (now : Z) (w : World.t) :
  consistent w → steady w → steady (store.deleteEvent id now w).1.
Proof.
  intros Hc Hw. destruct (State.isDBReady (World.state w)) eqn:Hready.
  2:{ unfold store.deleteEvent. by rewrite Hready. }
  destruct (deleteEvent_run id now w Hc Hready) as (Hcm & _ & ->).
  apply refreshEvents_steady; [done|]. by apply deleteEvent_mid.
Qed.

Lemma cleanup_steady (w : World.t) :
  consistent w → steady w → steady (store.cleanup w).
Proof.
  intros Hc [Hs Hp Hca Hh Ho Ht].
  destruct (cleanup_clears w Hc) as (Htimeouts & Hchecks & _).
  split.
  - by rewrite cleanup_db.
  - unfold store.cleanup. by rewrite clearTimeout_each.
  - unfold store.cleanup. by rewrite clearTimeout_each.
  - intros k h. by rewrite Hchecks, lookup_empty.
  - intros k h t. by rewrite Hchecks, lookup_empty.
  - intros h t. by rewrite Htimeouts, lookup_empty.
Qed.

(** The world in which the callback of a timeout refreshes. *)
Lemma timeoutFires_mid (handle : Z) (timeout : Timeout.t) (now : Z) (w : World.t) :
  consistent w → steady w →
  World.timeouts w !! handle = Some timeout →
  let s := (db.markEventAsCompleted (Timeout.event timeout) true now (World.db w)).1 in
  consistent (World.with_db (clearTimeout handle w) s)
  ∧ steady (World.with_db (clearTimeout handle w) s).
Proof.
  intros Hc Hw Hh s.
  destruct (updateEvent_keyed (Timeout.event timeout) (UpdateEvent.only_completed true)
              now (World.db w) (consistent_keyed _ Hc)) as (Hk & Hst & _).
  fold (db.markEventAsCompleted (Timeout.event timeout) true now (World.db w))
    in Hk, Hst.
  fold s in Hk, Hst. split.
  - split; simpl; [done|..].
    + intros key entry e Hentry He. apply Hst. by eapply consistent_cache.
    + intros h t [_ Ht]%lookup_delete_Some. by apply Hc.
    + intros h [t [_ Ht]%lookup_delete_Some]. apply Hc. by exists t.
    + intros h t [_ Ht]%lookup_delete_Some. apply Hst.
      by eapply consistent_timers_stored.
  - destruct Hw as [Hs Hp Hca Hha Ho Ht]. split; simpl; try done.
    + by apply (db_step_sound _ _
        (db_markEventAsCompleted (Timeout.event timeout) true now (World.db w))).
    + intros k h t Hkh [_ Ht']%lookup_delete_Some. by eapply Ho.
    + intros h t [_ Ht']%lookup_delete_Some.
      eapply timed_keeps; [apply markEventAsCompleted_keeps_times, Hc|].
      by eapply Ht.
Qed.

Lemma timeoutFires_steady (handle : Z) (timeout : Timeout.t) (now : Z) (w : World.t) :
  consistent w → steady w →
  World.timeouts w !! handle = Some timeout →
  steady (store.timeoutFires handle now w).
Proof.
  intros Hc Hw Hh.
  destruct (timeoutFires_spec handle timeout now w Hc Hh) as (-> & _).
  destruct (timeoutFires_mid handle timeout now w Hc Hw Hh) as [Hcm Hwm].
  pose proof (refreshEvents_steady now _ Hcm Hwm) as [Hs Hp Hca Hha Ho Ht].
  split; simpl; try done.
  - intros k h [_ Hk]%lookup_delete_Some. by eapply Hha.
  - intros k h t [_ Hk]%lookup_delete_Some. by eapply Ho.
Qed.

(** Every operation, and every timeout that fires, keeps the store steady. *)
Lemma step_steady (w w' : World.t) :
  step w w' → consistent w → steady w → steady w'.
Proof.
  destruct 1; intros Hc Hw.
  - by apply initializeStore_steady.
  - by apply setSelectedDate_steady.
  - by apply fetchEvents_steady.
  - by apply fetchEventsByDate_steady.
  - by apply addEvent_steady.
  - by apply updateEvent_steady.
  - by apply deleteEvent_steady.
  - by apply markEventAsCompleted_steady.
  - by apply steady_with_state.
  - by apply steady_invalidateCache.
  - by apply cleanup_steady.
  - by eapply timeoutFires_steady.
Qed.

Lemma steady_initial : steady World.initial.
Proof.
  split; simpl.
  - apply sound_store_created.
  - split; [constructor|done].
  - intros key entry. by rewrite lookup_empty.
  - intros k h. by rewrite lookup_empty.
  - intros k h t. by rewrite lookup_empty.
  - intros h t. by rewrite lookup_empty.
Qed.

Lemma reachable_steady (w : World.t) : reachable w → steady w.
Proof.
  intros Hw. cut (consistent w ∧ steady w); [by intros []|].
  revert w Hw. apply rtc_ind_r; [split; [apply consistent_initial|apply steady_initial]|].
  intros w1 w2 _ Hstep [Hc Hs]. split; [by eapply step_consistent|].
  by eapply step_steady.
Qed.
End steady_operations.

(** ** Before and after the database is ready *)

(** The store as it is created, whatever its [loading], [error] and
    [selectedDate]: no request was sent, nothing is cached, scheduled or
    published. *)
Definition idle (w : World.t) : Prop :=
  World.db w = ObjectStore.created
  ∧ World.cache w = ∅
  ∧ World.scheduledChecks w = ∅
  ∧ World.timeouts w = ∅
  ∧ World.nextTimeout w = 1
  ∧ State.events (World.state w) = [].

Record quiet (w : World.t) : Prop := {
  quiet_ready :
    State.isDBReady (World.state w) = true → State.loading (World.state w) = false;
  quiet_idle : State.isDBReady (World.state w) = false → idle w;
}.

Lemma quiet_when_ready (w : World.t) :
  State.isDBReady (World.state w) = true ∧ State.loading (World.state w) = false →
  quiet w.
Proof. intros [Hr Hl]. split; [done|]. by rewrite Hr. Qed.

Section quiet.
Context `{Runtime}.

Lemma refreshEvents_state (now : Z) (w : World.t) :
  consistent w → State.isDBReady (World.state w) = true →
  let x := World.state (store.refreshEvents now w).1 in
  State.isDBReady x = true
  ∧ State.loading x = false
  ∧ State.error x = State.error (World.state w)
  ∧ State.selectedDate x = State.selectedDate (World.state w).
Proof.
  intros Hc Hready.
  destruct (store.isCacheValid (store.cacheKey w) now w) eqn:Hvalid.
  - unfold store.isCacheValid in Hvalid.
    destruct (World.cache w !! store.cacheKey w) as [entry|] eqn:Hentry; [|done].
    apply bool_decide_eq_true in Hvalid.
    by rewrite (refreshEvents_hit now w entry).
  - rewrite (refreshEvents_miss now w Hready Hvalid (consistent_keyed _ Hc)).
    cbv zeta. cbn [fst]. unfold set_events, store.updateCache.
    cbn [World.state World.with_state World.with_cache State.isDBReady State.loading
         State.error State.selectedDate].
    by rewrite (proj2 (proj2 (scheduleAll_frame _ now (World.with_db w _)))).
Qed.

Lemma refreshed_ready (now : Z) (w : World.t) :
  consistent w → State.isDBReady (World.state w) = true →
  State.isDBReady (World.state (store.refreshed now w)) = true
  ∧ State.loading (World.state (store.refreshed now w)) = false.
Proof.
  intros Hc Hready. rewrite refreshed_eq by done.
  by destruct (refreshEvents_state now w Hc Hready) as (? & ? & _).
Qed.

Lemma refreshEvents_not_ready (now : Z) (w : World.t) :
  State.isDBReady (World.state w) = false → store.refreshEvents now w = (w, Resolved ()).
Proof. intros Hready. unfold store.refreshEvents. by rewrite Hready. Qed.

(** On a ready store every operation ends ready and not loading. *)
Lemma step_ready (w w' : World.t) :
  step w w' → consistent w → steady w →
  State.isDBReady (World.state w) = true →
  State.isDBReady (World.state w') = true ∧ State.loading (World.state w') = false
  ∨ World.state w' = World.state w
  ∨ ∃ e, World.state w' = World.state (store.clearError w)
         ∨ World.state w' = World.state (store.caught e w).
Proof.
  destruct 1 as [opened now w|date now w|now w|date now w|event now w
                 |id updates now w|id now w|id completed now w|w|w|w
                 |handle timeout now w Hh Hdue]; intros Hc Hw Hready.
  - left. unfold store.initializeStore. destruct opened; [|by rewrite <-Hready].
    apply refreshed_ready; [|done].
    by apply consistent_with_state, consistent_with_state.
  - left. unfold store.setSelectedDate.
    destruct (refreshEvents_state now
                (World.with_state w
                   (State.mk (State.isDBReady (World.state w))
                             (State.events (World.state w)) true
                             (State.error (World.state w)) date)))
      as (? & ? & _); [by apply consistent_with_state|done|done].
  - left. unfold store.fetchEvents. rewrite Hready.
    apply refreshed_ready; [by apply consistent_set_loading|done].
  - left. unfold store.fetchEventsByDate. rewrite Hready.
    apply refreshed_ready; [by apply consistent_with_state|done].
  - left. unfold store.addEvent. rewrite Hready. cbn [negb].
    destruct (addEvent_mid event now w Hc Hw) as [Hcm _].
    change (World.db (set_loading w)) with (World.db w).
    destruct (db.addEvent event now (World.db w)) as [s [key|err]]; cbn [fst] in *.
    + apply refreshed_ready; [by apply invalidateCache_consistent|].
      by rewrite invalidateCache_frame.
    + done.
  - left. unfold store.updateEvent. rewrite Hready. cbn [negb].
    destruct (updateEvent_mid id updates now w Hc Hw) as (_ & _ & Hcu & _).
    change (World.db (set_loading w)) with (World.db w).
    destruct (db.updateEvent id updates now (World.db w)) as [s [[]|err]];
      cbn [fst snd] in *.
    + apply refreshed_ready; [by apply invalidateCache_consistent|].
      rewrite invalidateCache_frame. cbn [World.state World.with_cache].
      by rewrite (proj1 (proj2 (proj2 (unschedule_frame id _)))).
    + done.
  - left. destruct (deleteEvent_run id now w Hc Hready) as (Hcm & Hstate & ->).
    destruct (refreshEvents_state now _ Hcm) as (? & ? & _); [|done].
    by rewrite Hstate.
  - left. unfold store.markEventAsCompleted. rewrite Hready. cbn [negb].
    destruct (markEventAsCompleted_mid id completed now w Hc Hw) as (Hdb & Hcm & _).
    cbv zeta in Hdb, Hcm. cbv zeta. rewrite Hdb.
    assert (World.state (if completed then unschedule id (set_loading w)
                         else set_loading w) = World.state (set_loading w)) as Hstate.
    { destruct completed; [|done]. apply unschedule_frame. }
    destruct (db.markEventAsCompleted id completed now (World.db w)) as [s [[]|err]];
      cbn [fst] in *.
    + apply refreshed_ready; [by apply invalidateCache_consistent|].
      rewrite invalidateCache_frame. cbn [World.state World.with_cache World.with_db].
      by rewrite Hstate.
    + unfold store.caught, set_error.
      cbn [World.state World.with_state World.with_db State.isDBReady State.loading].
      by rewrite Hstate.
  - right. right. exists (Error ""). by left.
  - right. left. by rewrite invalidateCache_frame.
  - right. left. unfold store.cleanup. by rewrite clearTimeout_each.
  - left. destruct (timeoutFires_spec handle timeout now w Hc Hh) as (-> & _).
    destruct (timeoutFires_mid handle timeout now w Hc Hw Hh) as [Hcm _].
    by destruct (refreshEvents_state now _ Hcm) as (? & ? & _).
Qed.

Lemma step_quiet (w w' : World.t) :
  step w w' → consistent w → steady w → quiet w → quiet w'.
Proof.
  intros Hstep Hc Hw Hq.
  destruct (State.isDBReady (World.state w)) eqn:Hready.
  { destruct (step_ready w w' Hstep Hc Hw Hready) as [Hdone|[Hsame|[e [Hsame|Hsame]]]].
    - by apply quiet_when_ready.
    - apply quiet_when_ready. rewrite Hsame. split; [done|]. by apply Hq.
    - apply quiet_when_ready. rewrite Hsame. split; [done|]. by apply Hq.
    - apply quiet_when_ready. by rewrite Hsame. }
  pose proof (quiet_idle _ Hq Hready) as Hidle.
  assert (∀ x, State.isDBReady x = false → State.events x = State.events (World.state w) →
               quiet (World.with_state w x)) as Hstate.
  { intros x Hx Hev. split; simpl; [by rewrite Hx|]. intros _.
    destruct Hidle as (? & ? & ? & ? & ? & ?). unfold idle. simpl. by rewrite Hev. }
  destruct Hstep as [opened now w|date now w|now w|date now w|event now w
                    |id updates now w|id now w|id completed now w|w|w|w
                    |handle timeout now w Hh Hdue].
  - unfold store.initializeStore. destruct opened.
    + apply quiet_when_ready, refreshed_ready; [|done].
      by apply consistent_with_state, consistent_with_state.
    + by apply Hstate.
  - unfold store.setSelectedDate. rewrite refreshEvents_not_ready by done.
    by apply Hstate.
  - unfold store.fetchEvents. by rewrite Hready.
  - unfold store.fetchEventsByDate. by rewrite Hready.
  - unfold store.addEvent. by rewrite Hready.
  - unfold store.updateEvent. by rewrite Hready.
  - unfold store.deleteEvent. by rewrite Hready.
  - unfold store.markEventAsCompleted. by rewrite Hready.
  - by apply Hstate.
  - rewrite (invalidateCache_frame w : store.clearCache w = _).
    destruct Hidle as (? & ? & ? & ? & ? & ?).
    split; simpl; [by rewrite Hready|done].
  - destruct (cleanup_clears w Hc) as (Htimeouts & Hchecks & _).
    destruct Hidle as (Hdb & Hcache & _ & _ & Hnext & Hev).
    assert (World.state (store.cleanup w) = World.state w
            ∧ World.cache (store.cleanup w) = World.cache w
            ∧ World.nextTimeout (store.cleanup w) = World.nextTimeout w)
      as (Hst & Hca & Hne).
    { unfold store.cleanup. by rewrite clearTimeout_each. }
    split; rewrite Hst; [by rewrite Hready|]. intros _.
    unfold idle. by rewrite cleanup_db, Hst, Hca, Hne.
  - destruct Hidle as (_ & _ & _ & Hnone & _). by rewrite Hnone, lookup_empty in Hh.
Qed.

Lemma quiet_initial : quiet World.initial.
Proof. split; [done|]. intros _. by unfold idle. Qed.

Lemma reachable_quiet (w : World.t) : reachable w → quiet w.
Proof.
  intros Hw. cut (consistent w ∧ steady w ∧ quiet w); [by intros (_ & _ & ?)|].
  revert w Hw. apply rtc_ind_r.
  { split; [apply consistent_initial|]. split; [apply steady_initial|apply quiet_initial]. }
  intros w1 w2 _ Hstep (Hc & Hs & Hq).
  split; [by eapply step_consistent|]. split; [by eapply step_steady|].
  by eapply step_quiet.
Qed.
End quiet.

(** ** The worlds the store reaches *)

Lemma getPriorityClass_spec (p : Z) :
  eventList.getPriorityClass p
  = if decide (p = 1) then "priority-low"
    else if decide (p = 2) then "priority-medium"
    else if decide (p = 3) then "priority-high"
    else "".
Proof.
  destruct p as [|[[q|q|]|[q|q|]|]|q]; try done.
Qed.

(** X7. In every world the store reaches, no two published events share an
    id, and every published event has a priority for which [getPriorityText]
    gives a text and [getPriorityClass] a class: rendering the list never
    throws, and its keys are unique. *)
Theorem published_events_can_always_be_rendered `{Runtime} (w : World.t) :
  reachable w →
  NoDup (Event.id <$> State.events (World.state w))
  ∧ ∀ e, e ∈ State.events (World.state w) →
      (∃ text, getPriorityText (Event.priority e) = Resolved text)
      ∧ eventList.getPriorityClass (Event.priority e) ≠ "".
Proof.
  intros [Hnodup Hall]%reachable_steady%steady_published. split; [done|].
  intros e He. pose proof (proj1 (Forall_forall _ _) Hall e He) as Hp.
  rewrite getPriorityText_spec, getPriorityClass_spec.
  assert (Event.priority e = 1 ∨ Event.priority e = 2 ∨ Event.priority e = 3)
    as [->|[->| ->]] by set_solver; simpl; eauto.
Qed.

Lemma kept_in_range (d : Z) : 0 ≤ d ≤ 2147483647 → Timeout.kept (Some d) = d.
Proof.
  intros Hd. unfold Timeout.kept, Timeout.ToInt32. simpl.
  rewrite Z.mod_small by lia. lia.
Qed.

Lemma kept_of_NaN : Timeout.kept None = 0.
Proof. by vm_compute. Qed.

(** X8. In every world the store reaches, a pending timeout is the one
    [scheduledChecks] holds for its event, the event is stored, and the
    timeout was armed, not after the date and time the record has now, with
    the delay up to them: it is due at that date and time when the delay is
    at most 2147483647 ms. When they do not parse the delay is NaN and the
    timeout is due at once. *)
Theorem pending_timeouts_are_armed_for_the_stored_date_time `{Runtime}
    (w : World.t) (h : Z) (t : Timeout.t) :
  reachable w → World.timeouts w !! h = Some t →
  World.scheduledChecks w !! Timeout.event t = Some h
  ∧ ∃ r, ObjectStore.records (World.db w) !! Timeout.event t = Some r
         ∧ Event.id r = Timeout.event t
         ∧ match parseISO (Event.date r +:+ "T" +:+ Event.time r) with
           | Some x =>
               Timeout.armed_at t ≤ x
               ∧ Timeout.delay t = Some (x - Timeout.armed_at t)
               ∧ (x - Timeout.armed_at t ≤ 2147483647 → Timeout.due t = x)
           | None => Timeout.delay t = None ∧ Timeout.due t = Timeout.armed_at t
           end.
Proof.
  intros Hw Ht.
  pose proof (reachable_consistent w Hw) as Hc.
  split; [by apply Hc|].
  destruct (steady_timed _ (reachable_steady w Hw) h t Ht) as (r & Hr & Hdelay & Hpos).
  exists r. split; [done|]. split; [by apply (consistent_keyed _ Hc)|].
  unfold Timeout.due. rewrite Hdelay in *.
  destruct (parseISO _) as [x|]; simpl in *.
  - specialize (Hpos _ eq_refl). split; [lia|]. split; [done|].
    intros Hmax. rewrite kept_in_range by lia. lia.
  - split; [done|]. rewrite kept_of_NaN. lia.
Qed.

(** X9. Until [initDB] has succeeded the store has sent no request to the
    database, cached nothing, armed no timeout and published no event; the
    fetches do nothing, the four mutations throw 'DB não está inicializado'
    and change nothing, and [setSelectedDate] only records the date and
    leaves [loading] set. *)
Theorem nothing_runs_before_the_database_is_ready `{Runtime} (w : World.t) :
  reachable w → State.isDBReady (World.state w) = false →
  idle w
  ∧ ObjectStore.requests (World.db w) = []
  ∧ (∀ now date, store.fetchEvents now w = w ∧ store.fetchEventsByDate date now w = w)
  ∧ (∀ now event id updates completed,
       store.addEvent event now w = (w, Rejected (Error "DB não está inicializado"))
       ∧ store.updateEvent id updates now w
         = (w, Rejected (Error "DB não está inicializado"))
       ∧ store.deleteEvent id now w
         = (w, Rejected (Error "DB não está inicializado"))
       ∧ store.markEventAsCompleted id completed now w
         = (w, Rejected (Error "DB não está inicializado")))
  ∧ ∀ now date,
      store.setSelectedDate date now w
      = World.with_state w
          (State.mk false (State.events (World.state w)) true
                    (State.error (World.state w)) date).
Proof.
  intros Hw Hready.
  pose proof (quiet_idle _ (reachable_quiet w Hw) Hready) as Hidle.
  split; [done|]. split; [by rewrite (proj1 Hidle)|]. split; [|split].
  - intros now date. unfold store.fetchEvents, store.fetchEventsByDate.
    by rewrite Hready.
  - intros now event id updates completed.
    unfold store.addEvent, store.updateEvent, store.deleteEvent,
      store.markEventAsCompleted. by rewrite Hready.
  - intros now date. unfold store.setSelectedDate.
    rewrite refreshEvents_not_ready by done. by rewrite Hready.
Qed.

(** X10. Once the database is ready it stays ready, and between two
    operations the store is not loading: every operation that sets [loading]
    clears it before it ends. *)
Theorem a_ready_store_is_not_left_loading `{Runtime} (w w' : World.t) :
  reachable w → State.isDBReady (World.state w) = true → step w w' →
  State.loading (World.state w) = false
  ∧ State.isDBReady (World.state w') = true
  ∧ State.loading (World.state w') = false.
Proof.
  intros Hw Hready Hstep.
  pose proof (quiet_ready _ (reachable_quiet w Hw) Hready) as Hloading.
  split; [done|].
  destruct (step_ready w w' Hstep (reachable_consistent w Hw) (reachable_steady w Hw)
              Hready) as [Hdone|[->|[e [->| ->]]]]; done.
Qed.

(** ** The properties at work *)

Lemma fresh_keys_by_check (s : ObjectStore.t) :
  forallb (λ ke, bool_decide (ke.1 < ObjectStore.keygen s))
          (map_to_list (ObjectStore.records s)) = true →
  fresh_keys s.
Proof.
  intros Hall k [e Hk]. rewrite forallb_forall in Hall.
  apply (bool_decide_eq_true_1 _ (Hall (k, e) (proj1 (list_elem_of_In _ _)
    (proj2 (elem_of_map_to_list _ _ _) Hk)))).
Qed.

Lemma valid_priorities_by_check (s : ObjectStore.t) :
  forallb (λ ke, bool_decide (Event.priority ke.2 ∈ [1; 2; 3]))
          (map_to_list (ObjectStore.records s)) = true →
  valid_priorities s.
Proof.
  intros Hall k e Hk. rewrite forallb_forall in Hall.
  apply (bool_decide_eq_true_1 _ (Hall (k, e) (proj1 (list_elem_of_In _ _)
    (proj2 (elem_of_map_to_list _ _ _) Hk)))).
Qed.

Lemma sound_store_three_events : sound_store three_events.
Proof.
  split.
  - apply keyed_three_events.
  - apply fresh_keys_by_check. by vm_compute.
  - apply valid_priorities_by_check. by vm_compute.
Qed.

Definition dentist : CreateEvent.t :=
  CreateEvent.mk "Dentist" "" "2025-01-11" "14:00" 1.

Lemma addEvent_stores_the_new_record_witness :
  let s' := (@db.addEvent utc.runtime dentist t0 three_events).1 in
  (@db.addEvent utc.runtime dentist t0 three_events).2 = Resolved 4
  ∧ ObjectStore.records s' !! 4
    = Some (Event.mk 4 "Dentist" "" "2025-01-11" "14:00" 1 false
                     "2025-01-09T08:00:00.000Z" None)
  ∧ ObjectStore.keygen s' = 5.
Proof.
  intros s'.
  destruct (@addEvent_stores_the_new_record utc.runtime dentist t0 three_events)
    as (Hout & _ & Hrecord & _ & _ & Hgen & _).
  - apply sound_store_three_events.
  - apply list_elem_of_here.
  - split; [exact Hout|]. split; [exact Hrecord|exact Hgen].
Defined.

Lemma updateEvent_merges_the_fields_witness :
  let updates := UpdateEvent.mk (Some "Standup") None None (Some "09:30") None None in
  let s' := (@db.updateEvent utc.runtime 1 updates t0 three_events).1 in
  ∃ record, ObjectStore.records s' !! 1 = Some record
            ∧ Event.title record = "Standup"
            ∧ Event.time record = "09:30"
            ∧ Event.date record = "2025-01-10"
            ∧ Event.created_at record = "2025-01-09T12:00:00.000Z".
Proof.
  intros updates s'.
  destruct (@updateEvent_merges_the_fields utc.runtime three_events 1 standup updates t0)
    as (_ & (record & Hrecord & _ & Hcreated & Htitle & _ & Hdate & Htime & _) & _).
  - reflexivity.
  - reflexivity.
  - intros p [=].
  - exists record. split; [exact Hrecord|]. split; [exact Htitle|].
    split; [exact Htime|]. split; [exact Hdate|exact Hcreated].
Defined.

Lemma database_calls_keep_the_store_sound_witness :
  let s' := (db.deleteEvent 2 three_events).1 in
  retired s' 2
  ∧ (@db.addEvent utc.runtime dentist t0 s').2 = Resolved 4.
Proof.
  intros s'.
  assert (retired s' 2) as Hretired.
  { split; [by vm_compute|]. intros [e He]. by vm_compute in He. }
  split; [exact Hretired|].
  destruct (@database_calls_keep_the_store_sound utc.runtime three_events s')
    as (_ & _ & _ & Hadd).
  - apply rtc_once. exact (@db_deleteEvent utc.runtime 2 three_events).
  - apply sound_store_three_events.
  - destruct (Hadd dentist t0) as (Hout & _); [apply list_elem_of_here|exact Hout].
Defined.

Lemma published_events_can_always_be_rendered_witness :
  NoDup (Event.id <$> State.events (World.state w_added))
  ∧ ∃ text, getPriorityText 2 = Resolved text.
Proof.
  destruct (@published_events_can_always_be_rendered utc.runtime w_added
              reachable_w_added) as [Hnodup Hall].
  split; [exact Hnodup|].
  destruct (Hall (Event.mk 1 "Standup" "Daily" "2025-01-10" "09:00" 2 false
                           "2025-01-09T08:00:00.000Z" None)) as [Htext _].
  - vm_compute. apply list_elem_of_here.
  - exact Htext.
Defined.

Lemma pending_timeouts_are_armed_witness :
  World.timeouts w_added !! 1 = Some (Timeout.mk 1 t0 (Some 90000000))
  ∧ World.scheduledChecks w_added !! 1 = Some 1
  ∧ ∃ r, ObjectStore.records (World.db w_added) !! 1 = Some r ∧ Event.id r = 1.
Proof.
  assert (World.timeouts w_added !! 1 = Some (Timeout.mk 1 t0 (Some 90000000)))
    as Hpending by (by vm_compute).
  split; [exact Hpending|].
  destruct (@pending_timeouts_are_armed_for_the_stored_date_time utc.runtime w_added 1
              _ reachable_w_added Hpending) as (Hreg & r & Hr & Hid & _).
  split; [exact Hreg|]. exists r. split; [exact Hr|exact Hid].
Defined.

Lemma nothing_runs_before_ready_witness :
  let w := @store.setSelectedDate utc.runtime (Some "2025-01-10") t0 World.initial in
  State.isDBReady (World.state w) = false
  ∧ idle w
  ∧ State.loading (World.state w) = true.
Proof.
  intros w.
  assert (@reachable utc.runtime w) as Hw.
  { apply rtc_once.
    exact (@step_setSelectedDate utc.runtime (Some "2025-01-10") t0 World.initial). }
  split; [reflexivity|].
  destruct (@nothing_runs_before_the_database_is_ready utc.runtime w Hw eq_refl)
    as (Hidle & _).
  split; [exact Hidle|reflexivity].
Defined.

Lemma a_ready_store_is_not_left_loading_witness :
  State.isDBReady (World.state w_ready) = true
  ∧ State.isDBReady (World.state w_added) = true
  ∧ State.loading (World.state w_added) = false.
Proof.
  assert (State.isDBReady (World.state w_ready) = true) as Hready by (by vm_compute).
  split; [exact Hready|].
  destruct (@a_ready_store_is_not_left_loading utc.runtime w_ready w_added
              reachable_w_ready Hready) as (_ & Hr & Hl).
  - exact (@step_addEvent utc.runtime
             (CreateEvent.mk "Standup" "Daily" "2025-01-10" "09:00" 2) t0 w_ready).
  - split; [exact Hr|exact Hl].
Defined.

(** * The list of [eventList.tsx] *)

Section grouping.
Context `{Runtime}.

(** The entries of the map after [e] is pushed under its date. *)
Definition pushed (e : Event.t) (entry : string * list Event.t)
  : string * list Event.t :=
  if bool_decide (entry.1 = Event.date e) then (entry.1, entry.2 ++ [e]) else entry.

Lemma pushed_key (e : Event.t) (m : Map.t) : (pushed e <$> m).*1 = m.*1.
Proof.
  rewrite <-list_fmap_compose. apply list_fmap_ext. intros i entry _. simpl.
  unfold pushed. by case_bool_decide.
Qed.

Lemma get_is_Some (key : string) (m : Map.t) :
  key ∈ m.*1 → is_Some (Map.get key m).
Proof.
  intros ([k l] & -> & Hin)%list_elem_of_fmap. unfold Map.get.
  destruct (List.find _ m) as [entry|] eqn:Hfind; [by eexists|].
  apply list_elem_of_In in Hin.
  pose proof (List.find_none _ _ Hfind _ Hin) as Hno. simpl in Hno.
  by rewrite bool_decide_eq_true_2 in Hno.
Qed.

(** [group]: the event goes last in the array of its date, in a new entry
    that goes last in the map when the date is not yet a key. *)
Lemma group_eq (m : Map.t) (e : Event.t) :
  eventList.group m e
  = if decide (Event.date e ∈ m.*1) then pushed e <$> m
    else m ++ [(Event.date e, [e])].
Proof.
  unfold eventList.group, Map.has, Map.push, Map.set, Map.has.
  destruct (decide (Event.date e ∈ m.*1)) as [Hin|Hnot].
  - rewrite bool_decide_eq_true_2 by done. simpl.
    by destruct (get_is_Some _ _ Hin) as [l ->].
  - rewrite bool_decide_eq_false_2 by done. simpl.
    destruct (get_is_Some (Event.date e) (m ++ [(Event.date e, [])])) as [l ->].
    { rewrite fmap_app. apply elem_of_app. right. simpl. apply list_elem_of_here. }
    rewrite fmap_app. simpl. f_equal.
    + rewrite <-(list_fmap_id m) at 2. apply list_fmap_ext. intros i entry Hi. simpl.
      unfold pushed. rewrite bool_decide_eq_false_2; [done|]. intros Heq.
      apply Hnot, list_elem_of_fmap. exists entry. split; [done|].
      by eapply list_elem_of_lookup_2.
    + unfold pushed. simpl. by rewrite bool_decide_eq_true_2.
Qed.

(** The map after the events of [l] were grouped. *)
Definition groups_of (l : list Event.t) (m : Map.t) : Prop :=
  NoDup m.*1
  ∧ ∀ key g, (key, g) ∈ m ↔ g = filter (λ e, Event.date e = key) l ∧ g ≠ [].

Lemma groups_of_nil : groups_of [] [].
Proof.
  split; [constructor|]. intros key g. split; [by intros ?%elem_of_nil|].
  by intros [-> Hne].
Qed.

Lemma groups_of_snoc (l : list Event.t) (m : Map.t) (e : Event.t) :
  groups_of l m → groups_of (l ++ [e]) (eventList.group m e).
Proof.
  intros [Hnodup Hm]. rewrite group_eq.
  assert (∀ key, filter (λ e', Event.date e' = key) (l ++ [e])
                 = filter (λ e', Event.date e' = key) l
                   ++ if decide (Event.date e = key) then [e] else []) as Hfilter.
  { intros key. rewrite filter_app, filter_cons, filter_nil.
    by destruct (decide (Event.date e = key)). }
  assert (∀ key, key ∈ m.*1 ↔ filter (λ e', Event.date e' = key) l ≠ []) as Hkeys.
  { intros key. rewrite list_elem_of_fmap. split.
    - intros ([k g] & -> & Hin). simpl. by apply Hm in Hin as [-> Hne].
    - intros Hne. exists (key, filter (λ e', Event.date e' = key) l).
      split; [done|]. by apply Hm. }
  destruct (decide (Event.date e ∈ m.*1)) as [Hin|Hnot].
  - split; [by rewrite pushed_key|]. intros key g.
    rewrite list_elem_of_fmap, Hfilter. split.
    + intros ([k g0] & Heq & [-> Hne]%Hm). unfold pushed in Heq. simpl in Heq.
      case_bool_decide as Hk; injection Heq as -> ->.
      * rewrite decide_True by done. split; [done|]. by intros [? ?]%app_eq_nil.
      * rewrite decide_False by done. by rewrite app_nil_r.
    + intros [-> Hne]. exists (key, filter (λ e', Event.date e' = key) l). split.
      * unfold pushed. simpl. case_bool_decide as Hk.
        -- by rewrite decide_True.
        -- rewrite decide_False by done. by rewrite app_nil_r.
      * apply Hm. split; [done|].
        destruct (decide (Event.date e = key)) as [<-|Hk]; [by apply Hkeys|].
        by rewrite app_nil_r in Hne.
  - assert (filter (λ e', Event.date e' = Event.date e) l = []) as Hnone.
    { destruct (filter _ l) eqn:Hf; [done|]. destruct Hnot. apply Hkeys.
      by rewrite Hf. }
    split.
    + rewrite fmap_app. apply NoDup_app. split; [done|]. split.
      * intros key Hkey [->|[]%elem_of_nil]%elem_of_cons. done.
      * simpl. apply NoDup_singleton.
    + intros key g. rewrite elem_of_app, list_elem_of_singleton, Hfilter, Hm. split.
      * intros [[-> Hne]|[= -> ->]].
        -- rewrite decide_False; [by rewrite app_nil_r|]. intros <-.
           by rewrite Hnone in Hne.
        -- by rewrite Hnone, decide_True.
      * intros [-> Hne]. destruct (decide (Event.date e = key)) as [<-|Hk].
        -- right. by rewrite Hnone.
        -- left. by rewrite app_nil_r in *.
Qed.

Lemma groups_of_foldl (l : list Event.t) : groups_of l (foldl eventList.group [] l).
Proof.
  induction l as [|e l IH] using rev_ind; [apply groups_of_nil|].
  rewrite foldl_app. simpl. by apply groups_of_snoc.
Qed.
End grouping.

(** X11. [processedEvents] without grouping is a reordering of the published
    events, of those of [filterDate] when it is a date. With grouping it is a
    map with one entry for every date that has an event in that list and no
    other: the entry of a date holds the events of that date, in the order of
    the list, and no entry is empty; so the map is empty exactly when no
    event passes the filter. *)
Theorem processedEvents_groups_by_date `{Runtime}
    (events : list Event.t) (filterDate : option string) :
  ∃ sorted grouped,
    eventList.processedEvents events filterDate false = inl sorted
    ∧ eventList.processedEvents events filterDate true = inr grouped
    ∧ (filterDate = None ∨ filterDate = Some "" → sorted ≡ₚ events)
    ∧ (∀ date, filterDate = Some date → date ≠ "" →
         sorted ≡ₚ filter (λ e, Event.date e = date) events)
    ∧ NoDup grouped.*1
    ∧ (∀ key g, (key, g) ∈ grouped
                ↔ g = filter (λ e, Event.date e = key) sorted ∧ g ≠ [])
    ∧ (∀ e, e ∈ sorted ↔ ∃ key g, (key, g) ∈ grouped ∧ e ∈ g)
    ∧ (grouped = [] ↔ sorted = []).
Proof.
  eexists _, _. split; [done|]. split; [done|].
  set (sorted := sort eventList.by_date_time_priority _).
  destruct (groups_of_foldl sorted) as [Hnodup Hgroups].
  split; [|split; [|split; [done|split; [done|split]]]].
  - unfold sorted. intros [->| ->]; by rewrite sort_perm.
  - unfold sorted. intros date -> Hdate. rewrite sort_perm.
    by destruct date as [|c date].
  - intros e. split.
    + intros He. exists (Event.date e), (filter (λ e', Event.date e' = Event.date e) sorted).
      assert (e ∈ filter (λ e', Event.date e' = Event.date e) sorted) as Hin
        by by apply list_elem_of_filter.
      split; [|done]. apply Hgroups. split; [done|]. intros Hnil.
      rewrite Hnil in Hin. by apply elem_of_nil in Hin.
    + intros (key & g & [-> _]%Hgroups & He). by apply list_elem_of_filter in He as [_ ?].
  - split.
    + intros Hnil. destruct sorted as [|e rest] eqn:Hs; [done|]. exfalso.
      assert ((Event.date e, filter (λ e', Event.date e' = Event.date e) (e :: rest))
              ∈ foldl eventList.group [] (e :: rest)) as Hin.
      { apply Hgroups. split; [done|]. rewrite filter_cons, decide_True; done. }
      rewrite Hnil in Hin. by apply elem_of_nil in Hin.
    + intros Hnil. rewrite Hnil. done.
Qed.

(** * What a user of the store sees of a mutation *)

Section seen.
Context `{Runtime}.

Lemma reconciled_kept (now : Z) (e : Event.t) :
  Event.id (reconciled now e) = Event.id e
  ∧ Event.title (reconciled now e) = Event.title e
  ∧ Event.description (reconciled now e) = Event.description e
  ∧ Event.date (reconciled now e) = Event.date e
  ∧ Event.time (reconciled now e) = Event.time e
  ∧ Event.priority (reconciled now e) = Event.priority e
  ∧ (past_due now e → Event.completed (reconciled now e) = true).
Proof. unfold reconciled. by destruct (decide _). Qed.

(** The record a query of the view finds. *)
Lemma elem_of_fetched (w : World.t) (k : Z) (r : Event.t) :
  ObjectStore.records (World.db w) !! k = Some r → shown w r → r ∈ fetched w.
Proof.
  unfold fetched, shown. intros Hr Hshown.
  destruct (store.chosenDate w) as [date|]; rewrite elem_of_sort.
  - apply list_elem_of_filter. split; [done|]. apply elem_of_in_key_order. eauto.
  - apply elem_of_in_key_order. eauto.
Qed.

(** A refresh that queries completes the records of the past-due events it
    finds. *)
Lemma refreshEvents_completes (now : Z) (w : World.t) (e : Event.t) :
  consistent w → State.isDBReady (World.state w) = true →
  store.isCacheValid (store.cacheKey w) now w = false →
  e ∈ fetched w → past_due now e →
  ∃ r, ObjectStore.records (World.db (store.refreshEvents now w).1) !! Event.id e
       = Some r ∧ Event.completed r = true.
Proof.
  intros Hc Hready Hmiss He Hdue.
  rewrite (refreshEvents_miss now w Hready Hmiss (consistent_keyed _ Hc)).
  cbv zeta. cbn [fst]. unfold set_events, store.updateCache.
  cbn [World.db World.with_state World.with_cache].
  rewrite (proj1 (scheduleAll_frame _ now (World.with_db w _))).
  cbn [World.db World.with_db].
  apply (markAll_stored (past_due_ids now (fetched w)) now
           (issue (query w) (World.db w)) (consistent_keyed _ Hc)).
  - apply Forall_forall. intros k (e' & He' & _ & <-)%elem_of_past_due_ids.
    apply stored_issue. exists e'. by apply fetched_stored; [apply Hc|].
  - apply elem_of_past_due_ids. eauto.
Qed.

(** [db.markEventAsCompleted] of a stored record. *)
Lemma markEventAsCompleted_sets (id : Z) (completed : bool) (now : Z)
    (s : ObjectStore.t) (r : Event.t) :
  keyed s → ObjectStore.records s !! id = Some r →
  (db.markEventAsCompleted id completed now s).2 = Resolved ()
  ∧ ∃ r', ObjectStore.records (db.markEventAsCompleted id completed now s).1 !! id
          = Some r'
          ∧ Event.completed r' = completed
          ∧ Event.date r' = Event.date r ∧ Event.time r' = Event.time r.
Proof.
  intros Hkeyed Hr. unfold db.markEventAsCompleted.
  destruct (updateEvent_cases id (UpdateEvent.only_completed completed) now s)
    as [(p & Hp & _)|[(_ & Hnone & _)|[(e & _ & He & Hn & ->)|(e & _ & He & _ & ->)]]].
  - done.
  - congruence.
  - assert (e = r) as -> by congruence. split; [done|]. exists r.
    split; [done|]. split; [|done].
    unfold db.needsUpdate in Hn. rewrite !orb_false_iff in Hn.
    destruct Hn as (_ & Hn). by apply differs_false in Hn.
  - assert (e = r) as -> by congruence. split; [done|].
    cbn [fst]. unfold put, issue. cbn [ObjectStore.records db.updatedEvent Event.id].
    rewrite (Hkeyed _ _ Hr), lookup_insert_eq. eexists. split; [done|]. done.
Qed.

(** The mutations of a ready store, as the refresh of the world their
    database call leaves. *)
Lemma addEvent_run (event : CreateEvent.t) (now : Z) (w : World.t)
    (s : ObjectStore.t) (key : Z) :
  consistent w → State.isDBReady (World.state w) = true →
  db.addEvent event now (World.db w) = (s, Resolved key) →
  let wmid := World.with_cache (World.with_db (set_loading w) s) ∅ in
  consistent wmid
  ∧ store.addEvent event now w = ((store.refreshEvents now wmid).1, Resolved ()).
Proof.
  intros Hc Hready Hadd wmid.
  destruct (addEvent_keyed event now (World.db w) (consistent_keyed _ Hc))
    as (Hk & Hst & _).
  rewrite Hadd in Hk, Hst. cbn [fst] in Hk, Hst.
  assert (consistent wmid) as Hmid.
  { unfold wmid. rewrite <-invalidateCache_frame.
    apply invalidateCache_consistent, consistent_with_db;
      [by apply consistent_set_loading|done..]. }
  split; [done|].
  unfold store.addEvent. rewrite Hready. cbn [negb]. cbv zeta.
  change (World.db (set_loading w)) with (World.db w). rewrite Hadd.
  by rewrite invalidateCache_frame, refreshed_eq.
Qed.

Lemma markEventAsCompleted_run (id : Z) (now : Z) (w : World.t) :
  consistent w → State.isDBReady (World.state w) = true →
  (db.markEventAsCompleted id false now (World.db w)).2 = Resolved () →
  let wmid := World.with_cache
                (World.with_db (set_loading w)
                   (db.markEventAsCompleted id false now (World.db w)).1) ∅ in
  consistent wmid
  ∧ (store.markEventAsCompleted id false now w).1 = (store.refreshEvents now wmid).1.
Proof.
  intros Hc Hready Hout wmid.
  destruct (updateEvent_keyed id (UpdateEvent.only_completed false) now (World.db w)
              (consistent_keyed _ Hc)) as (Hk & Hst & _).
  fold (db.markEventAsCompleted id false now (World.db w)) in Hk, Hst.
  assert (consistent wmid) as Hmid.
  { unfold wmid. rewrite <-invalidateCache_frame.
    apply invalidateCache_consistent, consistent_with_db;
      [by apply consistent_set_loading|done|]. intros k. by rewrite Hst. }
  split; [done|].
  unfold store.markEventAsCompleted. rewrite Hready. cbn [negb]. cbv zeta.
  change (World.db (set_loading w)) with (World.db w).
  destruct (db.markEventAsCompleted id false now (World.db w)) as [s o].
  cbn [fst snd] in *. subst o.
  by rewrite invalidateCache_frame, refreshed_eq.
Qed.
End seen.

(** X12. [deleteEvent] on a ready store resolves and leaves the id without a
    record, without a published event and without a pending timeout; the
    other ids hold a record exactly when they did; no error is published
    and the store is not loading. *)
Theorem a_deleted_event_is_gone `{Runtime} (w : World.t) (id now : Z) :
  consistent w → State.isDBReady (World.state w) = true →
  let w' := (store.deleteEvent id now w).1 in
  (store.deleteEvent id now w).2 = Resolved ()
  ∧ ObjectStore.records (World.db w') !! id = None
  ∧ (∀ e, e ∈ State.events (World.state w') → Event.id e ≠ id)
  ∧ (∀ h t, World.timeouts w' !! h = Some t → Timeout.event t ≠ id)
  ∧ (∀ k, k ≠ id → stored (World.db w') k ↔ stored (World.db w) k)
  ∧ State.error (World.state w') = None
  ∧ State.loading (World.state w') = false.
Proof.
  intros Hc Hready w'.
  destruct (deleteEvent_written id now w Hc Hready) as (_ & _ & _ & _ & Hids & _).
  fold w' in Hids.
  destruct (deleteEvent_run id now w Hc Hready) as (Hmid & Hstate & Heq).
  set (wmid := World.with_cache _ ∅) in *.
  destruct (refreshEvents_consistent now wmid Hmid)
    as (_ & _ & Hst & _ & Hnone & _).
  destruct (refreshEvents_state now wmid Hmid) as (_ & Hloading & Herror & _).
  { by rewrite Hstate. }
  rewrite <-Heq in Hst, Hnone, Hloading, Herror. fold w' in Hst, Hnone, Hloading, Herror.
  assert (ObjectStore.records (World.db wmid) !! id = None) as Hgone.
  { apply lookup_delete_eq. }
  split; [|split; [|split; [|split; [|split; [|split]]]]].
  - unfold store.deleteEvent. by rewrite Hready.
  - apply eq_None_not_Some. intros Hsome%Hst. unfold stored in Hsome.
    rewrite Hgone in Hsome. by destruct Hsome.
  - intros e He Heq'.
    destruct (proj1 (Hids id)) as (r & Hr & _); [by exists e|].
    change (ObjectStore.records (World.db wmid) !! id = Some r) in Hr. congruence.
  - apply Hnone.
    + intros h t Ht.
      by apply (proj2 (unschedule_consistent id (set_loading w)
                         (consistent_set_loading w Hc)) h t).
    + intros e He. congruence.
  - intros k Hne. rewrite Hst. unfold stored. simpl. by rewrite lookup_delete_ne.
  - by rewrite Herror, Hstate.
  - done.
Qed.

(** X13. On a ready store that its operations reached, [addEvent] of an event
    with a priority of 1, 2 or 3 resolves and publishes no error; when the
    view shows all dates or the date of the event, the published list has an
    event under the new id, the key generator's, with the title, the
    description, the date, the time and the priority given, and the record
    of that id is stored. *)
Theorem an_added_event_is_published `{Runtime}
    (w : World.t) (event : CreateEvent.t) (now : Z) :
  reachable w → State.isDBReady (World.state w) = true →
  CreateEvent.priority event ∈ [1; 2; 3] →
  (store.chosenDate w = None ∨ store.chosenDate w = Some (CreateEvent.date event)) →
  let key := ObjectStore.keygen (World.db w) in
  let w' := (store.addEvent event now w).1 in
  (store.addEvent event now w).2 = Resolved ()
  ∧ State.error (World.state w') = None
  ∧ State.loading (World.state w') = false
  ∧ ¬ stored (World.db w) key
  ∧ stored (World.db w') key
  ∧ ∃ e, e ∈ State.events (World.state w')
         ∧ Event.id e = key
         ∧ Event.title e = CreateEvent.title event
         ∧ Event.description e = CreateEvent.description event
         ∧ Event.date e = CreateEvent.date event
         ∧ Event.time e = CreateEvent.time event
         ∧ Event.priority e = CreateEvent.priority event.
Proof.
  intros Hw Hready Hp Hview key w'.
  pose proof (reachable_consistent w Hw) as Hc.
  pose proof (sound_fresh _ (reachable_sound_store w Hw)) as Hfresh.
  pose proof (addEvent_fresh event now (World.db w) Hfresh Hp) as Hadd.
  cbv zeta in Hadd. fold key in Hadd.
  set (record := Event.mk key _ _ _ _ _ false _ None) in Hadd.
  set (s := ObjectStore.mk _ (key + 1) _) in Hadd.
  destruct (addEvent_run event now w s key Hc Hready Hadd) as [Hmid Hrun].
  set (wmid := World.with_cache _ ∅) in *.
  destruct (refreshEvents_state now wmid Hmid Hready) as (_ & Hloading & Herror & _).
  destruct (refreshEvents_consistent now wmid Hmid) as (_ & _ & Hst & _).
  destruct (addEvent_written event now w Hc Hready) as (_ & _ & _ & Hevents & _).
  { by rewrite Hadd. }
  fold w' in Hevents. rewrite Hadd in Hevents. cbn [fst] in Hevents.
  unfold w'. rewrite Hrun. cbn [fst snd].
  split; [done|]. split; [done|]. split; [done|]. split; [|split].
  - intros [e He]. pose proof (fresh_keys_free _ Hfresh) as Hfree.
    fold key in Hfree. congruence.
  - apply Hst. exists record. apply lookup_insert_eq.
  - exists (reconciled now record).
    destruct (reconciled_kept now record) as (Hid & Htitle & Hdesc & Hdate & Htime & Hprio & _).
    split; [|done].
    unfold w' in Hevents. rewrite Hrun in Hevents. cbn [fst] in Hevents.
    rewrite Hevents. apply list_elem_of_fmap. exists record. split; [done|].
    apply (elem_of_fetched _ key); [apply lookup_insert_eq|].
    unfold shown. change (store.chosenDate (World.with_db w s)) with (store.chosenDate w).
    by destruct Hview as [->| ->].
Qed.

(** X14. Unchecking the box of an event whose date and time are before now
    reopens it for the length of one write only: [handleCheckboxChange] calls
    [markEventAsCompleted(id, false)], and the refresh that ends it finds the
    event past due and completes it again. When the view shows the event, its
    record is completed afterwards and the published list shows it
    completed. *)
Theorem a_past_due_event_cannot_be_reopened `{Runtime}
    (w : World.t) (id now x : Z) (r : Event.t) :
  consistent w → State.isDBReady (World.state w) = true →
  ObjectStore.records (World.db w) !! id = Some r →
  parseISO (Event.date r +:+ "T" +:+ Event.time r) = Some x → x < now →
  shown w r →
  let w' := eventList.handleCheckboxChange id true now w in
  (∃ r', ObjectStore.records (World.db w') !! id = Some r' ∧ Event.completed r' = true)
  ∧ ∃ e, e ∈ State.events (World.state w') ∧ Event.id e = id
         ∧ Event.completed e = true.
Proof.
  intros Hc Hready Hr Hx Hlt Hshown w'.
  destruct (markEventAsCompleted_sets id false now (World.db w) r
              (consistent_keyed _ Hc) Hr) as (Hout & r1 & Hr1 & Hopen & Hdate & Htime).
  destruct (markEventAsCompleted_run id now w Hc Hready Hout) as [Hmid Hrun].
  set (wmid := World.with_cache _ ∅) in *.
  assert (w' = (store.refreshEvents now wmid).1) as ->.
  { unfold w', eventList.handleCheckboxChange. exact Hrun. }
  assert (store.isCacheValid (store.cacheKey wmid) now wmid = false) as Hmiss.
  { unfold store.isCacheValid. simpl. by rewrite lookup_empty. }
  assert (Event.id r1 = id) as Hid by by apply (consistent_keyed _ Hmid).
  assert (r1 ∈ fetched wmid) as Hin.
  { apply (elem_of_fetched wmid id); [done|]. unfold shown in *.
    change (store.chosenDate wmid) with (store.chosenDate w). by rewrite Hdate. }
  assert (past_due now r1) as Hdue.
  { split; [done|]. exists x. by rewrite Hdate, Htime. }
  split.
  - rewrite <-Hid. by apply refreshEvents_completes.
  - exists (reconciled now r1).
    destruct (reconciled_kept now r1) as (Hid' & _ & _ & _ & _ & _ & Hdone).
    split; [|split; [congruence|by apply Hdone]].
    rewrite (refreshEvents_miss now wmid Hready Hmiss (consistent_keyed _ Hmid)).
    cbv zeta. cbn [fst]. simpl. apply list_elem_of_fmap. by exists r1.
Qed.

Lemma a_deleted_event_is_gone_witness :
  let w' := (@store.deleteEvent utc.runtime 1 (t0 + 1000) w_added).1 in
  is_Some (ObjectStore.records (World.db w_added) !! 1)
  ∧ ObjectStore.records (World.db w') !! 1 = None
  ∧ (∀ e, e ∈ State.events (World.state w') → Event.id e ≠ 1)
  ∧ State.error (World.state w') = None.
Proof.
  intros w'. split; [vm_compute; by eexists|].
  destruct (@a_deleted_event_is_gone utc.runtime w_added 1 (t0 + 1000))
    as (_ & Hgone & Hevents & _ & _ & Herror & _).
  - apply (@reachable_consistent utc.runtime), reachable_w_added.
  - reflexivity.
  - split; [exact Hgone|]. split; [exact Hevents|exact Herror].
Defined.

Lemma an_added_event_is_published_witness :
  ∃ e, e ∈ State.events (World.state w_added)
       ∧ Event.id e = 1 ∧ Event.title e = "Standup" ∧ Event.date e = "2025-01-10".
Proof.
  destruct (@an_added_event_is_published utc.runtime w_ready
              (CreateEvent.mk "Standup" "Daily" "2025-01-10" "09:00" 2) t0)
    as (_ & _ & _ & _ & _ & e & He & Hid & Htitle & _ & Hdate & _).
  - exact reachable_w_ready.
  - reflexivity.
  - apply list_elem_of_further, list_elem_of_here.
  - left. reflexivity.
  - exists e. split; [exact He|]. split; [exact Hid|]. split; [exact Htitle|exact Hdate].
Defined.

Lemma a_past_due_event_cannot_be_reopened_witness :
  let w' := @eventList.handleCheckboxChange utc.runtime 1 true 1736499660000 w_added in
  (∃ r', ObjectStore.records (World.db w') !! 1 = Some r' ∧ Event.completed r' = true)
  ∧ ∃ e, e ∈ State.events (World.state w') ∧ Event.id e = 1
         ∧ Event.completed e = true.
Proof.
  apply (@a_past_due_event_cannot_be_reopened utc.runtime w_added 1 1736499660000
           1736499600000
           (Event.mk 1 "Standup" "Daily" "2025-01-10" "09:00" 2 false
                     "2025-01-09T08:00:00.000Z" None)).
  - apply (@reachable_consistent utc.runtime), reachable_w_added.
  - reflexivity.
  - by vm_compute.
  - by vm_compute.
  - lia.
  - by vm_compute.
Defined.
